(** * ApexAI Copilot: the derivation pipeline, embedded and verified

    The program is a chain of DuckDB queries and pandas steps that turns
    lap, micro-sector and telemetry rows into ideal laps, deltas, driver
    opportunities, physics references and a per-driver insights document.

    Embedding conventions.
    - A table is a [list] of rows, a row is a [Record] whose fields carry the
      column names of the source.
    - SQL [NULL] (and pandas [NaN] read back from it) is [None]; a nullable
      DOUBLE column has type [option Q].
    - Floating-point seconds are exact rationals ([Q]); equality of computed
      values is [Qeq] ([==]).  Rounding error, infinities and NaN payloads
      are outside the model.
    - A [GROUP BY] is the list of distinct keys, each with the rows that
      carry it; a [JOIN ... ON] is the list of matching pairs.
    - Where SQL leaves an order open (ties under [ORDER BY]) the query is a
      relation, not a function. *)

From Stdlib Require Import List ZArith QArith Qminmax Qround Qabs String Ascii Bool.
From Stdlib Require Import Lia Lqa Permutation Sorted DecimalString DecimalZ DecimalPos.
Import ListNotations.
Open Scope Q_scope.


(* ================================================================== *)
(** * 1. SQL building blocks *)
(* ================================================================== *)

(** Arithmetic on nullable values: any [NULL] operand gives [NULL]. *)
Definition sql_lift2 {A B C : Type} (f : A -> B -> C)
  (x : option A) (y : option B) : option C :=
  match x, y with
  | Some a, Some b => Some (f a b)
  | _, _ => None
  end.

Definition sql_add : option Q -> option Q -> option Q := sql_lift2 Qplus.
Definition sql_sub : option Q -> option Q -> option Q := sql_lift2 Qminus.

(** Equality of nullable rationals up to [Qeq]. *)
Definition oQeq (x y : option Q) : Prop :=
  match x, y with
  | Some a, Some b => a == b
  | None, None => True
  | _, _ => False
  end.

(** Strict comparison as a boolean: [x < y]. *)
Definition Qlt_bool (x y : Q) : bool := negb (Qle_bool y x).

(** A [WHERE] or [ON] condition keeps a row only when it is [TRUE]:
    a [NULL] comparison drops the row. *)
Definition sql_lt (x : option Q) (c : Q) : bool :=
  match x with
  | Some v => Qlt_bool v c
  | None => false
  end.

(** The non-[NULL] values of a column: what an aggregate reads. *)
Fixpoint somes {A : Type} (l : list (option A)) : list A :=
  match l with
  | [] => []
  | Some a :: t => a :: somes t
  | None :: t => somes t
  end.

Definition Qsum (l : list Q) : Q := fold_right Qplus 0 l.

(** [SUM], [MIN], [MAX], [AVG]: [NULL] values are skipped, and an input
    with no value left gives [NULL]. *)
Definition agg_sum (l : list (option Q)) : option Q :=
  match somes l with
  | [] => None
  | v => Some (Qsum v)
  end.

Definition agg_min (l : list (option Q)) : option Q :=
  match somes l with
  | [] => None
  | x :: t => Some (fold_left Qmin t x)
  end.

Definition agg_avg (l : list (option Q)) : option Q :=
  match somes l with
  | [] => None
  | v => Some (Qsum v / inject_Z (Z.of_nat (List.length v)))
  end.

(** [VAR_SAMP]: the sum of squared deviations from the mean over [n - 1];
    [NULL] when fewer than two values are left. *)
Definition sq_dev (v : list Q) : Q :=
  let m := Qsum v / inject_Z (Z.of_nat (List.length v)) in
  Qsum (map (fun x => (x - m) * (x - m)) v).

Definition agg_var_samp (l : list (option Q)) : option Q :=
  match somes l with
  | [] | [_] => None
  | v => Some (sq_dev v / inject_Z (Z.of_nat (List.length v) - 1))
  end.

(** [VAR_POP]: the same sum over [n]; [NULL] only on an empty input. *)
Definition agg_var_pop (l : list (option Q)) : option Q :=
  match somes l with
  | [] => None
  | v => Some (sq_dev v / inject_Z (Z.of_nat (List.length v)))
  end.

(** [MIN] over a text column (binary collation). *)
Definition agg_min_str (l : list string) : option string :=
  match l with
  | [] => None
  | x :: t => Some (fold_left (fun a b => if String.leb a b then a else b) t x)
  end.

Section GroupBy.
Context {A K : Type}.
Variable K_dec : forall x y : K, {x = y} + {x <> y}.
Variable key : A -> K.

Definition has_key (k : K) (a : A) : bool :=
  if K_dec (key a) k then true else false.

Definition group_rows (k : K) (l : list A) : list A :=
  filter (has_key k) l.

(** [GROUP BY key]: one entry per distinct key. *)
Definition group_by (l : list A) : list (K * list A) :=
  map (fun k => (k, group_rows k l)) (nodup K_dec (map key l)).
End GroupBy.

(** [FROM a JOIN b ON cond]. *)
Definition join {A B : Type} (on : A -> B -> bool)
  (la : list A) (lb : list B) : list (A * B) :=
  flat_map (fun a => map (fun b => (a, b)) (filter (on a) lb)) la.

(* ================================================================== *)
(** * 2. Data model *)
(* ================================================================== *)

(** The six micro-sectors (keys of [sector_map] in sectors.py) and the
    three main sectors ([sec_id[:2]]). *)
Inductive SectorId := S1a | S1b | S2a | S2b | S3a | S3b.
Inductive MainSector := S1 | S2 | S3.

Definition main_sector_of (s : SectorId) : MainSector :=
  match s with
  | S1a | S1b => S1
  | S2a | S2b => S2
  | S3a | S3b => S3
  end.

Definition SectorId_dec (x y : SectorId) : {x = y} + {x <> y}.
Proof. decide equality. Defined.

Definition MainSector_dec (x y : MainSector) : {x = y} + {x <> y}.
Proof. decide equality. Defined.

Definition str_eqb (a b : string) : bool := String.eqb a b.

(** drivers (laps.py): one row per result-sheet entry.  [class] and
    [race_id] are taken as present (never [NULL]). *)
Module Driver.
Record row := mk {
  driver_id : string;
  car_no : Z;
  class : string;
  race_id : string
}.
End Driver.

(** The merged lap-time rows read by laps.py, before cleaning. *)
Module MergedLap.
Record row := mk {
  car_no : Z;          (* extract_car_no(vehicle_id) *)
  lap : Z;
  lap_time_ms : Q
}.
End MergedLap.

(** laps *)
Module LapRecord.
Record row := mk {
  driver_id : string;
  car_no : Z;
  lap_no : Z;
  lap_time_s : Q;
  is_valid : bool;
  race_id : string
}.
End LapRecord.

(** sectors (long format); [main_sector] is the column [sec_id[:2]]. *)
Module MicroSectorRecord.
Record row := mk {
  driver_id : string;
  car_no : Z;
  lap_no : Z;
  sector_id : SectorId;
  sector_time_s : Q
}.
Definition main_sector (r : row) : MainSector := main_sector_of (sector_id r).
End MicroSectorRecord.

(** f"D_{car_no}" *)
Definition driver_id_of (car_no : Z) : string :=
  ("D_" ++ NilZero.string_of_int (Z.to_int car_no))%string.

(** pandas [Series.between(lo, hi)]: both ends included. *)
Definition between (x lo hi : Q) : bool := Qle_bool lo x && Qle_bool x hi.

(** laps.py, run_laps_pipeline: seconds from milliseconds, the driver key
    from the car number, and the validity flag from the lap time. *)
Definition run_laps_pipeline (merged : list MergedLap.row) : list LapRecord.row :=
  map (fun m =>
         let lap_time_s := MergedLap.lap_time_ms m / 1000 in
         LapRecord.mk
           (driver_id_of (MergedLap.car_no m))
           (MergedLap.car_no m)
           (MergedLap.lap m)
           lap_time_s
           (between lap_time_s 60 240)
           "sebring_R1")
      merged.

(** The inputs of the derivation pipeline. *)
Record Database := mkDB {
  drivers : list Driver.row;
  merged_laps : list MergedLap.row;
  sectors : list MicroSectorRecord.row
}.

Definition laps (db : Database) : list LapRecord.row :=
  run_laps_pipeline (merged_laps db).

(* ================================================================== *)
(** * 3. Ideal-Lap Engine (analytics/ideal_lap.py) *)
(* ================================================================== *)

Module ClassBestSegment.
(** ideal_lap_segments_class.  The provenance column [source_driver_id]
    ([ARG_MIN]) is read by no later stage and is not carried. *)
Record row := mk {
  class : string;
  sector_id : SectorId;
  best_sector_time_s : option Q
}.
End ClassBestSegment.

Module LapSectorSum.
Record row := mk {
  driver_id : string;
  car_no : Z;
  lap_no : Z;
  main_sector : MainSector;
  sector_time_sum : option Q
}.
End LapSectorSum.

Module DriverBestMainSector.
Record row := mk {
  driver_id : string;
  class : option string;
  best_S1 : option Q;
  best_S2 : option Q;
  best_S3 : option Q
}.
End DriverBestMainSector.

Module IdealLap.
Record row := mk {
  driver_id : string;
  lap_no : Z;
  lap_time_s : Q;
  class : option string;
  best_S1 : option Q;
  best_S2 : option Q;
  best_S3 : option Q;
  ideal_lap_time_s : option Q;
  delta_to_ideal_s : option Q
}.
End IdealLap.

Definition ClassSector_dec (x y : string * SectorId) : {x = y} + {x <> y}.
Proof. decide equality; [apply SectorId_dec | apply string_dec]. Defined.

Definition LapSectorKey : Type := string * Z * Z * MainSector.

Definition LapSectorKey_dec (x y : LapSectorKey) : {x = y} + {x <> y}.
Proof.
  repeat decide equality; try apply string_dec; try apply MainSector_dec.
Defined.

(** [WHERE s.sector_time_s > 1] *)
Definition over_one (s : MicroSectorRecord.row) : bool :=
  Qlt_bool 1 (MicroSectorRecord.sector_time_s s).

(** [FROM sectors s JOIN drivers d ON s.driver_id = d.driver_id] *)
Definition sector_driver (s : MicroSectorRecord.row) (d : Driver.row) : bool :=
  str_eqb (MicroSectorRecord.driver_id s) (Driver.driver_id d).

(** 1) class-level best micro-sectors *)
Definition ideal_lap_segments_class (db : Database) : list ClassBestSegment.row :=
  map (fun kg : (string * SectorId) * list (MicroSectorRecord.row * Driver.row) =>
         let (k, g) := kg in
         ClassBestSegment.mk (fst k) (snd k)
           (agg_min (map (fun sd => Some (MicroSectorRecord.sector_time_s (fst sd))) g)))
      (group_by ClassSector_dec
         (fun sd : MicroSectorRecord.row * Driver.row =>
            (Driver.class (snd sd), MicroSectorRecord.sector_id (fst sd)))
         (filter (fun sd => over_one (fst sd))
            (join sector_driver (sectors db) (drivers db)))).

Definition sector_key (s : MicroSectorRecord.row) : LapSectorKey :=
  (MicroSectorRecord.driver_id s, MicroSectorRecord.car_no s,
   MicroSectorRecord.lap_no s, MicroSectorRecord.main_sector s).

(** 2) per lap and main sector, the sum of its micro-sector times *)
Definition lap_sector_sums (db : Database) : list LapSectorSum.row :=
  map (fun kg : LapSectorKey * list MicroSectorRecord.row =>
         let (k, g) := kg in
         let '(driver_id, car_no, lap_no, main_sector) := k in
         LapSectorSum.mk driver_id car_no lap_no main_sector
           (agg_sum (map (fun s => Some (MicroSectorRecord.sector_time_s s)) g)))
      (group_by LapSectorKey_dec sector_key (filter over_one (sectors db))).

(** [CASE WHEN l.main_sector = 'Sn' THEN l.sector_time_sum END] *)
Definition sum_when (ms : MainSector) (l : LapSectorSum.row) : option Q :=
  if MainSector_dec (LapSectorSum.main_sector l) ms
  then LapSectorSum.sector_time_sum l
  else None.

Definition sum_driver (l : LapSectorSum.row) (d : Driver.row) : bool :=
  str_eqb (LapSectorSum.driver_id l) (Driver.driver_id d).

(** 3) per driver, the best of those sums, one main sector at a time *)
Definition ideal_lap_driver (db : Database) : list DriverBestMainSector.row :=
  map (fun kg : string * list (LapSectorSum.row * Driver.row) =>
         let (k, g) := kg in
         DriverBestMainSector.mk k
           (agg_min_str (map (fun ld => Driver.class (snd ld)) g))
           (agg_min (map (fun ld => sum_when S1 (fst ld)) g))
           (agg_min (map (fun ld => sum_when S2 (fst ld)) g))
           (agg_min (map (fun ld => sum_when S3 (fst ld)) g)))
      (group_by string_dec
         (fun ld : LapSectorSum.row * Driver.row => LapSectorSum.driver_id (fst ld))
         (join sum_driver (lap_sector_sums db) (drivers db))).

Definition lap_best (l : LapRecord.row) (i : DriverBestMainSector.row) : bool :=
  str_eqb (LapRecord.driver_id l) (DriverBestMainSector.driver_id i).

(** 4) per valid lap, the ideal lap and the delta to it *)
Definition ideal_lap (db : Database) : list IdealLap.row :=
  map (fun li : LapRecord.row * DriverBestMainSector.row =>
         let (l, i) := li in
         let ideal :=
           sql_add (sql_add (DriverBestMainSector.best_S1 i)
                            (DriverBestMainSector.best_S2 i))
                   (DriverBestMainSector.best_S3 i) in
         IdealLap.mk (LapRecord.driver_id l) (LapRecord.lap_no l)
           (LapRecord.lap_time_s l)
           (DriverBestMainSector.class i)
           (DriverBestMainSector.best_S1 i)
           (DriverBestMainSector.best_S2 i)
           (DriverBestMainSector.best_S3 i)
           ideal
           (sql_sub (Some (LapRecord.lap_time_s l)) ideal))
      (filter (fun li => LapRecord.is_valid (fst li))
         (join lap_best (laps db) (ideal_lap_driver db))).

(** The best of one main sector, by name. *)
Definition best_of (ms : MainSector) (i : DriverBestMainSector.row) : option Q :=
  match ms with
  | S1 => DriverBestMainSector.best_S1 i
  | S2 => DriverBestMainSector.best_S2 i
  | S3 => DriverBestMainSector.best_S3 i
  end.

(* ================================================================== *)
(** * 4. Delta Engine (analytics/deltas.py) *)
(* ================================================================== *)

Module SectorDelta.
Record row := mk {
  driver_id : string;
  car_no : Z;
  lap_no : Z;
  sector_id : SectorId;
  main_sector : MainSector;
  sector_time_s : Q;
  ideal_class_s : option Q;
  delta_class_s : option Q;
  ideal_driver_s : option Q;
  delta_driver_s : option Q;
  best_S1 : option Q;
  best_S2 : option Q;
  best_S3 : option Q;
  class : string
}.
End SectorDelta.

Module MainSectorDelta.
Record row := mk {
  driver_id : string;
  car_no : Z;
  lap_no : Z;
  main_sector : MainSector;
  actual_main_s : option Q;
  ideal_main_s : option Q;
  delta_main_s : option Q
}.
End MainSectorDelta.

Module LapDelta.
Record row := mk {
  driver_id : string;
  lap_no : Z;
  lap_time_s : Q;
  ideal_lap_time_s : option Q;
  delta_lap_s : option Q;
  class : option string
}.
End LapDelta.

Module DriverOpportunity.
Record row := mk {
  driver_id : string;
  main_sector : MainSector;
  avg_loss_s : option Q;
  consistency_s : option Q;
  best_gain_s : option Q
}.
End DriverOpportunity.

(** [ON s.sector_id = ils.sector_id AND d.class = ils.class] *)
Definition on_class_best (sd : MicroSectorRecord.row * Driver.row)
  (ils : ClassBestSegment.row) : bool :=
  (if SectorId_dec (MicroSectorRecord.sector_id (fst sd)) (ClassBestSegment.sector_id ils)
   then true else false)
  && str_eqb (Driver.class (snd sd)) (ClassBestSegment.class ils).

(** [ON s.driver_id = ild.driver_id] *)
Definition on_driver_best
  (sdi : MicroSectorRecord.row * Driver.row * ClassBestSegment.row)
  (ild : DriverBestMainSector.row) : bool :=
  str_eqb (MicroSectorRecord.driver_id (fst (fst sdi))) (DriverBestMainSector.driver_id ild).

Definition sector_delta_row
  (x : MicroSectorRecord.row * Driver.row * ClassBestSegment.row * DriverBestMainSector.row)
  : SectorDelta.row :=
  let '(s, d, ils, ild) := x in
  let ideal_driver_s := best_of (MicroSectorRecord.main_sector s) ild in
  SectorDelta.mk
    (MicroSectorRecord.driver_id s) (MicroSectorRecord.car_no s)
    (MicroSectorRecord.lap_no s) (MicroSectorRecord.sector_id s)
    (MicroSectorRecord.main_sector s) (MicroSectorRecord.sector_time_s s)
    (ClassBestSegment.best_sector_time_s ils)
    (sql_sub (Some (MicroSectorRecord.sector_time_s s))
             (ClassBestSegment.best_sector_time_s ils))
    ideal_driver_s
    (sql_sub (Some (MicroSectorRecord.sector_time_s s)) ideal_driver_s)
    (DriverBestMainSector.best_S1 ild)
    (DriverBestMainSector.best_S2 ild)
    (DriverBestMainSector.best_S3 ild)
    (Driver.class d).

(** 1) micro-sector deltas *)
Definition sector_deltas (db : Database) : list SectorDelta.row :=
  map sector_delta_row
    (filter (fun x => over_one (fst (fst (fst x))))
       (join on_driver_best
          (join on_class_best
             (join sector_driver (sectors db) (drivers db))
             (ideal_lap_segments_class db))
          (ideal_lap_driver db))).

Definition delta_key (r : SectorDelta.row) : LapSectorKey :=
  (SectorDelta.driver_id r, SectorDelta.car_no r,
   SectorDelta.lap_no r, SectorDelta.main_sector r).

(** [CASE WHEN main_sector='S1' THEN MIN(best_S1) ... END] over a group *)
Definition group_best (ms : MainSector) (g : list SectorDelta.row) : option Q :=
  match ms with
  | S1 => agg_min (map SectorDelta.best_S1 g)
  | S2 => agg_min (map SectorDelta.best_S2 g)
  | S3 => agg_min (map SectorDelta.best_S3 g)
  end.

(** 2) main-sector deltas *)
Definition main_sector_deltas (db : Database) : list MainSectorDelta.row :=
  map (fun kg : LapSectorKey * list SectorDelta.row =>
         let (k, g) := kg in
         let '(driver_id, car_no, lap_no, main_sector) := k in
         let actual := agg_sum (map (fun r => Some (SectorDelta.sector_time_s r)) g) in
         MainSectorDelta.mk driver_id car_no lap_no main_sector
           actual
           (group_best main_sector g)
           (sql_sub actual (group_best main_sector g)))
      (group_by LapSectorKey_dec delta_key (sector_deltas db)).

(** [ON l.driver_id = i.driver_id AND l.lap_no = i.lap_no] *)
Definition on_ideal_lap (l : LapRecord.row) (i : IdealLap.row) : bool :=
  str_eqb (LapRecord.driver_id l) (IdealLap.driver_id i)
  && Z.eqb (LapRecord.lap_no l) (IdealLap.lap_no i).

(** 3) lap deltas *)
Definition lap_deltas (db : Database) : list LapDelta.row :=
  map (fun li : LapRecord.row * IdealLap.row =>
         let (l, i) := li in
         LapDelta.mk (LapRecord.driver_id l) (LapRecord.lap_no l)
           (LapRecord.lap_time_s l)
           (IdealLap.ideal_lap_time_s i)
           (sql_sub (Some (LapRecord.lap_time_s l)) (IdealLap.ideal_lap_time_s i))
           (IdealLap.class i))
      (filter (fun li => LapRecord.is_valid (fst li))
         (join on_ideal_lap (laps db) (ideal_lap db))).

Definition OpportunityKey : Type := string * MainSector.

Definition OpportunityKey_dec (x y : OpportunityKey) : {x = y} + {x <> y}.
Proof. decide equality; [apply MainSector_dec | apply string_dec]. Defined.

Definition opportunity_key (m : MainSectorDelta.row) : OpportunityKey :=
  (MainSectorDelta.driver_id m, MainSectorDelta.main_sector m).

(** [WHERE delta_main_s < 20] *)
Definition below_outlier (m : MainSectorDelta.row) : bool :=
  sql_lt (MainSectorDelta.delta_main_s m) 20.

Section Opportunities.
(** The square root of the engine's DOUBLE arithmetic.  A rational model
    has no exact square root, so it is a parameter of the stage. *)
Variable sqrt : Q -> Q.

(** DuckDB's [STDDEV] is [STDDEV_SAMP]. *)
Definition agg_stddev (l : list (option Q)) : option Q :=
  option_map sqrt (agg_var_samp l).

(** [STDDEV_POP] *)
Definition agg_stddev_pop (l : list (option Q)) : option Q :=
  option_map sqrt (agg_var_pop l).

Definition opportunity_row (k : OpportunityKey) (g : list MainSectorDelta.row)
  : DriverOpportunity.row :=
  DriverOpportunity.mk (fst k) (snd k)
    (agg_avg (map MainSectorDelta.delta_main_s g))
    (agg_stddev (map MainSectorDelta.delta_main_s g))
    (agg_min (map MainSectorDelta.delta_main_s g)).

(** The aggregation of driver_opportunities over any main-sector table. *)
Definition opportunities_of (ms : list MainSectorDelta.row)
  : list DriverOpportunity.row :=
  map (fun kg => opportunity_row (fst kg) (snd kg))
    (group_by OpportunityKey_dec opportunity_key (filter below_outlier ms)).

(** 4) driver opportunities.  The [ORDER BY] of the statement only fixes
    the order of storage; every reader sorts again. *)
Definition driver_opportunities (db : Database) : list DriverOpportunity.row :=
  opportunities_of (main_sector_deltas db).
End Opportunities.

(* ================================================================== *)
(** * 5. Hesitation Detector (pipelines/telemetry_features.py) *)
(* ================================================================== *)

(** SQL's three-valued logic: [None] is [NULL] (unknown). *)
Definition sql_not (b : option bool) : option bool := option_map negb b.

Definition sql_and (a b : option bool) : option bool :=
  match a, b with
  | Some false, _ => Some false
  | _, Some false => Some false
  | Some true, Some true => Some true
  | _, _ => None
  end.

(** [x BETWEEN lo AND hi] *)
Definition sql_between (x : option Q) (lo hi : Q) : option bool :=
  option_map (fun v => between v lo hi) x.

(** [CASE WHEN c THEN 1 ELSE 0 END]: only [TRUE] takes the first branch. *)
Definition case_1_else_0 (c : option bool) : Z :=
  match c with
  | Some true => 1
  | _ => 0
  end.

(** [lag(col, 1, default) OVER (... ORDER BY ...)] on a partition already
    in window order: the value of the row before, [default] on the first. *)
Fixpoint lag {A : Type} (default : A) (col : list A) : list A :=
  match col with
  | [] => []
  | x :: t => default :: lag x t
  end.

(** SECTOR_BOUNDS, as printed into the CASE expression with three decimals. *)
Definition SECTOR_BOUNDS : list (SectorId * Q * Q) :=
  [(S1a, 0.000, 0.170); (S1b, 0.170, 0.330); (S2a, 0.330, 0.500);
   (S2b, 0.500, 0.670); (S3a, 0.670, 0.830); (S3b, 0.830, 1.010)].

(** _sector_case_expr: the first range that holds [lap_progress], else [NULL]. *)
Fixpoint sector_case_of (bounds : list (SectorId * Q * Q)) (lap_progress : Q)
  : option SectorId :=
  match bounds with
  | [] => None
  | (name, lo, hi) :: rest =>
      if Qle_bool lo lap_progress && Qlt_bool lap_progress hi
      then Some name
      else sector_case_of rest lap_progress
  end.

Definition sector_case (lap_progress : Q) : option SectorId :=
  sector_case_of SECTOR_BOUNDS lap_progress.

(** A row of the telemetry table joined to its driver (telemetry_enriched
    before its [WHERE]); only the columns the hesitation count reads. *)
Module TelemetryEnriched.
Record row := mk {
  race_id : string;
  session_id : string;
  driver_id : string;
  car_no : option Z;              (* LEFT JOIN drivers *)
  lap_no : Z;
  lap_progress : option Q;
  throttle_pct : option Q
}.
End TelemetryEnriched.

Module TelemetrySample.
(** telemetry_with_sector *)
Record row := mk {
  race_id : string;
  session_id : string;
  driver_id : string;
  car_no : option Z;
  lap_no : Z;
  sector_id : option SectorId;
  lap_progress : Q;
  throttle_pct : option Q
}.
End TelemetrySample.

(** telemetry_enriched keeps [lap_progress] in [0, 1]; telemetry_with_sector
    attaches the micro-sector. *)
Definition telemetry_with_sector (t : list TelemetryEnriched.row)
  : list TelemetrySample.row :=
  flat_map (fun r =>
              match TelemetryEnriched.lap_progress r with
              | Some p =>
                  if Qle_bool 0 p && Qle_bool p 1
                  then [TelemetrySample.mk
                          (TelemetryEnriched.race_id r) (TelemetryEnriched.session_id r)
                          (TelemetryEnriched.driver_id r) (TelemetryEnriched.car_no r)
                          (TelemetryEnriched.lap_no r) (sector_case p) p
                          (TelemetryEnriched.throttle_pct r)]
                  else []
              | None => []
              end) t.

Definition PartitionKey : Type :=
  string * string * string * option Z * Z * option SectorId.

Definition PartitionKey_dec (x y : PartitionKey) : {x = y} + {x <> y}.
Proof.
  repeat decide equality; try apply string_dec; try apply SectorId_dec.
Defined.

(** [PARTITION BY race_id, session_id, driver_id, car_no, lap_no, sector_id] *)
Definition partition_key (r : TelemetrySample.row) : PartitionKey :=
  (TelemetrySample.race_id r, TelemetrySample.session_id r,
   TelemetrySample.driver_id r, TelemetrySample.car_no r,
   TelemetrySample.lap_no r, TelemetrySample.sector_id r).

(** [ORDER BY lap_progress] of the window: the partition in some order of
    ascending [lap_progress]; SQL leaves the order of equal values open. *)
Definition window_order (t : list TelemetrySample.row) (k : PartitionKey)
  (p : list TelemetrySample.row) : Prop :=
  Permutation p (group_rows PartitionKey_dec partition_key k t) /\
  StronglySorted (fun a b => TelemetrySample.lap_progress a <= TelemetrySample.lap_progress b) p.

(** [(throttle_pct BETWEEN 40 AND 70) AS mid_throttle] *)
Definition mid_throttle (throttle_pct : option Q) : option bool :=
  sql_between throttle_pct 40 70.

(** telemetry_row_level, on one partition in window order: the column
    [throttle_hesitation_flag]. *)
Definition hesitation_flags (throttle : list (option Q)) : list Z :=
  let mid := map mid_throttle throttle in
  map (fun ml : option bool * option bool =>
         case_1_else_0 (sql_and (fst ml) (sql_not (snd ml))))
      (combine mid (lag (Some false) mid)).

Definition throttle_hesitation_flag (p : list TelemetrySample.row) : list Z :=
  hesitation_flags (map TelemetrySample.throttle_pct p).

(** telemetry_features: [SUM(throttle_hesitation_flag)] of the partition. *)
Definition throttle_hesitation_count (p : list TelemetrySample.row) : Z :=
  fold_right Z.add 0%Z (throttle_hesitation_flag p).

(* ================================================================== *)
(** * 6. Physics-Reference Engine (pipelines/physics_sector_metrics.py) *)
(* ================================================================== *)

Module TelemetryFeature.
(** telemetry_features, as read by this stage *)
Record row := mk {
  race_id : string;
  session_id : string;
  driver_id : string;
  car_no : option Z;
  lap_no : Z;
  sector_id : SectorId;
  brake_start_progress : option Q;
  brake_max_bar : option Q;
  throttle_full_ratio : option Q;
  throttle_hesitation_count : option Z;
  steering_std_deg : option Q;
  accx_min_g : option Q;
  accy_max_g : option Q
}.
End TelemetryFeature.

Module SectorPhysicsBase.
Record row := mk {
  race_id : string;
  session_id : string;
  class : string;
  driver_id : string;
  car_no : option Z;
  lap_no : Z;
  sector_id : SectorId;
  main_sector : MainSector;
  sector_time_s : Q;
  brake_start_progress : option Q;
  brake_max_bar : option Q;
  throttle_full_ratio : option Q;
  throttle_hesitation_count : option Z;
  steering_std_deg : option Q;
  accx_min_g : option Q;
  accy_max_g : option Q
}.
End SectorPhysicsBase.

Module SectorPhysicsRef.
Record row := mk {
  race_id : string;
  class : string;
  sector_id : SectorId;
  ref_sector_time_s : Q;
  ref_brake_start_progress : option Q;
  ref_brake_max_bar : option Q;
  ref_throttle_full_ratio : option Q;
  ref_steering_std_deg : option Q;
  ref_accx_min_g : option Q;
  ref_accy_max_g : option Q
}.
End SectorPhysicsRef.

Module PhysicsSectorMetric.
(** physics_sector_metrics: the columns of the base row, the columns of
    its reference row, and the differences. *)
Record row := mk {
  b : SectorPhysicsBase.row;
  r : SectorPhysicsRef.row;
  delta_class_s : Q;
  brake_point_diff_vs_ref : option Q;
  brake_max_bar_diff_vs_ref : option Q;
  throttle_full_ratio_diff_vs_ref : option Q;
  steering_std_diff_vs_ref : option Q;
  exit_speed_diff_kph : option Q;
  ref_type : string
}.
End PhysicsSectorMetric.

(** [ON tf.driver_id = s.driver_id AND tf.car_no = s.car_no
      AND tf.lap_no = s.lap_no AND tf.sector_id = s.sector_id] *)
Definition on_feature_sector (tf : TelemetryFeature.row) (s : MicroSectorRecord.row) : bool :=
  str_eqb (TelemetryFeature.driver_id tf) (MicroSectorRecord.driver_id s)
  && match TelemetryFeature.car_no tf with
     | Some c => Z.eqb c (MicroSectorRecord.car_no s)
     | None => false
     end
  && Z.eqb (TelemetryFeature.lap_no tf) (MicroSectorRecord.lap_no s)
  && (if SectorId_dec (TelemetryFeature.sector_id tf) (MicroSectorRecord.sector_id s)
      then true else false).

Definition on_feature_driver (ts : TelemetryFeature.row * MicroSectorRecord.row)
  (d : Driver.row) : bool :=
  str_eqb (TelemetryFeature.driver_id (fst ts)) (Driver.driver_id d).

(** 1) the base table *)
Definition sector_physics_base (telemetry_features : list TelemetryFeature.row)
  (db : Database) : list SectorPhysicsBase.row :=
  map (fun x : TelemetryFeature.row * MicroSectorRecord.row * Driver.row =>
         let '(tf, s, d) := x in
         SectorPhysicsBase.mk
           (TelemetryFeature.race_id tf) (TelemetryFeature.session_id tf)
           (Driver.class d)
           (TelemetryFeature.driver_id tf) (TelemetryFeature.car_no tf)
           (TelemetryFeature.lap_no tf)
           (MicroSectorRecord.sector_id s) (MicroSectorRecord.main_sector s)
           (MicroSectorRecord.sector_time_s s)
           (TelemetryFeature.brake_start_progress tf)
           (TelemetryFeature.brake_max_bar tf)
           (TelemetryFeature.throttle_full_ratio tf)
           (TelemetryFeature.throttle_hesitation_count tf)
           (TelemetryFeature.steering_std_deg tf)
           (TelemetryFeature.accx_min_g tf)
           (TelemetryFeature.accy_max_g tf))
      (filter (fun x => over_one (snd (fst x)))
         (join on_feature_driver
            (join on_feature_sector telemetry_features (sectors db))
            (drivers db))).

Definition RefKey : Type := string * string * SectorId.

Definition RefKey_dec (x y : RefKey) : {x = y} + {x <> y}.
Proof.
  repeat decide equality; try apply string_dec.
Defined.

(** [PARTITION BY race_id, class, sector_id] *)
Definition ref_key (b : SectorPhysicsBase.row) : RefKey :=
  (SectorPhysicsBase.race_id b, SectorPhysicsBase.class b, SectorPhysicsBase.sector_id b).

(** [ORDER BY sector_time_s ASC] of the window: the partition in some order
    of ascending [sector_time_s].  The statement names no second key, so
    rows with equal times may come in any order. *)
Definition ranked (base : list SectorPhysicsBase.row) (k : RefKey)
  (o : list SectorPhysicsBase.row) : Prop :=
  Permutation o (group_rows RefKey_dec ref_key k base) /\
  StronglySorted
    (fun x y => SectorPhysicsBase.sector_time_s x <= SectorPhysicsBase.sector_time_s y) o.

(** One evaluation of the window: an order for every partition. *)
Definition Ranking : Type := RefKey -> list SectorPhysicsBase.row.

Definition admissible (base : list SectorPhysicsBase.row) (w : Ranking) : Prop :=
  forall k, ranked base k (w k).

(** [ROW_NUMBER()]: 1, 2, 3, ... along the window order. *)
Fixpoint number_from {A : Type} (n : Z) (o : list A) : list (A * Z) :=
  match o with
  | [] => []
  | x :: t => (x, n) :: number_from (n + 1) t
  end.

(** 2) sector_physics_ranked: every row with its [ref_rank] *)
Definition sector_physics_ranked (w : Ranking) (base : list SectorPhysicsBase.row)
  : list (SectorPhysicsBase.row * Z) :=
  flat_map (fun k => number_from 1 (w k)) (nodup RefKey_dec (map ref_key base)).

Definition ref_row (x : SectorPhysicsBase.row) : SectorPhysicsRef.row :=
  SectorPhysicsRef.mk
    (SectorPhysicsBase.race_id x) (SectorPhysicsBase.class x)
    (SectorPhysicsBase.sector_id x)
    (SectorPhysicsBase.sector_time_s x)
    (SectorPhysicsBase.brake_start_progress x)
    (SectorPhysicsBase.brake_max_bar x)
    (SectorPhysicsBase.throttle_full_ratio x)
    (SectorPhysicsBase.steering_std_deg x)
    (SectorPhysicsBase.accx_min_g x)
    (SectorPhysicsBase.accy_max_g x).

(** sector_physics_ref: [WHERE ref_rank = 1] *)
Definition sector_physics_ref (w : Ranking) (base : list SectorPhysicsBase.row)
  : list SectorPhysicsRef.row :=
  map (fun xn => ref_row (fst xn))
    (filter (fun xn => Z.eqb (snd xn) 1) (sector_physics_ranked w base)).

(** [ON b.race_id = r.race_id AND b.class = r.class AND b.sector_id = r.sector_id] *)
Definition on_ref (x : SectorPhysicsBase.row) (y : SectorPhysicsRef.row) : bool :=
  str_eqb (SectorPhysicsBase.race_id x) (SectorPhysicsRef.race_id y)
  && str_eqb (SectorPhysicsBase.class x) (SectorPhysicsRef.class y)
  && (if SectorId_dec (SectorPhysicsBase.sector_id x) (SectorPhysicsRef.sector_id y)
      then true else false).

Definition metric_row (xy : SectorPhysicsBase.row * SectorPhysicsRef.row)
  : PhysicsSectorMetric.row :=
  let (x, y) := xy in
  PhysicsSectorMetric.mk x y
    (SectorPhysicsBase.sector_time_s x - SectorPhysicsRef.ref_sector_time_s y)
    (sql_sub (SectorPhysicsBase.brake_start_progress x)
             (SectorPhysicsRef.ref_brake_start_progress y))
    (sql_sub (SectorPhysicsBase.brake_max_bar x) (SectorPhysicsRef.ref_brake_max_bar y))
    (sql_sub (SectorPhysicsBase.throttle_full_ratio x)
             (SectorPhysicsRef.ref_throttle_full_ratio y))
    (sql_sub (SectorPhysicsBase.steering_std_deg x)
             (SectorPhysicsRef.ref_steering_std_deg y))
    None
    "class_best".

(** 3) physics_sector_metrics *)
Definition physics_sector_metrics (w : Ranking) (base : list SectorPhysicsBase.row)
  : list PhysicsSectorMetric.row :=
  map metric_row (join on_ref base (sector_physics_ref w base)).

(* ================================================================== *)
(** * 7. Time Normalizer (pipelines/sectors.py, parse_time) *)
(* ================================================================== *)

(** The cell values that reach [parse_time]. *)
Inductive PyValue :=
| PyMissing                                         (* None, NaN, NaT: pd.isna(val) *)
| PyTime (hour minute second microsecond : Z)       (* datetime.time *)
| PyStr (s : string)
| PyNumber (x : Q)                                  (* int, float *)
| PyObject.                                         (* anything else: float(val) raises *)

(** A call either returns or raises. *)
Inductive Outcome (A : Type) :=
| Returns (a : A)
| Raises.
Arguments Returns {A} a.
Arguments Raises {A}.

(** [try: body  except: return fallback], where the value of [body] is
    returned. *)
Definition try_except {A : Type} (body : Outcome A) (fallback : A) : Outcome A :=
  match body with
  | Returns a => Returns a
  | Raises => Returns fallback
  end.

Definition bind {A B : Type} (x : Outcome A) (f : A -> Outcome B) : Outcome B :=
  match x with
  | Returns a => f a
  | Raises => Raises
  end.

(** ASCII whitespace, as removed by [str.strip()]. *)
Definition is_space (c : ascii) : bool :=
  let n := nat_of_ascii c in
  (Nat.leb 9 n && Nat.leb n 13) || (Nat.leb 28 n && Nat.leb n 32).

Fixpoint lstrip (s : string) : string :=
  match s with
  | EmptyString => EmptyString
  | String c t => if is_space c then lstrip t else s
  end.

Fixpoint rev_string (s acc : string) : string :=
  match s with
  | EmptyString => acc
  | String c t => rev_string t (String c acc)
  end.

Definition strip (s : string) : string :=
  rev_string (lstrip (rev_string (lstrip s) EmptyString)) EmptyString.

(** [sep in s] *)
Fixpoint contains (sep : ascii) (s : string) : bool :=
  match s with
  | EmptyString => false
  | String c t => Ascii.eqb c sep || contains sep t
  end.

(** [s.split(sep)] for a one-character separator. *)
Fixpoint split (sep : ascii) (s : string) : list string :=
  match s with
  | EmptyString => [EmptyString]
  | String c t =>
      if Ascii.eqb c sep then EmptyString :: split sep t
      else match split sep t with
           | p :: ps => String c p :: ps
           | [] => [String c EmptyString]
           end
  end.

Section ParseTime.
(** Python's [int(s)] and [float(s)] on text: the value, or ValueError. *)
Variable py_int : string -> Outcome Z.
Variable py_float : string -> Outcome Q.

Definition parse_time (val : PyValue) : Outcome (option Q) :=
  match val with
  | PyMissing => Returns None
  | PyTime hour minute second microsecond =>
      Returns (Some (inject_Z hour * 3600 + inject_Z minute * 60
                     + inject_Z second + inject_Z microsecond / 1000000))
  | PyStr val =>
      let val := strip val in
      if contains ":" val then
        try_except
          (let parts := split ":" val in
           bind (if Nat.eqb (List.length parts) 3
                 then py_int (nth (List.length parts - 2) parts EmptyString)
                 else py_int (nth 0 parts EmptyString))
             (fun minutes =>
                bind (py_float (last parts EmptyString))
                  (fun seconds =>
                     Returns (Some (inject_Z minutes * 60 + seconds)))))
          None
      else
        try_except (bind (py_float val) (fun x => Returns (Some x))) None
  | PyNumber x => try_except (Returns (Some x)) None
  | PyObject => try_except Raises None
  end.
End ParseTime.

(** A reader of plain decimal numerals ("02", "03.5"), on which Python's
    [int] and [float] agree with it; used to run [parse_time]. *)
Definition digit_of (c : ascii) : option Z :=
  let n := nat_of_ascii c in
  if Nat.leb 48 n && Nat.leb n 57 then Some (Z.of_nat (n - 48)) else None.

Fixpoint digits_value (s : string) (acc : Z) : option Z :=
  match s with
  | EmptyString => Some acc
  | String c t =>
      match digit_of c with
      | Some d => digits_value t (acc * 10 + d)
      | None => None
      end
  end.

Definition plain_int (s : string) : Outcome Z :=
  match s with
  | EmptyString => Raises
  | _ => match digits_value s 0 with
         | Some z => Returns z
         | None => Raises
         end
  end.

Definition plain_float (s : string) : Outcome Q :=
  match split "." s with
  | [i] => bind (plain_int i) (fun z => Returns (inject_Z z))
  | [i; f] =>
      bind (plain_int i) (fun z =>
      bind (plain_int f) (fun n =>
        Returns (inject_Z z + inject_Z n / inject_Z (10 ^ Z.of_nat (String.length f)))))
  | _ => Raises
  end.

(* ================================================================== *)
(** * 8. Insights Assembler (analytics/insights.py) *)
(* ================================================================== *)

(** Rounding to the nearest integer, ties to the even one. *)
Definition round_half_even (x : Q) : Z :=
  let f := Qfloor x in
  match Qcompare (x - inject_Z f)%Q (1 # 2)%Q with
  | Lt => f
  | Gt => (f + 1)%Z
  | Eq => if Z.even f then f else (f + 1)%Z
  end.

(** Python's [round(x, ndigits)] on a float. *)
Definition py_round (x : Q) (ndigits : nat) : Q :=
  inject_Z (round_half_even (x * inject_Z (10 ^ Z.of_nat ndigits)))
  / inject_Z (10 ^ Z.of_nat ndigits).

(** [round(float(v), 3)]; a missing value (NaN) stays missing. *)
Definition round3 (v : option Q) : option Q :=
  option_map (fun x => py_round x 3) v.

Definition agg_min_Z (l : list Z) : option Z :=
  match l with
  | [] => None
  | x :: t => Some (fold_left Z.min t x)
  end.

Module DriverSummary.
Record row := mk {
  driver_id : string;
  car_no : option Z;
  class : option string;
  race_id : option string;
  best_lap_s : option Q;
  ideal_lap_s : option Q;
  best_delta_s : option Q
}.
End DriverSummary.

Module Opportunity.
(** One entry of the [opportunities] list.  The corner label and the two
    physics payloads ([physics_avg], [physics_vs_class]) are not carried. *)
Record row := mk {
  sector : MainSector;
  main_sector : MainSector;
  time_loss_avg : option Q;
  avg_sector_delta_s : option Q;
  consistency : option Q;
  sector_consistency_s : option Q;
  best_gain_s : option Q
}.
End Opportunity.

Module DriverInsight.
Record row := mk {
  race_id : option string;
  session_id : string;
  driver_id : string;
  car_no : option Z;
  class : option string;
  best_lap_s : option Q;
  ideal_lap_s : option Q;
  delta_to_ideal_s : option Q;
  total_time_opportunity_s : option Q;
  opportunities : list Opportunity.row
}.
End DriverInsight.

(** [FROM lap_deltas l JOIN drivers d ON l.driver_id = d.driver_id] *)
Definition on_lap_delta_driver (l : LapDelta.row) (d : Driver.row) : bool :=
  str_eqb (LapDelta.driver_id l) (Driver.driver_id d).

Definition summary_row (k : string) (g : list (LapDelta.row * Driver.row))
  : DriverSummary.row :=
  DriverSummary.mk k
    (agg_min_Z (map (fun ld => Driver.car_no (snd ld)) g))
    (agg_min_str (map (fun ld => Driver.class (snd ld)) g))
    (agg_min_str (map (fun ld => Driver.race_id (snd ld)) g))
    (agg_min (map (fun ld => Some (LapDelta.lap_time_s (fst ld))) g))
    (agg_min (map (fun ld => LapDelta.ideal_lap_time_s (fst ld)) g))
    (agg_min (map (fun ld => LapDelta.delta_lap_s (fst ld)) g)).

(** 2) driver lap summary *)
Definition driver_summary_df (db : Database) : list DriverSummary.row :=
  map (fun kg => summary_row (fst kg) (snd kg))
    (group_by string_dec
       (fun ld : LapDelta.row * Driver.row => LapDelta.driver_id (fst ld))
       (join on_lap_delta_driver (lap_deltas db) (drivers db))).

(** [Series.unique()]: the distinct values, in order of first appearance. *)
Fixpoint unique (l : list string) : list string :=
  match l with
  | [] => []
  | x :: t => x :: remove string_dec x (unique t)
  end.

(** The order of [sort_values("avg_loss_s", ascending=False)]: larger
    first, missing values last. *)
Definition loss_ge (a b : option Q) : bool :=
  match a, b with
  | Some x, Some y => Qle_bool y x
  | _, None => true
  | None, Some _ => false
  end.

Fixpoint insert_desc (o : DriverOpportunity.row) (l : list DriverOpportunity.row)
  : list DriverOpportunity.row :=
  match l with
  | [] => [o]
  | h :: t =>
      if loss_ge (DriverOpportunity.avg_loss_s o) (DriverOpportunity.avg_loss_s h)
      then o :: l
      else h :: insert_desc o t
  end.

Definition sort_values_desc (l : list DriverOpportunity.row) : list DriverOpportunity.row :=
  fold_right insert_desc [] l.

Definition insight (o : DriverOpportunity.row) : Opportunity.row :=
  Opportunity.mk
    (DriverOpportunity.main_sector o)
    (DriverOpportunity.main_sector o)
    (round3 (DriverOpportunity.avg_loss_s o))
    (round3 (DriverOpportunity.avg_loss_s o))
    (round3 (DriverOpportunity.consistency_s o))
    (round3 (DriverOpportunity.consistency_s o))
    (round3 (DriverOpportunity.best_gain_s o)).

(** The top 3 worst sectors of one driver. *)
Definition driver_ops (opportunities_df : list DriverOpportunity.row) (driver_id : string)
  : list DriverOpportunity.row :=
  firstn 3
    (sort_values_desc
       (filter (fun o => str_eqb (DriverOpportunity.driver_id o) driver_id)
               opportunities_df)).

Definition driver_data (s : DriverSummary.row) (driver_id : string)
  (ops : list DriverOpportunity.row) : DriverInsight.row :=
  DriverInsight.mk
    (DriverSummary.race_id s)
    "R1"
    driver_id
    (DriverSummary.car_no s)
    (DriverSummary.class s)
    (round3 (DriverSummary.best_lap_s s))
    (round3 (DriverSummary.ideal_lap_s s))
    (round3 (DriverSummary.best_delta_s s))
    (round3 (DriverSummary.best_delta_s s))
    (map insight ops).

(** The loop over the drivers of driver_opportunities: one entry per driver
    that has a summary row. *)
Definition insights_map (opportunities_df : list DriverOpportunity.row) (db : Database)
  : list (string * DriverInsight.row) :=
  flat_map
    (fun driver_id =>
       match filter (fun s => str_eqb (DriverSummary.driver_id s) driver_id)
                    (driver_summary_df db) with
       | [] => []                                   (* continue *)
       | s :: _ =>
           [(driver_id,
             driver_data s driver_id (driver_ops opportunities_df driver_id))]
       end)
    (unique (map DriverOpportunity.driver_id opportunities_df)).

Section Insights.
Variable sqrt : Q -> Q.

(** generate_insights: the document, keyed by driver; [None] when
    driver_opportunities is empty and nothing is written.  The [ORDER BY]
    of the first query fixes only the order of the keys. *)
Definition generate_insights (db : Database)
  : option (list (string * DriverInsight.row)) :=
  let opportunities_df := driver_opportunities sqrt db in
  match opportunities_df with
  | [] => None
  | _ => Some (insights_map opportunities_df db)
  end.
End Insights.

(* ================================================================== *)
(** * 9. Further stages of the pipeline *)
(* ================================================================== *)

(** ** 9.1 Lap progress (pipelines/telemetry.py) *)

(** [Series.clip(lower, upper)] *)
Definition clip (x lower upper : Q) : Q := Qmin (Qmax x lower) upper.

(** run_telemetry_pipeline, step 4: the fraction of the lap elapsed at a
    sample, from the sample's timestamp and the lap's start and end (all in
    seconds); no value when the lap has no positive duration; clamped to
    0..1. *)
Definition lap_progress_of (timestamp start_ts end_ts : Q) : option Q :=
  let duration := end_ts - start_ts in
  let elapsed := timestamp - start_ts in
  if Qlt_bool 0 duration
  then Some (clip (elapsed / duration) 0 1)
  else None.

(** ** 9.2 Car numbers (pipelines/laps.py, extract_car_no) *)

(** [vid] is [None] for a missing vehicle id ([pd.isna]); [int] raises
    ValueError on text that is no integer. *)
Definition extract_car_no (py_int : string -> Outcome Z) (vid : option string) : Z :=
  match vid with
  | None => (-1)%Z
  | Some v =>
      let parts := split "-" v in
      match py_int (last parts EmptyString) with
      | Returns n => n
      | Raises => (-1)%Z
      end
  end.

(** ** 9.3 Long-format sectors (pipelines/sectors.py, run_sectors_pipeline) *)

(** One row of the analysis sheet: the car, the lap, and the cell under
    the time column of each micro-sector. *)
Module AnalysisRow.
Record row := mk {
  NUMBER : Z;
  LAP_NUMBER : Z;
  cell : SectorId -> PyValue
}.
End AnalysisRow.



Section SectorsPipeline.
Variable py_int : string -> Outcome Z.
Variable py_float : string -> Outcome Q.
(** [col_name in df.columns], per micro-sector *)
Variable has_column : SectorId -> bool.


End SectorsPipeline.

(** ** 9.4 Per-sector telemetry features (pipelines/telemetry_features.py) *)

(** [x > c] as a [CASE] or [WHERE] condition: [NULL] is not [TRUE]. *)
Definition sql_gt (x : option Q) (c : Q) : bool :=
  match x with
  | Some v => Qlt_bool c v
  | None => false
  end.

Definition agg_max (l : list (option Q)) : option Q :=
  match somes l with
  | [] => None
  | x :: t => Some (fold_left Qmax t x)
  end.

(** [SUM] over an integer column without [NULL]. *)
Definition agg_sum_Z (l : list Z) : option Z :=
  match l with
  | [] => None
  | _ => Some (fold_right Z.add 0%Z l)
  end.

(** A row of telemetry_row_level: the columns of telemetry_with_sector
    that the hesitation flag reads, and the other sensor columns. *)
Module TelemetryRowLevel.
Record row := mk {
  sample : TelemetrySample.row;
  brake_f_bar : option Q;
  steering_deg : option Q;
  accx_g : option Q;
  accy_g : option Q
}.
End TelemetryRowLevel.

Definition row_partition_key (r : TelemetryRowLevel.row) : PartitionKey :=
  partition_key (TelemetryRowLevel.sample r).

(** The rows of one window partition (which is also one group of the
    final [GROUP BY]), in an order of ascending [lap_progress]. *)
Definition is_partition (t : list TelemetryRowLevel.row) (k : PartitionKey)
  (p : list TelemetryRowLevel.row) : Prop :=
  Permutation p (group_rows PartitionKey_dec row_partition_key k t) /\
  StronglySorted
    (fun a b => TelemetrySample.lap_progress (TelemetryRowLevel.sample a)
                <= TelemetrySample.lap_progress (TelemetryRowLevel.sample b)) p.

(** [CASE WHEN brake_f_bar > 5 THEN lap_progress ELSE NULL END] *)
Definition braking_progress (r : TelemetryRowLevel.row) : option Q :=
  if sql_gt (TelemetryRowLevel.brake_f_bar r) 5
  then Some (TelemetrySample.lap_progress (TelemetryRowLevel.sample r))
  else None.

(** [CASE WHEN throttle_pct > 95 THEN 1.0 ELSE 0.0 END] *)
Definition full_throttle (r : TelemetryRowLevel.row) : Q :=
  if sql_gt (TelemetrySample.throttle_pct (TelemetryRowLevel.sample r)) 95
  then 1 else 0.

Section TelemetryFeatures.
Variable sqrt : Q -> Q.

(** The row of telemetry_features for one group; groups without a
    micro-sector are dropped ([WHERE sector_id IS NOT NULL]). *)
Definition telemetry_feature (k : PartitionKey) (p : list TelemetryRowLevel.row)
  : option TelemetryFeature.row :=
  let '(race_id, session_id, driver_id, car_no, lap_no, sector) := k in
  match sector with
  | None => None
  | Some sector_id =>
      Some (TelemetryFeature.mk race_id session_id driver_id car_no lap_no sector_id
              (agg_min (map braking_progress p))
              (agg_max (map TelemetryRowLevel.brake_f_bar p))
              (agg_avg (map (fun r => Some (full_throttle r)) p))
              (agg_sum_Z (throttle_hesitation_flag (map TelemetryRowLevel.sample p)))
              (agg_stddev_pop sqrt (map TelemetryRowLevel.steering_deg p))
              (agg_min (map TelemetryRowLevel.accx_g p))
              (agg_max (map TelemetryRowLevel.accy_g p)))
  end.

(** [f] is a row of telemetry_features over the row-level table [t]. *)
Definition in_telemetry_features (t : list TelemetryRowLevel.row)
  (f : TelemetryFeature.row) : Prop :=
  exists k p, In k (map row_partition_key t) /\ is_partition t k p /\
              telemetry_feature k p = Some f.
End TelemetryFeatures.

(** ** 9.5 Lap-level physics (analytics/physics_metrics.py) *)

Module Telemetry.
(** telemetry: one row per timestamp and car, as pivoted by telemetry.py *)
Record row := mk {
  driver_id : string;
  lap : Z;
  speed_kph : option Q;
  throttle_pct : option Q;
  brake_f_bar : option Q;
  steering_deg : option Q;
  accx_g : option Q;
  accy_g : option Q
}.
End Telemetry.

Module LapPhysics.
Record row := mk {
  driver_id : string;
  lap : Z;
  samples : Z;
  avg_speed_kph : option Q;
  avg_throttle : option Q;
  full_throttle_ratio : option Q;
  coasting_ratio : option Q;
  max_brake_pressure : option Q;
  avg_brake_pressure : option Q;
  braking_ratio : option Q;
  steering_variability : option Q;
  max_braking_g : option Q;
  max_accel_g : option Q;
  max_cornering_g : option Q
}.
End LapPhysics.

Module ValidLapPhysics.
Record row := mk {
  lp : LapPhysics.row;
  lap_time_s : Q;
  is_valid : bool
}.
End ValidLapPhysics.

(** [CASE WHEN cond THEN 1 ELSE 0 END] as an integer *)
Definition one_if (c : bool) : Z := if c then 1%Z else 0%Z.

(** [SUM(CASE WHEN cond THEN 1 ELSE 0 END) * 1.0 / COUNT( * )] *)
Definition ratio_of (cond : Telemetry.row -> bool) (g : list Telemetry.row) : option Q :=
  option_map
    (fun n => inject_Z n * 1 / inject_Z (Z.of_nat (List.length g)))
    (agg_sum_Z (map (fun r => one_if (cond r)) g)).

Definition is_full_throttle (r : Telemetry.row) : bool :=
  sql_gt (Telemetry.throttle_pct r) 95.

Definition is_coasting (r : Telemetry.row) : bool :=
  sql_lt (Telemetry.throttle_pct r) 5 && sql_lt (Telemetry.brake_f_bar r) 0.5.

Definition is_braking (r : Telemetry.row) : bool :=
  sql_gt (Telemetry.brake_f_bar r) 1.

Definition LapKey : Type := string * Z.

Definition LapKey_dec (x y : LapKey) : {x = y} + {x <> y}.
Proof. decide equality; [apply Z.eq_dec | apply string_dec]. Defined.

Definition lap_key (r : Telemetry.row) : LapKey :=
  (Telemetry.driver_id r, Telemetry.lap r).

Section LapPhysicsStage.
Variable sqrt : Q -> Q.

Definition lap_physics_row (k : LapKey) (g : list Telemetry.row) : LapPhysics.row :=
  LapPhysics.mk (fst k) (snd k)
    (Z.of_nat (List.length g))
    (agg_avg (map Telemetry.speed_kph g))
    (agg_avg (map Telemetry.throttle_pct g))
    (ratio_of is_full_throttle g)
    (ratio_of is_coasting g)
    (agg_max (map Telemetry.brake_f_bar g))
    (agg_avg (map Telemetry.brake_f_bar g))
    (ratio_of is_braking g)
    (agg_stddev sqrt (map Telemetry.steering_deg g))
    (agg_min (map Telemetry.accx_g g))
    (agg_max (map Telemetry.accx_g g))
    (agg_max (map (fun r => option_map Qabs (Telemetry.accy_g r)) g)).

(** 1) lap_physics: telemetry aggregated per driver and lap *)
Definition lap_physics (telemetry : list Telemetry.row) : list LapPhysics.row :=
  map (fun kg => lap_physics_row (fst kg) (snd kg))
    (group_by LapKey_dec lap_key telemetry).

(** [ON lp.driver_id = l.driver_id AND lp.lap = l.lap_no] *)
Definition on_lap_physics (x : LapPhysics.row) (l : LapRecord.row) : bool :=
  str_eqb (LapPhysics.driver_id x) (LapRecord.driver_id l)
  && Z.eqb (LapPhysics.lap x) (LapRecord.lap_no l).

(** 2) valid_lap_physics: the laps that passed the validity check *)
Definition valid_lap_physics (telemetry : list Telemetry.row) (db : Database)
  : list ValidLapPhysics.row :=
  map (fun xl : LapPhysics.row * LapRecord.row =>
         ValidLapPhysics.mk (fst xl) (LapRecord.lap_time_s (snd xl))
           (LapRecord.is_valid (snd xl)))
    (filter (fun xl => LapRecord.is_valid (snd xl))
       (join on_lap_physics (lap_physics telemetry) (laps db))).
End LapPhysicsStage.

(* ================================================================== *)
(** * Vocabulary of the properties *)
(* ================================================================== *)

(** [m] is a least element of the column [v]. *)
Definition is_min (m : Q) (v : list Q) : Prop :=
  In m v /\ forall x, In x v -> m <= x.

(** The micro-sector records ([sector_time_s > 1]) of one lap and main
    sector, and the sum of their times. *)
Definition micro_rows (db : Database) (k : LapSectorKey) : list MicroSectorRecord.row :=
  group_rows LapSectorKey_dec sector_key k (filter over_one (sectors db)).

Definition per_lap_sum (db : Database) (k : LapSectorKey) : Q :=
  Qsum (map MicroSectorRecord.sector_time_s (micro_rows db k)).

(** [b] is the minimum, over the laps of [driver], of the per-lap sum of
    main sector [ms]; no value when the driver has no such sum. *)
Definition is_best (db : Database) (driver : string) (ms : MainSector)
  (b : option Q) : Prop :=
  match b with
  | Some m =>
      (exists car lap, micro_rows db (driver, car, lap, ms) <> [] /\
                       m = per_lap_sum db (driver, car, lap, ms)) /\
      (forall car lap, micro_rows db (driver, car, lap, ms) <> [] ->
                       m <= per_lap_sum db (driver, car, lap, ms))
  | None => forall car lap, micro_rows db (driver, car, lap, ms) = []
  end.

Definition lap_sum_key (l : LapSectorSum.row) : LapSectorKey :=
  (LapSectorSum.driver_id l, LapSectorSum.car_no l,
   LapSectorSum.lap_no l, LapSectorSum.main_sector l).

(** The rows of [lap_sector_sums JOIN drivers] that fall in one driver's
    group of ideal_lap_driver. *)
Definition driver_group (db : Database) (D : string)
  : list (LapSectorSum.row * Driver.row) :=
  group_rows string_dec
    (fun ld : LapSectorSum.row * Driver.row => LapSectorSum.driver_id (fst ld))
    D (join sum_driver (lap_sector_sums db) (drivers db)).


(** A row with this driver and lap number stems from a lap that passed the
    validity check. *)
Definition refers_to_valid_lap (db : Database) (driver : string) (lap_no : Z) : Prop :=
  exists l, In l (laps db) /\
            LapRecord.driver_id l = driver /\
            LapRecord.lap_no l = lap_no /\
            LapRecord.is_valid l = true.

(** The rows that one micro-sector record contributes to sector_deltas. *)
Definition sector_delta_rows (db : Database) (s : MicroSectorRecord.row)
  : list SectorDelta.row :=
  map sector_delta_row
    (filter (fun x => over_one (fst (fst (fst x))))
       (join on_driver_best
          (join on_class_best
             (join sector_driver [s] (drivers db))
             (ideal_lap_segments_class db))
          (ideal_lap_driver db))).

(** Mean and sample variance of a column without [NULL]. *)
Definition mean (v : list Q) : Q := Qsum v / inject_Z (Z.of_nat (List.length v)).

Definition sample_variance (v : list Q) : Q :=
  sq_dev v / inject_Z (Z.of_nat (List.length v) - 1).

(** The main-sector deltas of one (driver, main sector) that are strictly
    below 20 s. *)
Definition deltas_below_20 (ms : list MainSectorDelta.row) (k : OpportunityKey)
  : list Q :=
  somes (map MainSectorDelta.delta_main_s
           (filter (fun m => has_key OpportunityKey_dec opportunity_key k m
                             && sql_lt (MainSectorDelta.delta_main_s m) 20)
                   ms)).

(** The column [best_Sn] of sector_deltas, by main sector. *)
Definition best_col (ms : MainSector) (r : SectorDelta.row) : option Q :=
  match ms with
  | S1 => SectorDelta.best_S1 r
  | S2 => SectorDelta.best_S2 r
  | S3 => SectorDelta.best_S3 r
  end.

Definition main_delta_key (m : MainSectorDelta.row) : LapSectorKey :=
  (MainSectorDelta.driver_id m, MainSectorDelta.car_no m,
   MainSectorDelta.lap_no m, MainSectorDelta.main_sector m).

(** The throttle value of a sample lies in the mid-throttle band, or lies
    outside it.  A sample without a throttle value does neither. *)
Definition in_band (throttle_pct : option Q) : Prop :=
  exists v, throttle_pct = Some v /\ 40 <= v /\ v <= 70.

Definition out_of_band (throttle_pct : option Q) : Prop :=
  exists v, throttle_pct = Some v /\ ~ (40 <= v /\ v <= 70).

(** The flags of a partition whose window starts after a row with
    [mid_throttle = prev]. *)
Fixpoint flags_from (prev : option bool) (throttle : list (option Q)) : list Z :=
  match throttle with
  | [] => []
  | x :: t =>
      case_1_else_0 (sql_and (mid_throttle x) (sql_not prev))
        :: flags_from (mid_throttle x) t
  end.

(** [x] is a fastest instance of its (race, class, micro-sector) group. *)
Definition is_fastest (base : list SectorPhysicsBase.row) (x : SectorPhysicsBase.row) : Prop :=
  In x base /\
  forall c, In c base -> ref_key c = ref_key x ->
            SectorPhysicsBase.sector_time_s x <= SectorPhysicsBase.sector_time_s c.

(** No group has two different fastest instances. *)
Definition unique_fastest (base : list SectorPhysicsBase.row) : Prop :=
  forall x y, is_fastest base x -> is_fastest base y -> ref_key x = ref_key y -> x = y.

(** The reference row of one partition under an evaluation of the window. *)
Definition reference_rows (w : Ranking) (k : RefKey) : list SectorPhysicsRef.row :=
  match w k with
  | [] => []
  | x :: _ => [ref_row x]
  end.

(** The metric row of one base row under an evaluation of the window. *)
Definition metric_rows (w : Ranking) (x : SectorPhysicsBase.row)
  : list PhysicsSectorMetric.row :=
  match w (ref_key x) with
  | [] => []
  | y :: _ => [metric_row (x, ref_row y)]
  end.

Definition ref_row_key (y : SectorPhysicsRef.row) : RefKey :=
  (SectorPhysicsRef.race_id y, SectorPhysicsRef.class y, SectorPhysicsRef.sector_id y).

(** The times of the valid laps of one driver. *)
Definition valid_lap_times (db : Database) (driver : string) : list Q :=
  map LapRecord.lap_time_s
    (filter (fun l => LapRecord.is_valid l && str_eqb (LapRecord.driver_id l) driver)
            (laps db)).

(** Descending order with missing values last. *)
Definition loss_order (a b : option Q) : Prop := loss_ge a b = true.

Definition by_loss (a b : DriverOpportunity.row) : Prop :=
  loss_order (DriverOpportunity.avg_loss_s a) (DriverOpportunity.avg_loss_s b).

(** The rows of [lap_deltas JOIN drivers] in one driver's summary group. *)
Definition summary_group (db : Database) (D : string) : list (LapDelta.row * Driver.row) :=
  group_rows string_dec
    (fun ld : LapDelta.row * Driver.row => LapDelta.driver_id (fst ld))
    D (join on_lap_delta_driver (lap_deltas db) (drivers db)).

(** The ideal lap time held by a row of ideal_lap_driver. *)
Definition ideal_of (i : DriverBestMainSector.row) : option Q :=
  sql_add (sql_add (DriverBestMainSector.best_S1 i) (DriverBestMainSector.best_S2 i))
          (DriverBestMainSector.best_S3 i).

(* ================================================================== *)
(** * Vocabulary of the further properties *)
(* ================================================================== *)

(** The sample's throttle is in the mid-throttle band ([mid_throttle] is
    [TRUE]). *)
Definition is_mid (throttle_pct : option Q) : bool :=
  match mid_throttle throttle_pct with
  | Some true => true
  | _ => false
  end.

(** The group key of a row of telemetry_features. *)
Definition feature_key (f : TelemetryFeature.row) : PartitionKey :=
  (TelemetryFeature.race_id f, TelemetryFeature.session_id f,
   TelemetryFeature.driver_id f, TelemetryFeature.car_no f,
   TelemetryFeature.lap_no f, Some (TelemetryFeature.sector_id f)).

(** The row-level table was built by telemetry_with_sector: every row
    carries the micro-sector of its own progress. *)
Definition sectors_attached (t : list TelemetryRowLevel.row) : Prop :=
  forall r, In r t ->
    TelemetrySample.sector_id (TelemetryRowLevel.sample r)
    = sector_case (TelemetrySample.lap_progress (TelemetryRowLevel.sample r)).

(** The rows of [sectors JOIN drivers] above one second, and their
    (class, micro-sector) key in ideal_lap_segments_class. *)
Definition class_rows (db : Database) : list (MicroSectorRecord.row * Driver.row) :=
  filter (fun sd => over_one (fst sd)) (join sector_driver (sectors db) (drivers db)).

Definition class_key (sd : MicroSectorRecord.row * Driver.row) : string * SectorId :=
  (Driver.class (snd sd), MicroSectorRecord.sector_id (fst sd)).

(** The columns that lap_deltas shares with ideal_lap. *)
Definition lap_delta_of (i : IdealLap.row) : LapDelta.row :=
  LapDelta.mk (IdealLap.driver_id i) (IdealLap.lap_no i) (IdealLap.lap_time_s i)
    (IdealLap.ideal_lap_time_s i) (IdealLap.delta_to_ideal_s i) (IdealLap.class i).

(** The pair on which lap_deltas joins laps to ideal_lap. *)
Definition lap_record_key (l : LapRecord.row) : string * Z :=
  (LapRecord.driver_id l, LapRecord.lap_no l).

(** The rows that one lap contributes to ideal_lap. *)
Definition ideal_lap_rows (db : Database) (l : LapRecord.row) : list IdealLap.row :=
  map (fun li : LapRecord.row * DriverBestMainSector.row =>
         let (l, i) := li in
         let ideal :=
           sql_add (sql_add (DriverBestMainSector.best_S1 i)
                            (DriverBestMainSector.best_S2 i))
                   (DriverBestMainSector.best_S3 i) in
         IdealLap.mk (LapRecord.driver_id l) (LapRecord.lap_no l)
           (LapRecord.lap_time_s l)
           (DriverBestMainSector.class i)
           (DriverBestMainSector.best_S1 i)
           (DriverBestMainSector.best_S2 i)
           (DriverBestMainSector.best_S3 i)
           ideal
           (sql_sub (Some (LapRecord.lap_time_s l)) ideal))
      (filter (fun li => LapRecord.is_valid (fst li))
         (join lap_best [l] (ideal_lap_driver db))).

(* ================================================================== *)
(** * Sample data: the scenarios of the specification *)
(* ================================================================== *)

(** A session of one car: lap 2 is a 300 s pit lap, and the three
    main-sector bests come from three different laps. *)
Definition db_session : Database :=
  mkDB [Driver.mk "D_7" 7 "GT" "sebring_R1"]
       [MergedLap.mk 7 1 115200; MergedLap.mk 7 2 300000; MergedLap.mk 7 3 116000]
       [MicroSectorRecord.mk "D_7" 7 1 S1a 14; MicroSectorRecord.mk "D_7" 7 1 S1b 20;
        MicroSectorRecord.mk "D_7" 7 1 S2a 41; MicroSectorRecord.mk "D_7" 7 1 S3a 39;
        MicroSectorRecord.mk "D_7" 7 2 S1a 15; MicroSectorRecord.mk "D_7" 7 2 S1b 20;
        MicroSectorRecord.mk "D_7" 7 2 S2a 40; MicroSectorRecord.mk "D_7" 7 2 S3a 40;
        MicroSectorRecord.mk "D_7" 7 3 S3a 38; MicroSectorRecord.mk "D_7" 7 3 S3b (1#2)].

Definition row_session_lap1 : IdealLap.row :=
  IdealLap.mk "D_7" 1 (115200 / 1000) (Some "GT"%string)
    (Some 34) (Some 40) (Some 38) (Some 112) (Some (115200 / 1000 - 112)).



(** The session without the micro-sector records of the pit lap. *)
Definition db_session_valid_only : Database :=
  mkDB (drivers db_session) (merged_laps db_session)
       (filter (fun s => negb (Z.eqb (MicroSectorRecord.lap_no s) 2)) (sectors db_session)).

(** Three laps of one main sector: deltas 0 and 2, and a pit lap at 25. *)
Definition ms_pit : list MainSectorDelta.row :=
  [MainSectorDelta.mk "D_7" 7 1 S1 (Some 34) (Some 34) (Some 0);
   MainSectorDelta.mk "D_7" 7 2 S1 (Some 59) (Some 34) (Some 25);
   MainSectorDelta.mk "D_7" 7 3 S1 (Some 36) (Some 34) (Some 2)].

(** One (driver, lap, sector) partition: five samples of D_7 on lap 3, in
    micro-sector S2a, with the throttle trace of scenario 3. *)
Definition sample_S2a (lap_progress throttle_pct : Q) : TelemetrySample.row :=
  TelemetrySample.mk "sebring_R1" "R1" "D_7" (Some 7%Z) 3 (Some S2a)
    lap_progress (Some throttle_pct).

Definition partition_scenario_3 : list TelemetrySample.row :=
  [sample_S2a 0.34 30; sample_S2a 0.36 55; sample_S2a 0.38 60;
   sample_S2a 0.40 35; sample_S2a 0.42 50].

Definition key_scenario_3 : PartitionKey :=
  ("sebring_R1"%string, "R1"%string, "D_7"%string, Some 7%Z, 3%Z, Some S2a).

(** A partition that opens inside the band: throttle 50, then 55. *)
Definition partition_opens_mid : list TelemetrySample.row :=
  [sample_S2a 0.34 50; sample_S2a 0.36 55].

(** A partition whose first sample has no throttle value (the channel was
    not reported at that timestamp), followed by a sample at 50. *)
Definition sample_S2a_no_throttle (lap_progress : Q) : TelemetrySample.row :=
  TelemetrySample.mk "sebring_R1" "R1" "D_7" (Some 7%Z) 3 (Some S2a)
    lap_progress None.

Definition partition_null_then_mid : list TelemetrySample.row :=
  [sample_S2a_no_throttle 0.34; sample_S2a 0.36 50].

(** Spec, scenario 4: two drivers of class GT tie on S1a at 18.2 s, with
    different brake pressures. *)
Definition base_instance (driver_id : string) (car_no : Z) (brake_max_bar : Q)
  : SectorPhysicsBase.row :=
  SectorPhysicsBase.mk "sebring_R1" "R1" "GT" driver_id (Some car_no) 3 S1a S1 18.2
    (Some 0.05) (Some brake_max_bar) (Some 0.4) (Some 1%Z) (Some 2.5)
    (Some (-1.1)) (Some 1.3).

Definition base_tie : list SectorPhysicsBase.row :=
  [base_instance "D_7" 7 60; base_instance "D_9" 9 80].

(** Two evaluations of the window: the partition as listed, and reversed. *)
Definition w_listed : Ranking := fun k => group_rows RefKey_dec ref_key k base_tie.
Definition w_reversed : Ranking := fun k => rev (group_rows RefKey_dec ref_key k base_tie).

(** One car, one valid lap of 100.0004 s, three sectors of 33.0002 s. *)
Definition db_round : Database :=
  mkDB [Driver.mk "D_5" 5 "GT" "sebring_R1"]
       [MergedLap.mk 5 1 100000.4]
       [MicroSectorRecord.mk "D_5" 5 1 S1a 33.0002;
        MicroSectorRecord.mk "D_5" 5 1 S2a 33.0002;
        MicroSectorRecord.mk "D_5" 5 1 S3a 33.0002].

(** Spec, scenario 1: D_7 drives S1a in 20.0 s and S1b in 15.0 s on lap 3;
    D_8 of the same class holds the class bests 19.0 s and 14.5 s. *)
Definition db_scenario_1 : Database :=
  mkDB [Driver.mk "D_7" 7 "GT" "sebring_R1"; Driver.mk "D_8" 8 "GT" "sebring_R1"]
       [MergedLap.mk 7 3 115200; MergedLap.mk 8 3 112000]
       [MicroSectorRecord.mk "D_7" 7 3 S1a 20; MicroSectorRecord.mk "D_7" 7 3 S1b 15;
        MicroSectorRecord.mk "D_8" 8 3 S1a 19; MicroSectorRecord.mk "D_8" 8 3 S1b 14.5].

(* ================================================================== *)
(** * Sample data for the further properties *)
(* ================================================================== *)

(** Three telemetry rows of one lap: before the start, without progress,
    and at the very end of the lap. *)
Definition telemetry_three : list TelemetryEnriched.row :=
  [TelemetryEnriched.mk "sebring_R1" "R1" "D_7" (Some 7%Z) 3 (Some (-0.2)) (Some 10);
   TelemetryEnriched.mk "sebring_R1" "R1" "D_7" (Some 7%Z) 3 None (Some 50);
   TelemetryEnriched.mk "sebring_R1" "R1" "D_7" (Some 7%Z) 3 (Some 1) (Some 99)].

(** One partition of telemetry_row_level: three samples of S2a, the brake
    pressed from the second sample on. *)
Definition row_S2a (lap_progress throttle_pct brake_f_bar : Q) : TelemetryRowLevel.row :=
  TelemetryRowLevel.mk (sample_S2a lap_progress throttle_pct) (Some brake_f_bar)
    (Some 1.5) (Some (-0.8)) (Some 1.1).

Definition rows_S2a : list TelemetryRowLevel.row :=
  [row_S2a 0.34 100 0; row_S2a 0.36 50 12; row_S2a 0.38 20 30].

Definition feature_S2a : TelemetryFeature.row :=
  TelemetryFeature.mk "sebring_R1" "R1" "D_7" (Some 7%Z) 3 S2a
    (agg_min (map braking_progress rows_S2a))
    (agg_max (map TelemetryRowLevel.brake_f_bar rows_S2a))
    (agg_avg (map (fun r => Some (full_throttle r)) rows_S2a))
    (agg_sum_Z (throttle_hesitation_flag (map TelemetryRowLevel.sample rows_S2a)))
    (agg_stddev_pop (fun x => x) (map TelemetryRowLevel.steering_deg rows_S2a))
    (agg_min (map TelemetryRowLevel.accx_g rows_S2a))
    (agg_max (map TelemetryRowLevel.accy_g rows_S2a)).

(** Telemetry of one lap: full throttle, coasting, braking. *)
Definition telemetry_lap : list Telemetry.row :=
  [Telemetry.mk "D_7" 1 (Some 180) (Some 100) (Some 0) (Some 1.5) (Some 0.4) (Some 0.2);
   Telemetry.mk "D_7" 1 (Some 170) (Some 2) (Some 0.2) (Some 3) (Some (-0.1)) (Some (-0.6));
   Telemetry.mk "D_7" 1 (Some 120) (Some 0) (Some 45) (Some 12) (Some (-1.2)) (Some 1.3)].

Definition physics_lap : LapPhysics.row :=
  lap_physics_row (fun q => q) ("D_7"%string, 1%Z) telemetry_lap.

(** A car with micro-sector records whose only lap is too long to be
    valid. *)
Definition db_no_valid_lap : Database :=
  mkDB [Driver.mk "D_9" 9 "GT" "sebring_R1"]
       [MergedLap.mk 9 1 300000]
       [MicroSectorRecord.mk "D_9" 9 1 S1a 20; MicroSectorRecord.mk "D_9" 9 1 S2a 41].

(** The session when lap 1 of car 7 is timed in two outings. *)
Definition db_two_outings : Database :=
  mkDB (drivers db_session)
       [MergedLap.mk 7 1 115200; MergedLap.mk 7 1 116000]
       (sectors db_session).

(* ================================================================== *)
(** * Facts about the SQL building blocks *)
(* ================================================================== *)

(** A list with a known member is not the empty list. *)
Ltac member_not_nil H :=
  let E := fresh "E" in
  intros E; rewrite E in H; contradiction.

Lemma str_eqb_eq (a b : string) : str_eqb a b = true <-> a = b.
Proof. unfold str_eqb. apply String.eqb_eq. Qed.

Lemma str_eqb_refl (a : string) : str_eqb a a = true.
Proof. apply str_eqb_eq. reflexivity. Qed.

Lemma Qlt_bool_iff (x y : Q) : Qlt_bool x y = true <-> x < y.
Proof.
  unfold Qlt_bool. rewrite negb_true_iff.
  split; intro H.
  - apply Qnot_le_lt. intro Hle. apply Qle_bool_iff in Hle. congruence.
  - destruct (Qle_bool y x) eqn:E; [|reflexivity].
    apply Qle_bool_iff in E. exfalso. apply (Qlt_not_le _ _ H E).
Qed.

Lemma between_iff (x lo hi : Q) : between x lo hi = true <-> lo <= x /\ x <= hi.
Proof.
  unfold between. rewrite andb_true_iff, !Qle_bool_iff. tauto.
Qed.

Lemma somes_map_Some {A B : Type} (f : A -> B) (l : list A) :
  somes (map (fun a => Some (f a)) l) = map f l.
Proof. induction l as [|a l IH]; simpl; congruence. Qed.

Lemma in_somes {A : Type} (l : list (option A)) (x : A) :
  In x (somes l) <-> In (Some x) l.
Proof.
  induction l as [|[a|] l IH]; simpl.
  - tauto.
  - rewrite IH. split; intros [H|H]; auto; left; congruence.
  - rewrite IH. split; [auto|]. intros [H|H]; [discriminate|auto].
Qed.

Section GroupByFacts.
Context {A K : Type}.
Variable K_dec : forall x y : K, {x = y} + {x <> y}.
Variable key : A -> K.

Lemma has_key_true (k : K) (a : A) : has_key K_dec key k a = true <-> key a = k.
Proof.
  unfold has_key. destruct (K_dec (key a) k); split; congruence.
Qed.

Lemma in_group_rows (k : K) (l : list A) (a : A) :
  In a (group_rows K_dec key k l) <-> In a l /\ key a = k.
Proof.
  unfold group_rows. rewrite filter_In, has_key_true. tauto.
Qed.

Lemma in_group_by (l : list A) (k : K) (g : list A) :
  In (k, g) (group_by K_dec key l) <->
  g = group_rows K_dec key k l /\ In k (map key l).
Proof.
  unfold group_by. rewrite in_map_iff. split.
  - intros (k' & E & Hk). inversion E; subst. split; [reflexivity|].
    now apply nodup_In in Hk.
  - intros [-> Hk]. exists k. split; [reflexivity|]. now apply nodup_In.
Qed.

Lemma group_by_nonempty (l : list A) (k : K) (g : list A) :
  In (k, g) (group_by K_dec key l) -> exists a, In a g.
Proof.
  intros H. apply in_group_by in H. destruct H as [-> Hk].
  apply in_map_iff in Hk. destruct Hk as (a & Ha & Hin).
  exists a. apply in_group_rows. auto.
Qed.

Lemma group_by_of_row (l : list A) (a : A) :
  In a l -> In (key a, group_rows K_dec key (key a) l) (group_by K_dec key l).
Proof.
  intros H. apply in_group_by. split; [reflexivity|]. now apply in_map.
Qed.

Lemma group_by_functional (l : list A) (k : K) (g g' : list A) :
  In (k, g) (group_by K_dec key l) -> In (k, g') (group_by K_dec key l) -> g = g'.
Proof.
  intros H H'. apply in_group_by in H. apply in_group_by in H'.
  destruct H as [-> _]. destruct H' as [-> _]. reflexivity.
Qed.
End GroupByFacts.

Lemma in_join {A B : Type} (on : A -> B -> bool) (la : list A) (lb : list B)
  (a : A) (b : B) :
  In (a, b) (join on la lb) <-> In a la /\ In b lb /\ on a b = true.
Proof.
  unfold join. rewrite in_flat_map. split.
  - intros (a' & Ha & H). apply in_map_iff in H.
    destruct H as (b' & E & Hb). inversion E; subst.
    apply filter_In in Hb. tauto.
  - intros (Ha & Hb & Hon). exists a. split; [assumption|].
    apply in_map_iff. exists b. split; [reflexivity|].
    apply filter_In. auto.
Qed.

(** ** Minimum of a column *)

Lemma Qmin_cases (x y : Q) : Qmin x y = x \/ Qmin x y = y.
Proof.
  unfold Qmin, GenericMinMax.gmin. destruct (x ?= y); auto.
Qed.

Lemma fold_Qmin_le_init (t : list Q) (x : Q) : fold_left Qmin t x <= x.
Proof.
  revert x. induction t as [|y t IH]; intros x; simpl.
  - apply Qle_refl.
  - eapply Qle_trans; [apply IH|]. apply Q.le_min_l.
Qed.

Lemma fold_Qmin_le_all (t : list Q) (x y : Q) : In y t -> fold_left Qmin t x <= y.
Proof.
  revert x. induction t as [|z t IH]; intros x H; simpl in *.
  - contradiction.
  - destruct H as [->|H].
    + eapply Qle_trans; [apply fold_Qmin_le_init|]. apply Q.le_min_r.
    + now apply IH.
Qed.

Lemma fold_Qmin_in (t : list Q) (x : Q) : In (fold_left Qmin t x) (x :: t).
Proof.
  revert x. induction t as [|y t IH]; intros x; simpl.
  - auto.
  - destruct (IH (Qmin x y)) as [H|H].
    + rewrite <- H. destruct (Qmin_cases x y) as [E|E]; rewrite E; auto.
    + auto.
Qed.

Lemma agg_min_Some (l : list (option Q)) (m : Q) :
  agg_min l = Some m -> is_min m (somes l).
Proof.
  unfold agg_min. destruct (somes l) as [|x t]; [discriminate|].
  intros E. inversion E; subst. split.
  - apply fold_Qmin_in.
  - intros y [<-|Hy].
    + apply fold_Qmin_le_init.
    + now apply fold_Qmin_le_all.
Qed.

Lemma agg_min_None (l : list (option Q)) : agg_min l = None <-> somes l = [].
Proof.
  unfold agg_min. destruct (somes l); split; congruence.
Qed.

Lemma agg_min_exists (l : list (option Q)) (x : Q) :
  In (Some x) l -> exists m, agg_min l = Some m /\ m <= x.
Proof.
  intros H. apply in_somes in H.
  destruct (agg_min l) as [m|] eqn:E.
  - exists m. split; [reflexivity|]. apply agg_min_Some in E. now apply E.
  - apply agg_min_None in E. rewrite E in H. contradiction.
Qed.

Lemma is_min_unique (m m' : Q) (v : list Q) : is_min m v -> is_min m' v -> m == m'.
Proof.
  intros [Hin Hle] [Hin' Hle']. apply Qle_antisym; auto.
Qed.

(** ** Sums *)

Lemma Qsum_app (u v : list Q) : Qsum (u ++ v) == Qsum u + Qsum v.
Proof.
  induction u as [|x u IH]; simpl.
  - ring.
  - rewrite IH. ring.
Qed.

Lemma Qsum_nonneg (v : list Q) : (forall x, In x v -> 0 <= x) -> 0 <= Qsum v.
Proof.
  induction v as [|x v IH]; intros H; simpl.
  - apply Qle_refl.
  - assert (0 <= x) by (apply H; simpl; auto).
    assert (0 <= Qsum v) by (apply IH; intros; apply H; simpl; auto).
    lra.
Qed.

Lemma agg_sum_rows {A : Type} (f : A -> Q) (g : list A) :
  g <> [] -> agg_sum (map (fun a => Some (f a)) g) = Some (Qsum (map f g)).
Proof.
  unfold agg_sum. rewrite somes_map_Some.
  destruct g as [|a g]; [congruence|]. reflexivity.
Qed.

(* ================================================================== *)
(** * Facts about the Ideal-Lap Engine *)
(* ================================================================== *)

Lemma in_laps (db : Database) (l : LapRecord.row) :
  In l (laps db) ->
  LapRecord.is_valid l = between (LapRecord.lap_time_s l) 60 240.
Proof.
  unfold laps, run_laps_pipeline. intros H. apply in_map_iff in H.
  destruct H as (m & <- & _). reflexivity.
Qed.

Lemma in_lap_sector_sums (db : Database) (l : LapSectorSum.row) :
  In l (lap_sector_sums db) ->
  micro_rows db (lap_sum_key l) <> [] /\
  LapSectorSum.sector_time_sum l = Some (per_lap_sum db (lap_sum_key l)).
Proof.
  unfold lap_sector_sums. intros H. apply in_map_iff in H.
  destruct H as ([[[[D c] n] ms] g] & <- & Hg).
  pose proof (group_by_nonempty _ _ _ _ _ Hg) as [a Ha].
  apply in_group_by in Hg. destruct Hg as [-> _].
  unfold lap_sum_key, per_lap_sum, micro_rows; simpl.
  split.
  - member_not_nil Ha.
  - apply agg_sum_rows. member_not_nil Ha.
Qed.

Lemma lap_sector_sums_of_key (db : Database) (D : string) (c n : Z) (ms : MainSector) :
  micro_rows db (D, c, n, ms) <> [] ->
  In (LapSectorSum.mk D c n ms (Some (per_lap_sum db (D, c, n, ms))))
     (lap_sector_sums db).
Proof.
  intros Hne. unfold lap_sector_sums. apply in_map_iff.
  exists ((D, c, n, ms), micro_rows db (D, c, n, ms)). split.
  - simpl. f_equal. apply agg_sum_rows. exact Hne.
  - apply in_group_by. split; [reflexivity|].
    destruct (micro_rows db (D, c, n, ms)) as [|a t] eqn:E; [congruence|].
    assert (Ha : In a (micro_rows db (D, c, n, ms))) by (rewrite E; simpl; auto).
    apply in_group_rows in Ha. destruct Ha as [Ha <-]. now apply in_map.
Qed.

Lemma in_driver_group (db : Database) (D : string) (l : LapSectorSum.row) (d : Driver.row) :
  In (l, d) (driver_group db D) <->
  In l (lap_sector_sums db) /\ In d (drivers db) /\
  LapSectorSum.driver_id l = D /\ Driver.driver_id d = D.
Proof.
  unfold driver_group. rewrite in_group_rows, in_join. simpl.
  unfold sum_driver. rewrite str_eqb_eq. split.
  - intros ((Hl & Hd & E) & E'). subst. auto.
  - intros (Hl & Hd & E & E'). subst. auto.
Qed.

Lemma in_ideal_lap_driver (db : Database) (i : DriverBestMainSector.row) :
  In i (ideal_lap_driver db) ->
  (exists ld, In ld (driver_group db (DriverBestMainSector.driver_id i))) /\
  forall ms, best_of ms i =
             agg_min (map (fun ld => sum_when ms (fst ld))
                          (driver_group db (DriverBestMainSector.driver_id i))).
Proof.
  unfold ideal_lap_driver. intros H. apply in_map_iff in H.
  destruct H as ([D g] & <- & Hg). simpl.
  pose proof (group_by_nonempty _ _ _ _ _ Hg) as Hne.
  apply in_group_by in Hg. destruct Hg as [-> _].
  split; [exact Hne|]. intros []; reflexivity.
Qed.

Lemma ideal_lap_driver_unique (db : Database) (i i' : DriverBestMainSector.row) :
  In i (ideal_lap_driver db) -> In i' (ideal_lap_driver db) ->
  DriverBestMainSector.driver_id i = DriverBestMainSector.driver_id i' -> i = i'.
Proof.
  unfold ideal_lap_driver. intros H H' E.
  apply in_map_iff in H. destruct H as ([D g] & <- & Hg).
  apply in_map_iff in H'. destruct H' as ([D' g'] & <- & Hg').
  simpl in E. subst D'.
  rewrite (group_by_functional _ _ _ _ _ _ Hg Hg'). reflexivity.
Qed.

Lemma ideal_lap_driver_exists (db : Database) (l : LapSectorSum.row) (d : Driver.row) :
  In l (lap_sector_sums db) -> In d (drivers db) ->
  LapSectorSum.driver_id l = Driver.driver_id d ->
  exists i, In i (ideal_lap_driver db) /\
            DriverBestMainSector.driver_id i = Driver.driver_id d.
Proof.
  intros Hl Hd E. unfold ideal_lap_driver.
  set (J := join sum_driver (lap_sector_sums db) (drivers db)).
  set (key := fun ld : LapSectorSum.row * Driver.row => LapSectorSum.driver_id (fst ld)).
  assert (HJ : In (l, d) J).
  { apply in_join. unfold sum_driver. rewrite str_eqb_eq. auto. }
  pose proof (group_by_of_row string_dec key J (l, d) HJ) as Hg.
  eexists. split.
  - apply in_map_iff. eexists. split; [reflexivity|exact Hg].
  - simpl. exact E.
Qed.

(** Each best of ideal_lap_driver is the minimum of that driver's per-lap
    sums of the main sector, or no value when there is none. *)
Lemma best_of_is_best (db : Database) (i : DriverBestMainSector.row) (ms : MainSector) :
  In i (ideal_lap_driver db) ->
  is_best db (DriverBestMainSector.driver_id i) ms (best_of ms i).
Proof.
  intros Hi. destruct (in_ideal_lap_driver db i Hi) as [[[l0 d0] H0] Hb].
  rewrite (Hb ms). set (D := DriverBestMainSector.driver_id i) in *.
  apply in_driver_group in H0. destruct H0 as (_ & Hd0 & _ & Ed0).
  assert (Hrow : forall car lap, micro_rows db (D, car, lap, ms) <> [] ->
            In (Some (per_lap_sum db (D, car, lap, ms)))
               (map (fun ld => sum_when ms (fst ld)) (driver_group db D))).
  { intros car lap Hne. apply in_map_iff.
    exists (LapSectorSum.mk D car lap ms (Some (per_lap_sum db (D, car, lap, ms))), d0).
    split.
    - unfold sum_when; simpl. destruct (MainSector_dec ms ms); congruence.
    - apply in_driver_group. simpl. repeat split; auto.
      now apply lap_sector_sums_of_key. }
  unfold is_best.
  destruct (agg_min (map (fun ld => sum_when ms (fst ld)) (driver_group db D)))
    as [m|] eqn:E.
  - apply agg_min_Some in E. destruct E as [Hin Hle]. split.
    + apply in_somes in Hin. apply in_map_iff in Hin.
      destruct Hin as ([l d] & Hs & Hld). simpl in Hs.
      apply in_driver_group in Hld. destruct Hld as (Hl & _ & El & _).
      unfold sum_when in Hs.
      destruct (MainSector_dec (LapSectorSum.main_sector l) ms) as [Ems|]; [|discriminate].
      destruct (in_lap_sector_sums db l Hl) as [Hne Hsum].
      unfold lap_sum_key in *. rewrite El, Ems in *.
      exists (LapSectorSum.car_no l), (LapSectorSum.lap_no l). split; [exact Hne|].
      congruence.
    + intros car lap Hne. apply Hle. apply in_somes. now apply Hrow.
  - apply agg_min_None in E. intros car lap.
    destruct (micro_rows db (D, car, lap, ms)) as [|a t] eqn:Em; [reflexivity|].
    assert (Hne : micro_rows db (D, car, lap, ms) <> []) by (rewrite Em; discriminate).
    apply Hrow in Hne. apply in_somes in Hne. rewrite E in Hne. contradiction.
Qed.

Lemma in_ideal_lap (db : Database) (r : IdealLap.row) :
  In r (ideal_lap db) ->
  exists l i,
    In l (laps db) /\ In i (ideal_lap_driver db) /\
    LapRecord.is_valid l = true /\
    LapRecord.driver_id l = DriverBestMainSector.driver_id i /\
    IdealLap.driver_id r = LapRecord.driver_id l /\
    IdealLap.lap_no r = LapRecord.lap_no l /\
    IdealLap.lap_time_s r = LapRecord.lap_time_s l /\
    IdealLap.best_S1 r = DriverBestMainSector.best_S1 i /\
    IdealLap.best_S2 r = DriverBestMainSector.best_S2 i /\
    IdealLap.best_S3 r = DriverBestMainSector.best_S3 i /\
    IdealLap.ideal_lap_time_s r =
      sql_add (sql_add (IdealLap.best_S1 r) (IdealLap.best_S2 r)) (IdealLap.best_S3 r) /\
    IdealLap.delta_to_ideal_s r =
      sql_sub (Some (IdealLap.lap_time_s r)) (IdealLap.ideal_lap_time_s r).
Proof.
  unfold ideal_lap. intros H. apply in_map_iff in H.
  destruct H as ([l i] & <- & H). apply filter_In in H. destruct H as [H Hv].
  apply in_join in H. destruct H as (Hl & Hi & Hon).
  unfold lap_best in Hon. apply str_eqb_eq in Hon. simpl in Hv.
  exists l, i. simpl. repeat split; auto.
Qed.

Lemma ideal_lap_of_lap (db : Database) (l : LapRecord.row) (i : DriverBestMainSector.row) :
  In l (laps db) -> In i (ideal_lap_driver db) ->
  LapRecord.is_valid l = true ->
  LapRecord.driver_id l = DriverBestMainSector.driver_id i ->
  exists r, In r (ideal_lap db) /\
    IdealLap.driver_id r = LapRecord.driver_id l /\
    IdealLap.lap_no r = LapRecord.lap_no l /\
    IdealLap.lap_time_s r = LapRecord.lap_time_s l /\
    IdealLap.ideal_lap_time_s r =
      sql_add (sql_add (DriverBestMainSector.best_S1 i) (DriverBestMainSector.best_S2 i))
              (DriverBestMainSector.best_S3 i).
Proof.
  intros Hl Hi Hv E. unfold ideal_lap. eexists. split.
  - apply in_map_iff. exists (l, i). split; [reflexivity|].
    apply filter_In. split; [|exact Hv].
    apply in_join. unfold lap_best. rewrite str_eqb_eq. auto.
  - simpl. auto.
Qed.

(* ================================================================== *)
(** * Facts about the Delta Engine *)
(* ================================================================== *)

Lemma join_cons {A B : Type} (on : A -> B -> bool) (a : A) (la : list A) (lb : list B) :
  join on (a :: la) lb = join on [a] lb ++ join on la lb.
Proof. unfold join. simpl. now rewrite app_nil_r. Qed.

Lemma join_app {A B : Type} (on : A -> B -> bool) (l1 l2 : list A) (lb : list B) :
  join on (l1 ++ l2) lb = join on l1 lb ++ join on l2 lb.
Proof. unfold join. apply flat_map_app. Qed.

(** sector_deltas is assembled record by record. *)
Lemma sector_deltas_flat (db : Database) :
  sector_deltas db = flat_map (sector_delta_rows db) (sectors db).
Proof.
  unfold sector_deltas, sector_delta_rows.
  induction (sectors db) as [|s l IH]; [reflexivity|].
  rewrite (join_cons sector_driver s l), !join_app, filter_app, map_app.
  simpl. now rewrite IH.
Qed.

Lemma in_sector_delta_rows (db : Database) (s : MicroSectorRecord.row) (r : SectorDelta.row) :
  In r (sector_delta_rows db s) ->
  over_one s = true /\
  exists d ils ild,
    In d (drivers db) /\ MicroSectorRecord.driver_id s = Driver.driver_id d /\
    In ild (ideal_lap_driver db) /\
    DriverBestMainSector.driver_id ild = MicroSectorRecord.driver_id s /\
    r = sector_delta_row (s, d, ils, ild).
Proof.
  unfold sector_delta_rows. intros H. apply in_map_iff in H.
  destruct H as ([[[s' d] ils] ild] & <- & H).
  apply filter_In in H. destruct H as [H Ho]. simpl in Ho.
  apply in_join in H. destruct H as (H & Hild & Hon2).
  apply in_join in H. destruct H as (H & Hils & Hon1).
  apply in_join in H. destruct H as (Hs & Hd & Hon0).
  destruct Hs as [<-|[]].
  unfold on_driver_best in Hon2. simpl in Hon2. apply str_eqb_eq in Hon2.
  unfold sector_driver in Hon0. apply str_eqb_eq in Hon0.
  split; [exact Ho|]. exists d, ils, ild. repeat split; auto.
Qed.

Lemma sector_delta_row_key (s : MicroSectorRecord.row) (d : Driver.row)
  (ils : ClassBestSegment.row) (ild : DriverBestMainSector.row) :
  delta_key (sector_delta_row (s, d, ils, ild)) = sector_key s /\
  SectorDelta.sector_time_s (sector_delta_row (s, d, ils, ild))
    = MicroSectorRecord.sector_time_s s.
Proof. split; reflexivity. Qed.

(** A record above one second whose driver is in the drivers table reaches
    sector_deltas: its class has a best for the micro-sector, and its driver
    has a row of bests. *)
Lemma sector_delta_rows_nonempty (db : Database) (s : MicroSectorRecord.row) (d : Driver.row) :
  In s (sectors db) -> over_one s = true -> In d (drivers db) ->
  MicroSectorRecord.driver_id s = Driver.driver_id d ->
  sector_delta_rows db s <> [].
Proof.
  intros Hs Ho Hd E.
  (* the class best of the micro-sector *)
  set (J := filter (fun sd : MicroSectorRecord.row * Driver.row => over_one (fst sd))
                   (join sector_driver (sectors db) (drivers db))).
  set (key := fun sd : MicroSectorRecord.row * Driver.row =>
                (Driver.class (snd sd), MicroSectorRecord.sector_id (fst sd))).
  assert (HJ : In (s, d) J).
  { apply filter_In. split; [|exact Ho]. apply in_join.
    unfold sector_driver. rewrite str_eqb_eq. auto. }
  pose proof (group_by_of_row ClassSector_dec key J (s, d) HJ) as Hg.
  set (ils := ClassBestSegment.mk (Driver.class d) (MicroSectorRecord.sector_id s)
                (agg_min (map (fun sd : MicroSectorRecord.row * Driver.row =>
                                 Some (MicroSectorRecord.sector_time_s (fst sd)))
                              (group_rows ClassSector_dec key (key (s, d)) J)))).
  assert (Hils : In ils (ideal_lap_segments_class db)).
  { unfold ideal_lap_segments_class. apply in_map_iff.
    eexists. split; [|exact Hg]. reflexivity. }
  (* the driver's row of bests *)
  assert (Hne : micro_rows db (sector_key s) <> []).
  { assert (Hin : In s (micro_rows db (sector_key s))).
    { apply in_group_rows. split; [|reflexivity]. apply filter_In. auto. }
    member_not_nil Hin. }
  unfold sector_key in Hne.
  pose proof (lap_sector_sums_of_key db _ _ _ _ Hne) as Hl.
  destruct (ideal_lap_driver_exists db _ d Hl Hd E) as (ild & Hild & Eild).
  intros Eempty.
  assert (Hin : In (sector_delta_row (s, d, ils, ild)) (sector_delta_rows db s)).
  { unfold sector_delta_rows. apply in_map. apply filter_In. split; [|exact Ho].
    apply in_join. split; [|split; [exact Hild|]].
    - apply in_join. split; [|split; [exact Hils|]].
      + apply in_join. split; [simpl; auto|]. split; [exact Hd|].
        unfold sector_driver. rewrite str_eqb_eq. exact E.
      + unfold on_class_best, ils. simpl.
        destruct (SectorId_dec (MicroSectorRecord.sector_id s) (MicroSectorRecord.sector_id s));
          [|congruence].
        simpl. apply str_eqb_refl.
    - unfold on_driver_best. simpl. rewrite str_eqb_eq. congruence. }
  rewrite Eempty in Hin. contradiction.
Qed.

Lemma Qsum_const_ge {B : Type} (time : B -> Q) (rows : list B) (t : Q) :
  0 <= t -> rows <> [] -> (forall r, In r rows -> time r = t) ->
  t <= Qsum (map time rows).
Proof.
  intros Ht Hne Hall. destruct rows as [|r rows]; [congruence|]. simpl.
  rewrite (Hall r) by (simpl; auto).
  assert (0 <= Qsum (map time rows)).
  { apply Qsum_nonneg. intros x Hx. apply in_map_iff in Hx.
    destruct Hx as (r' & <- & Hr'). rewrite (Hall r') by (simpl; auto). exact Ht. }
  lra.
Qed.

Lemma over_one_pos (s : MicroSectorRecord.row) :
  over_one s = true -> 1 < MicroSectorRecord.sector_time_s s.
Proof. unfold over_one. apply Qlt_bool_iff. Qed.

(** The times that sector_deltas holds for one lap and main sector add up
    to at least the per-lap sum of lap_sector_sums. *)
Lemma group_sum_ge (db : Database) (k : LapSectorKey) (l : list MicroSectorRecord.row) :
  (forall s, In s l -> over_one s = true -> sector_key s = k ->
             sector_delta_rows db s <> []) ->
  Qsum (map MicroSectorRecord.sector_time_s
            (group_rows LapSectorKey_dec sector_key k (filter over_one l)))
  <= Qsum (map SectorDelta.sector_time_s
               (group_rows LapSectorKey_dec delta_key k
                           (flat_map (sector_delta_rows db) l))).
Proof.
  induction l as [|s l IH]; intros H.
  - simpl. apply Qle_refl.
  - assert (IH' := IH (fun s' Hs' => H s' (or_intror Hs'))). clear IH.
    simpl flat_map. unfold group_rows at 2. rewrite filter_app.
    fold (group_rows LapSectorKey_dec delta_key k (sector_delta_rows db s)).
    fold (group_rows LapSectorKey_dec delta_key k (flat_map (sector_delta_rows db) l)).
    rewrite map_app, Qsum_app.
    assert (Hrows : forall r, In r (sector_delta_rows db s) ->
                      over_one s = true /\ delta_key r = sector_key s /\
                      SectorDelta.sector_time_s r = MicroSectorRecord.sector_time_s s).
    { intros r Hr. apply in_sector_delta_rows in Hr.
      destruct Hr as (Ho & d & ils & ild & _ & _ & _ & _ & ->).
      split; [exact Ho|]. apply sector_delta_row_key. }
    assert (Hpos : 0 <= Qsum (map SectorDelta.sector_time_s
                     (group_rows LapSectorKey_dec delta_key k (sector_delta_rows db s)))).
    { apply Qsum_nonneg. intros x Hx. apply in_map_iff in Hx.
      destruct Hx as (r & <- & Hr). apply in_group_rows in Hr. destruct Hr as [Hr _].
      destruct (Hrows r Hr) as (Ho & _ & ->). apply over_one_pos in Ho. lra. }
    simpl filter. destruct (over_one s) eqn:Ho.
    + unfold group_rows at 1. simpl filter.
      destruct (has_key LapSectorKey_dec sector_key k s) eqn:Hk.
      * apply has_key_true in Hk.
        fold (group_rows LapSectorKey_dec sector_key k (filter over_one l)).
        simpl map. simpl Qsum.
        assert (Hall : group_rows LapSectorKey_dec delta_key k (sector_delta_rows db s)
                       = sector_delta_rows db s).
        { unfold group_rows. apply forallb_filter_id. apply forallb_forall.
          intros r Hr. apply has_key_true. destruct (Hrows r Hr) as (_ & -> & _). exact Hk. }
        rewrite Hall.
        assert (MicroSectorRecord.sector_time_s s
                <= Qsum (map SectorDelta.sector_time_s (sector_delta_rows db s))).
        { apply Qsum_const_ge.
          - apply over_one_pos in Ho. lra.
          - apply H; simpl; auto.
          - intros r Hr. now destruct (Hrows r Hr) as (_ & _ & ->). }
        lra.
      * fold (group_rows LapSectorKey_dec sector_key k (filter over_one l)). lra.
    + fold (group_rows LapSectorKey_dec sector_key k (filter over_one l)). lra.
Qed.

Lemma in_lap_deltas (db : Database) (r : LapDelta.row) :
  In r (lap_deltas db) ->
  exists l i,
    In l (laps db) /\ In i (ideal_lap db) /\
    LapRecord.is_valid l = true /\
    LapRecord.driver_id l = IdealLap.driver_id i /\
    LapRecord.lap_no l = IdealLap.lap_no i /\
    LapDelta.driver_id r = LapRecord.driver_id l /\
    LapDelta.lap_no r = LapRecord.lap_no l /\
    LapDelta.lap_time_s r = LapRecord.lap_time_s l /\
    LapDelta.ideal_lap_time_s r = IdealLap.ideal_lap_time_s i /\
    LapDelta.delta_lap_s r =
      sql_sub (Some (LapRecord.lap_time_s l)) (IdealLap.ideal_lap_time_s i).
Proof.
  unfold lap_deltas. intros H. apply in_map_iff in H.
  destruct H as ([l i] & <- & H). apply filter_In in H. destruct H as [H Hv].
  apply in_join in H. destruct H as (Hl & Hi & Hon).
  unfold on_ideal_lap in Hon. apply andb_true_iff in Hon. destruct Hon as [E1 E2].
  apply str_eqb_eq in E1. apply Z.eqb_eq in E2. simpl in Hv.
  exists l, i. simpl. repeat split; auto.
Qed.

Lemma lap_deltas_of_lap (db : Database) (l : LapRecord.row) (i : IdealLap.row) :
  In l (laps db) -> In i (ideal_lap db) -> LapRecord.is_valid l = true ->
  LapRecord.driver_id l = IdealLap.driver_id i ->
  LapRecord.lap_no l = IdealLap.lap_no i ->
  In (LapDelta.mk (LapRecord.driver_id l) (LapRecord.lap_no l) (LapRecord.lap_time_s l)
        (IdealLap.ideal_lap_time_s i)
        (sql_sub (Some (LapRecord.lap_time_s l)) (IdealLap.ideal_lap_time_s i))
        (IdealLap.class i))
     (lap_deltas db).
Proof.
  intros Hl Hi Hv E1 E2. unfold lap_deltas. apply in_map_iff.
  exists (l, i). split; [reflexivity|]. apply filter_In. split; [|exact Hv].
  apply in_join. split; [exact Hl|]. split; [exact Hi|].
  unfold on_ideal_lap. rewrite andb_true_iff, str_eqb_eq, Z.eqb_eq. auto.
Qed.

Lemma group_best_col (ms : MainSector) (g : list SectorDelta.row) :
  group_best ms g = agg_min (map (best_col ms) g).
Proof. destruct ms; reflexivity. Qed.

Lemma in_main_sector_deltas (db : Database) (m : MainSectorDelta.row) :
  In m (main_sector_deltas db) ->
  let g := group_rows LapSectorKey_dec delta_key (main_delta_key m) (sector_deltas db) in
  (exists r, In r g) /\
  MainSectorDelta.actual_main_s m
    = agg_sum (map (fun r => Some (SectorDelta.sector_time_s r)) g) /\
  MainSectorDelta.ideal_main_s m = group_best (MainSectorDelta.main_sector m) g /\
  MainSectorDelta.delta_main_s m
    = sql_sub (MainSectorDelta.actual_main_s m) (MainSectorDelta.ideal_main_s m).
Proof.
  unfold main_sector_deltas. intros H. apply in_map_iff in H.
  destruct H as ([[[[D c] n] ms] g] & <- & Hg).
  pose proof (group_by_nonempty _ _ _ _ _ Hg) as Hne.
  apply in_group_by in Hg. destruct Hg as [-> _].
  unfold main_delta_key; simpl. repeat split; auto.
Qed.

Lemma agg_min_bound (l : list (option Q)) (P : Q) :
  l <> [] -> (forall x, In x l -> exists b, x = Some b /\ b <= P) ->
  exists b, agg_min l = Some b /\ b <= P.
Proof.
  intros Hne Hall. destruct l as [|x l]; [congruence|].
  destruct (Hall x) as (b & -> & Hb); [simpl; auto|].
  destruct (agg_min_exists (Some b :: l) b) as (m & Em & Hm); [simpl; auto|].
  exists m. split; [exact Em|]. lra.
Qed.

(** Every main-sector delta has a value, and it is not negative. *)
Lemma main_delta_nonneg (db : Database) (m : MainSectorDelta.row) :
  In m (main_sector_deltas db) ->
  exists q, MainSectorDelta.delta_main_s m = Some q /\ 0 <= q.
Proof.
  intros Hm. destruct (in_main_sector_deltas db m Hm) as ([r0 Hr0] & Ea & Ei & Ed).
  set (k := main_delta_key m) in *.
  set (g := group_rows LapSectorKey_dec delta_key k (sector_deltas db)) in *.
  (* the record behind one row of the group *)
  pose proof Hr0 as Hr0'. apply in_group_rows in Hr0'. destruct Hr0' as [Hr0s Hk0].
  rewrite sector_deltas_flat in Hr0s. apply in_flat_map in Hr0s.
  destruct Hr0s as (s0 & Hs0 & Hr0s).
  destruct (in_sector_delta_rows db s0 r0 Hr0s)
    as (Ho0 & d0 & ils0 & ild0 & Hd0 & Esd0 & _ & _ & Er0).
  assert (Eks0 : sector_key s0 = k).
  { rewrite <- Hk0, Er0. symmetry. apply sector_delta_row_key. }
  (* the times of the group add up to at least the per-lap sum *)
  assert (Hsum : per_lap_sum db k <= Qsum (map SectorDelta.sector_time_s g)).
  { unfold per_lap_sum, micro_rows, g. rewrite sector_deltas_flat.
    apply group_sum_ge. intros s Hs Ho Eks.
    apply (sector_delta_rows_nonempty db s d0 Hs Ho Hd0).
    rewrite <- Esd0. rewrite <- Eks0 in Eks. unfold sector_key in Eks. congruence. }
  assert (Hgne : g <> []).
  { member_not_nil Hr0. }
  assert (Hne : micro_rows db k <> []).
  { assert (Hin : In s0 (micro_rows db k)).
    { apply in_group_rows. split; [|exact Eks0]. apply filter_In. auto. }
    member_not_nil Hin. }
  (* the best of the group is at most the per-lap sum *)
  assert (Hbest : exists b, group_best (MainSectorDelta.main_sector m) g = Some b /\
                            b <= per_lap_sum db k).
  { rewrite group_best_col. apply agg_min_bound.
    - destruct g; [congruence|discriminate].
    - intros x Hx. apply in_map_iff in Hx. destruct Hx as (r & <- & Hr).
      apply in_group_rows in Hr. destruct Hr as [Hrs Hkr].
      rewrite sector_deltas_flat in Hrs. apply in_flat_map in Hrs.
      destruct Hrs as (s & Hs & Hrs).
      destruct (in_sector_delta_rows db s r Hrs)
        as (Ho & d & ils & ild & Hd & Esd & Hild & Eild & Er).
      assert (Eks : sector_key s = k).
      { rewrite <- Hkr, Er. symmetry. apply sector_delta_row_key. }
      assert (Ebest : best_col (MainSectorDelta.main_sector m) r
                      = best_of (MainSectorDelta.main_sector m) ild).
      { rewrite Er. destruct (MainSectorDelta.main_sector m); reflexivity. }
      rewrite Ebest.
      pose proof (best_of_is_best db ild (MainSectorDelta.main_sector m) Hild) as Hb.
      assert (Ek : k = (DriverBestMainSector.driver_id ild, MainSectorDelta.car_no m,
                        MainSectorDelta.lap_no m, MainSectorDelta.main_sector m)).
      { unfold k, main_delta_key. rewrite Eild. rewrite <- Eks in *.
        unfold k, main_delta_key, sector_key in Eks. congruence. }
      destruct (best_of (MainSectorDelta.main_sector m) ild) as [b|].
      + exists b. split; [reflexivity|]. destruct Hb as [_ Hle].
        rewrite Ek. apply Hle. rewrite <- Ek. exact Hne.
      + exfalso. apply Hne. rewrite Ek. apply Hb. }
  destruct Hbest as (b & Eb & Hb).
  rewrite Ed, Ea, Ei, Eb.
  rewrite (agg_sum_rows SectorDelta.sector_time_s g Hgne). simpl.
  eexists. split; [reflexivity|]. lra.
Qed.

Lemma filter_filter_and {A : Type} (f g : A -> bool) (l : list A) :
  filter f (filter g l) = filter (fun x => f x && g x) l.
Proof.
  induction l as [|a l IH]; [reflexivity|]. simpl.
  destruct (g a); simpl.
  - rewrite andb_true_r. destruct (f a); simpl; now rewrite IH.
  - now rewrite andb_false_r.
Qed.

Lemma mean_nonneg (v : list Q) : (forall x, In x v -> 0 <= x) -> 0 <= mean v.
Proof.
  intros H. unfold mean, Qdiv. apply Qmult_le_0_compat.
  - now apply Qsum_nonneg.
  - apply Qinv_le_0_compat. unfold Qle. simpl. lia.
Qed.

(** What one row of driver_opportunities holds, in terms of the deltas of
    its (driver, main sector) that are below 20 s. *)
Lemma opportunity_row_spec (sqrt : Q -> Q) (ms : list MainSectorDelta.row)
  (o : DriverOpportunity.row) :
  In o (opportunities_of sqrt ms) ->
  let v := deltas_below_20 ms (DriverOpportunity.driver_id o, DriverOpportunity.main_sector o) in
  v <> [] /\
  DriverOpportunity.avg_loss_s o = Some (mean v) /\
  DriverOpportunity.consistency_s o
    = match v with
      | [] | [_] => None
      | _ => Some (sqrt (sample_variance v))
      end /\
  (exists b, DriverOpportunity.best_gain_s o = Some b /\ is_min b v).
Proof.
  unfold opportunities_of. intros H. apply in_map_iff in H.
  destruct H as ([k g] & <- & Hg). simpl fst; simpl snd.
  pose proof (group_by_nonempty _ _ _ _ _ Hg) as [m0 Hm0].
  apply in_group_by in Hg. destruct Hg as [-> _].
  unfold opportunity_row. simpl. destruct k as [D s]. simpl.
  unfold deltas_below_20.
  assert (Eg : group_rows OpportunityKey_dec opportunity_key (D, s) (filter below_outlier ms)
               = filter (fun m => has_key OpportunityKey_dec opportunity_key (D, s) m
                                  && sql_lt (MainSectorDelta.delta_main_s m) 20) ms).
  { unfold group_rows. apply filter_filter_and. }
  rewrite Eg in *.
  set (v := somes (map MainSectorDelta.delta_main_s
                      (filter (fun m => has_key OpportunityKey_dec opportunity_key (D, s) m
                                        && sql_lt (MainSectorDelta.delta_main_s m) 20) ms))).
  assert (Hv : v <> []).
  { pose proof Hm0 as Hm. apply filter_In in Hm. destruct Hm as [_ Hc].
    apply andb_true_iff in Hc. destruct Hc as [_ Hlt]. unfold sql_lt in Hlt.
    destruct (MainSectorDelta.delta_main_s m0) as [q|] eqn:Eq; [|discriminate].
    assert (Hin : In q v).
    { unfold v. apply in_somes. rewrite <- Eq. now apply in_map. }
    member_not_nil Hin. }
  split; [exact Hv|]. split; [|split].
  - unfold agg_avg. fold v. destruct v; [congruence|reflexivity].
  - unfold agg_stddev, agg_var_samp. fold v. destruct v as [|x [|y t]]; reflexivity.
  - destruct (agg_min (map MainSectorDelta.delta_main_s
                (filter (fun m => has_key OpportunityKey_dec opportunity_key (D, s) m
                                  && sql_lt (MainSectorDelta.delta_main_s m) 20) ms)))
      as [b|] eqn:E.
    + exists b. split; [reflexivity|]. now apply agg_min_Some in E.
    + apply agg_min_None in E. fold v in E. congruence.
Qed.

Lemma in_deltas_below_20 (ms : list MainSectorDelta.row) (k : OpportunityKey) (x : Q) :
  In x (deltas_below_20 ms k) <->
  exists m, In m ms /\ opportunity_key m = k /\
            MainSectorDelta.delta_main_s m = Some x /\ x < 20.
Proof.
  unfold deltas_below_20. rewrite in_somes, in_map_iff. split.
  - intros (m & E & Hm). apply filter_In in Hm. destruct Hm as [Hm Hc].
    apply andb_true_iff in Hc. destruct Hc as [Hk Hlt].
    apply has_key_true in Hk. rewrite E in Hlt. simpl in Hlt.
    apply Qlt_bool_iff in Hlt. exists m. auto.
  - intros (m & Hm & Hk & E & Hlt). exists m. split; [exact E|].
    apply filter_In. split; [exact Hm|]. apply andb_true_iff. split.
    + now apply has_key_true.
    + rewrite E. simpl. now apply Qlt_bool_iff.
Qed.

(* ================================================================== *)
(** * Facts about the Hesitation Detector *)
(* ================================================================== *)

Lemma mid_throttle_true (x : option Q) : mid_throttle x = Some true <-> in_band x.
Proof.
  unfold mid_throttle, sql_between, in_band. destruct x as [v|]; simpl.
  - split.
    + intros E. inversion E as [E']. apply between_iff in E'. exists v. tauto.
    + intros (v' & E & H). inversion E; subst. f_equal. apply between_iff. tauto.
  - split; [discriminate|]. intros (v & E & _). discriminate.
Qed.

Lemma mid_throttle_false (x : option Q) : mid_throttle x = Some false <-> out_of_band x.
Proof.
  unfold mid_throttle, sql_between, out_of_band. destruct x as [v|]; simpl.
  - split.
    + intros E. inversion E as [E']. exists v. split; [reflexivity|].
      intros H. apply between_iff in H. congruence.
    + intros (v' & E & H). inversion E; subst. f_equal.
      destruct (between v' 40 70) eqn:Eb; [|reflexivity].
      apply between_iff in Eb. contradiction.
  - split; [discriminate|]. intros (v & E & _). discriminate.
Qed.

Lemma hesitation_flags_from (d : option bool) (l : list (option Q)) :
  map (fun ml : option bool * option bool =>
         case_1_else_0 (sql_and (fst ml) (sql_not (snd ml))))
      (combine (map mid_throttle l) (lag d (map mid_throttle l)))
  = flags_from d l.
Proof.
  revert d. induction l as [|x l IH]; intros d; simpl; [reflexivity|].
  now rewrite IH.
Qed.

Lemma hesitation_flags_eq (l : list (option Q)) :
  hesitation_flags l = flags_from (Some false) l.
Proof. apply hesitation_flags_from. Qed.

Lemma flags_from_succ (l : list (option Q)) (i : nat) (p s : option Q) (d : option bool) :
  nth_error l i = Some p -> nth_error l (S i) = Some s ->
  nth_error (flags_from d l) (S i)
  = Some (case_1_else_0 (sql_and (mid_throttle s) (sql_not (mid_throttle p)))).
Proof.
  revert l d. induction i as [|i IH]; intros l d Hp Hs.
  - destruct l as [|x [|y l]]; simpl in *; try discriminate.
    inversion Hp; inversion Hs; subst. reflexivity.
  - destruct l as [|x l]; simpl in *; [discriminate|].
    apply (IH l (mid_throttle x) Hp Hs).
Qed.

Lemma case_flag_entry (s p : option Q) :
  case_1_else_0 (sql_and (mid_throttle s) (sql_not (mid_throttle p))) = 1%Z <->
  in_band s /\ out_of_band p.
Proof.
  rewrite <- mid_throttle_true, <- mid_throttle_false.
  destruct (mid_throttle s) as [[|]|], (mid_throttle p) as [[|]|]; simpl;
    split; try discriminate; try tauto;
    intros [H1 H2]; discriminate.
Qed.

Lemma case_flag_first (s : option Q) :
  case_1_else_0 (sql_and (mid_throttle s) (sql_not (Some false))) = 1%Z <-> in_band s.
Proof.
  rewrite <- mid_throttle_true.
  destruct (mid_throttle s) as [[|]|]; simpl; split; try discriminate; tauto.
Qed.

Lemma case_flag_bit (c : option bool) : case_1_else_0 c = 0%Z \/ case_1_else_0 c = 1%Z.
Proof. destruct c as [[|]|]; simpl; auto. Qed.

(* ================================================================== *)
(** * Facts about the Physics-Reference Engine *)
(* ================================================================== *)

Lemma filter_rank_tail {A : Type} (o : list A) (n : Z) :
  (1 < n)%Z -> filter (fun xn : A * Z => Z.eqb (snd xn) 1) (number_from n o) = [].
Proof.
  revert n. induction o as [|x o IH]; intros n Hn; simpl; [reflexivity|].
  destruct (Z.eqb_spec n 1); [lia|]. apply IH. lia.
Qed.

Lemma filter_rank_one {A : Type} (o : list A) :
  filter (fun xn : A * Z => Z.eqb (snd xn) 1) (number_from 1 o)
  = match o with
    | [] => []
    | x :: _ => [(x, 1%Z)]
    end.
Proof.
  destruct o as [|x o]; simpl; [reflexivity|].
  now rewrite filter_rank_tail by lia.
Qed.

Lemma sector_physics_ref_flat (w : Ranking) (base : list SectorPhysicsBase.row) :
  sector_physics_ref w base
  = flat_map (reference_rows w) (nodup RefKey_dec (map ref_key base)).
Proof.
  unfold sector_physics_ref, sector_physics_ranked.
  induction (nodup RefKey_dec (map ref_key base)) as [|k ks IH]; [reflexivity|].
  simpl. rewrite filter_app, map_app, IH, filter_rank_one.
  unfold reference_rows. now destruct (w k).
Qed.

Lemma ranked_head (base : list SectorPhysicsBase.row) (k : RefKey)
  (x : SectorPhysicsBase.row) (t : list SectorPhysicsBase.row) :
  ranked base k (x :: t) -> is_fastest base x /\ ref_key x = k.
Proof.
  intros [Hperm Hsort].
  assert (Hx : In x (group_rows RefKey_dec ref_key k base)).
  { apply (Permutation_in _ Hperm). simpl; auto. }
  apply in_group_rows in Hx. destruct Hx as [Hx Hk].
  split; [|exact Hk]. split; [exact Hx|].
  intros c Hc Ekc.
  assert (Hcg : In c (x :: t)).
  { apply (Permutation_in _ (Permutation_sym Hperm)).
    apply in_group_rows. split; [exact Hc|congruence]. }
  destruct Hcg as [<-|Hct]; [apply Qle_refl|].
  apply StronglySorted_inv in Hsort. destruct Hsort as [_ Hall].
  rewrite Forall_forall in Hall. now apply Hall.
Qed.

Lemma ranked_nonempty (base : list SectorPhysicsBase.row) (k : RefKey)
  (o : list SectorPhysicsBase.row) (x : SectorPhysicsBase.row) :
  ranked base k o -> In x base -> ref_key x = k -> o <> [].
Proof.
  intros [Hperm _] Hx Hk E. subst o.
  apply Permutation_nil in Hperm.
  assert (Hin : In x (group_rows RefKey_dec ref_key k base)).
  { apply in_group_rows. auto. }
  rewrite Hperm in Hin. contradiction.
Qed.

Lemma on_ref_key (x : SectorPhysicsBase.row) (y : SectorPhysicsRef.row) :
  on_ref x y = true <-> ref_row_key y = ref_key x.
Proof.
  unfold on_ref, ref_row_key, ref_key.
  rewrite !andb_true_iff, !str_eqb_eq.
  destruct (SectorId_dec (SectorPhysicsBase.sector_id x) (SectorPhysicsRef.sector_id y));
    split.
  - intros [[-> ->] _]. congruence.
  - intros E. inversion E. auto.
  - intros [_ H]. discriminate.
  - intros E. inversion E. congruence.
Qed.

(** Under an admissible evaluation, the reference rows of partition [k]
    carry the key [k]. *)
Lemma reference_rows_key (base : list SectorPhysicsBase.row) (w : Ranking) (k : RefKey)
  (y : SectorPhysicsRef.row) :
  admissible base w -> In y (reference_rows w k) -> ref_row_key y = k.
Proof.
  intros Hw Hy. unfold reference_rows in Hy. specialize (Hw k).
  destruct (w k) as [|x t]; [contradiction|].
  destruct Hy as [<-|[]]. apply ranked_head in Hw. destruct Hw as [_ Hk].
  exact Hk.
Qed.

Lemma filter_on_ref_other (base : list SectorPhysicsBase.row) (w : Ranking)
  (x : SectorPhysicsBase.row) (ks : list RefKey) :
  admissible base w -> ~ In (ref_key x) ks ->
  filter (on_ref x) (flat_map (reference_rows w) ks) = [].
Proof.
  intros Hw. induction ks as [|k ks IH]; intros Hnot; [reflexivity|].
  simpl. rewrite filter_app, IH by (intros H; apply Hnot; simpl; auto).
  rewrite app_nil_r.
  destruct (filter (on_ref x) (reference_rows w k)) as [|y t] eqn:E; [reflexivity|].
  exfalso. assert (Hy : In y (filter (on_ref x) (reference_rows w k))) by (rewrite E; simpl; auto).
  apply filter_In in Hy. destruct Hy as [Hy Hon].
  apply on_ref_key in Hon. rewrite (reference_rows_key base w k y Hw Hy) in Hon.
  apply Hnot. simpl. auto.
Qed.

Lemma filter_on_ref_own (base : list SectorPhysicsBase.row) (w : Ranking)
  (x : SectorPhysicsBase.row) :
  admissible base w ->
  filter (on_ref x) (reference_rows w (ref_key x)) = reference_rows w (ref_key x).
Proof.
  intros Hw. apply forallb_filter_id. apply forallb_forall. intros y Hy.
  apply on_ref_key. now apply (reference_rows_key base w).
Qed.

Lemma filter_on_ref (base : list SectorPhysicsBase.row) (w : Ranking)
  (x : SectorPhysicsBase.row) (ks : list RefKey) :
  admissible base w -> NoDup ks -> In (ref_key x) ks ->
  filter (on_ref x) (flat_map (reference_rows w) ks) = reference_rows w (ref_key x).
Proof.
  intros Hw Hnd. induction Hnd as [|k ks Hk Hnd IH]; intros Hin; [contradiction|].
  simpl. rewrite filter_app. destruct (RefKey_dec k (ref_key x)) as [->|Hne].
  - rewrite (filter_on_ref_own base w x Hw).
    rewrite (filter_on_ref_other base w x ks Hw Hk). apply app_nil_r.
  - destruct Hin as [E|Hin]; [congruence|]. rewrite (IH Hin).
    destruct (filter (on_ref x) (reference_rows w k)) as [|y t] eqn:E; [reflexivity|].
    exfalso. assert (Hy : In y (filter (on_ref x) (reference_rows w k))) by (rewrite E; simpl; auto).
    apply filter_In in Hy. destruct Hy as [Hy Hon].
    apply on_ref_key in Hon. rewrite (reference_rows_key base w k y Hw Hy) in Hon.
    contradiction.
Qed.

(** physics_sector_metrics pairs every base row with the reference row of
    its own partition. *)
Lemma physics_sector_metrics_flat (base : list SectorPhysicsBase.row) (w : Ranking) :
  admissible base w ->
  physics_sector_metrics w base = flat_map (metric_rows w) base.
Proof.
  intros Hw. unfold physics_sector_metrics, join.
  rewrite sector_physics_ref_flat.
  set (ks := nodup RefKey_dec (map ref_key base)).
  assert (Hks : forall x, In x base -> In (ref_key x) ks).
  { intros x Hx. apply nodup_In. now apply in_map. }
  assert (Hnd : NoDup ks) by apply NoDup_nodup.
  clearbody ks.
  assert (H : forall l, (forall x, In x l -> In (ref_key x) ks) ->
            map metric_row
              (flat_map (fun a => map (fun y => (a, y))
                                      (filter (on_ref a) (flat_map (reference_rows w) ks))) l)
            = flat_map (metric_rows w) l).
  { induction l as [|x l IH]; intros Hl; [reflexivity|].
    simpl. rewrite map_app, IH by (intros y Hy; apply Hl; simpl; auto).
    f_equal. rewrite (filter_on_ref base w x ks Hw Hnd) by (apply Hl; simpl; auto).
    unfold reference_rows, metric_rows. now destruct (w (ref_key x)). }
  now apply H.
Qed.

(* ================================================================== *)
(** * Facts about the Insights Assembler *)
(* ================================================================== *)

Lemma round_half_even_proper (x y : Q) :
  x == y -> round_half_even x = round_half_even y.
Proof.
  intros H. unfold round_half_even.
  assert (Ef : Qfloor x = Qfloor y) by (now rewrite H).
  rewrite Ef.
  assert (Ec : Qcompare (x - inject_Z (Qfloor y)) (1 # 2)
               = Qcompare (y - inject_Z (Qfloor y)) (1 # 2)).
  { apply Qcompare_comp; [|reflexivity]. rewrite H. reflexivity. }
  now rewrite Ec.
Qed.

Lemma py_round_proper (x y : Q) (n : nat) : x == y -> py_round x n = py_round y n.
Proof.
  intros H. unfold py_round. f_equal. f_equal.
  apply round_half_even_proper. now rewrite H.
Qed.

Lemma round_half_even_bounds (x : Q) :
  (Qfloor x <= round_half_even x <= Qfloor x + 1)%Z.
Proof.
  unfold round_half_even.
  destruct (Qcompare (x - inject_Z (Qfloor x)) (1 # 2)); [destruct (Z.even (Qfloor x))| |]; lia.
Qed.

Lemma round_half_even_mono (x y : Q) :
  x <= y -> (round_half_even x <= round_half_even y)%Z.
Proof.
  intros H. pose proof (Qfloor_resp_le _ _ H) as Hf.
  destruct (Z.eq_dec (Qfloor x) (Qfloor y)) as [E|N].
  - unfold round_half_even. rewrite E.
    destruct (Qcompare_spec (x - inject_Z (Qfloor y)) (1 # 2)) as [Hx|Hx|Hx];
      destruct (Qcompare_spec (y - inject_Z (Qfloor y)) (1 # 2)) as [Hy|Hy|Hy];
      try destruct (Z.even (Qfloor y)); try lia; exfalso; lra.
  - pose proof (round_half_even_bounds x). pose proof (round_half_even_bounds y). lia.
Qed.

Lemma py_round_mono (x y : Q) (n : nat) : x <= y -> py_round x n <= py_round y n.
Proof.
  intros H. unfold py_round.
  assert (Hp : 0 < inject_Z (10 ^ Z.of_nat n)).
  { rewrite <- (Zlt_Qlt 0). apply Z.pow_pos_nonneg; lia. }
  apply Qmult_le_compat_r.
  - rewrite <- Zle_Qle. apply round_half_even_mono.
    apply Qmult_le_compat_r; [exact H|]. now apply Qlt_le_weak.
  - apply Qinv_le_0_compat. now apply Qlt_le_weak.
Qed.

Lemma loss_ge_round3 (a b : option Q) :
  loss_ge a b = true -> loss_ge (round3 a) (round3 b) = true.
Proof.
  destruct a as [x|], b as [y|]; simpl; auto.
  rewrite !Qle_bool_iff. apply py_round_mono.
Qed.

Lemma loss_ge_total (a b : option Q) : loss_ge a b = false -> loss_ge b a = true.
Proof.
  destruct a as [x|], b as [y|]; simpl; try discriminate; auto.
  intros H. apply Qle_bool_iff.
  destruct (Qlt_le_dec x y) as [Hlt|Hle].
  - now apply Qlt_le_weak.
  - apply Qle_bool_iff in Hle. congruence.
Qed.

Lemma loss_ge_trans (a b c : option Q) :
  loss_ge a b = true -> loss_ge b c = true -> loss_ge a c = true.
Proof.
  destruct a as [x|], b as [y|], c as [z|]; simpl; try discriminate; auto.
  rewrite !Qle_bool_iff. intros H1 H2. eapply Qle_trans; eauto.
Qed.

Lemma in_insert_desc (o x : DriverOpportunity.row) (l : list DriverOpportunity.row) :
  In x (insert_desc o l) <-> x = o \/ In x l.
Proof.
  induction l as [|h t IH]; simpl.
  - split; intros [H|H]; auto.
  - destruct (loss_ge (DriverOpportunity.avg_loss_s o) (DriverOpportunity.avg_loss_s h));
      simpl; [split; intros [H|H]; auto|].
    rewrite IH. split; intros [H|[H|H]]; auto.
Qed.

Lemma insert_desc_sorted (o : DriverOpportunity.row) (l : list DriverOpportunity.row) :
  StronglySorted by_loss l -> StronglySorted by_loss (insert_desc o l).
Proof.
  induction l as [|h t IH]; intros Hs; simpl.
  - repeat constructor.
  - apply StronglySorted_inv in Hs. destruct Hs as [Ht Hh].
    destruct (loss_ge (DriverOpportunity.avg_loss_s o) (DriverOpportunity.avg_loss_s h)) eqn:E.
    + constructor; [constructor; assumption|].
      constructor; [exact E|].
      rewrite Forall_forall in *. intros x Hx.
      unfold by_loss, loss_order in *. eapply loss_ge_trans; [exact E|]. now apply Hh.
    + constructor; [now apply IH|].
      rewrite Forall_forall in *. intros x Hx. apply in_insert_desc in Hx.
      destruct Hx as [->|Hx]; [|now apply Hh].
      unfold by_loss, loss_order. now apply loss_ge_total.
Qed.

Lemma sort_values_desc_sorted (l : list DriverOpportunity.row) :
  StronglySorted by_loss (sort_values_desc l).
Proof.
  induction l as [|o l IH]; simpl; [constructor|]. now apply insert_desc_sorted.
Qed.

Lemma in_sort_values_desc (l : list DriverOpportunity.row) (x : DriverOpportunity.row) :
  In x (sort_values_desc l) <-> In x l.
Proof.
  induction l as [|o l IH]; simpl; [tauto|].
  rewrite in_insert_desc, IH. split; intros [H|H]; auto.
Qed.

Lemma in_firstn {A : Type} (n : nat) (l : list A) (x : A) :
  In x (firstn n l) -> In x l.
Proof.
  revert l. induction n as [|n IH]; intros l H; simpl in H; [contradiction|].
  destruct l as [|y l]; [contradiction|].
  destruct H as [H|H]; simpl; auto.
Qed.

Lemma firstn_sorted {A : Type} (R : A -> A -> Prop) (n : nat) (l : list A) :
  StronglySorted R l -> StronglySorted R (firstn n l).
Proof.
  revert l. induction n as [|n IH]; intros l Hs; simpl; [constructor|].
  destruct l as [|x l]; [constructor|].
  apply StronglySorted_inv in Hs. destruct Hs as [Hl Hx].
  constructor; [now apply IH|].
  rewrite Forall_forall in *. intros y Hy. apply Hx. eapply in_firstn. exact Hy.
Qed.

Lemma map_sorted {A B : Type} (R : A -> A -> Prop) (R' : B -> B -> Prop) (f : A -> B)
  (l : list A) :
  (forall a b, R a b -> R' (f a) (f b)) ->
  StronglySorted R l -> StronglySorted R' (map f l).
Proof.
  intros Hf Hs. induction Hs as [|x l Hl IH Hx]; simpl; constructor; auto.
  rewrite Forall_forall in *. intros y Hy. apply in_map_iff in Hy.
  destruct Hy as (a & <- & Ha). auto.
Qed.

Lemma in_unique (l : list string) (x : string) : In x (unique l) <-> In x l.
Proof.
  induction l as [|y l IH]; simpl; [tauto|].
  split.
  - intros [H|H]; auto. apply in_remove in H. right. now apply IH.
  - intros [H|H]; auto.
    destruct (string_dec x y) as [E|N]; [auto|].
    right. apply in_in_remove; [exact N|]. now apply IH.
Qed.

Lemma in_summary_group (db : Database) (D : string) (l : LapDelta.row) (d : Driver.row) :
  In (l, d) (summary_group db D) <->
  In l (lap_deltas db) /\ In d (drivers db) /\
  LapDelta.driver_id l = D /\ Driver.driver_id d = D.
Proof.
  unfold summary_group. rewrite in_group_rows, in_join. simpl.
  unfold on_lap_delta_driver. rewrite str_eqb_eq. split.
  - intros ((Hl & Hd & E) & E'). subst. auto.
  - intros (Hl & Hd & E & E'). subst. auto.
Qed.

Lemma in_driver_summary_df (db : Database) (s : DriverSummary.row) :
  In s (driver_summary_df db) ->
  s = summary_row (DriverSummary.driver_id s) (summary_group db (DriverSummary.driver_id s)) /\
  exists ld, In ld (summary_group db (DriverSummary.driver_id s)).
Proof.
  unfold driver_summary_df. intros H. apply in_map_iff in H.
  destruct H as ([D g] & <- & Hg). simpl.
  pose proof (group_by_nonempty _ _ _ _ _ Hg) as Hne.
  apply in_group_by in Hg. destruct Hg as [-> _]. auto.
Qed.

Lemma in_generate_insights (sqrt : Q -> Q) (db : Database)
  (doc : list (string * DriverInsight.row)) (D : string) (data : DriverInsight.row) :
  generate_insights sqrt db = Some doc -> In (D, data) doc ->
  exists s, In s (driver_summary_df db) /\ DriverSummary.driver_id s = D /\
            data = driver_data s D (driver_ops (driver_opportunities sqrt db) D).
Proof.
  unfold generate_insights. cbv zeta. intros H Hin.
  assert (Edoc : doc = insights_map (driver_opportunities sqrt db) db).
  { destruct (driver_opportunities sqrt db); [discriminate|]. congruence. }
  subst doc. clear H. unfold insights_map in Hin.
  apply in_flat_map in Hin. destruct Hin as (D' & _ & Hin).
  destruct (filter (fun s => str_eqb (DriverSummary.driver_id s) D') (driver_summary_df db))
    as [|s t] eqn:Ef; [contradiction|].
  destruct Hin as [E|[]]. inversion E; subst; clear E.
  assert (Hs : In s (filter (fun s => str_eqb (DriverSummary.driver_id s) D)
                            (driver_summary_df db))) by (rewrite Ef; simpl; auto).
  apply filter_In in Hs. destruct Hs as [Hs Ed]. apply str_eqb_eq in Ed.
  exists s. auto.
Qed.

(** Every row of a summary group carries the ideal lap time of the
    driver's row of bests. *)
Lemma summary_group_ideal (db : Database) (D : string) (l0 : LapDelta.row) (d0 : Driver.row) :
  In (l0, d0) (summary_group db D) ->
  exists i, In i (ideal_lap_driver db) /\ DriverBestMainSector.driver_id i = D /\
    forall l d, In (l, d) (summary_group db D) ->
      LapDelta.ideal_lap_time_s l = ideal_of i /\
      LapDelta.delta_lap_s l = sql_sub (Some (LapDelta.lap_time_s l)) (ideal_of i).
Proof.
  assert (Hrow : forall l d, In (l, d) (summary_group db D) ->
            exists i, In i (ideal_lap_driver db) /\ DriverBestMainSector.driver_id i = D /\
              LapDelta.ideal_lap_time_s l = ideal_of i /\
              LapDelta.delta_lap_s l = sql_sub (Some (LapDelta.lap_time_s l)) (ideal_of i)).
  { intros l d H. apply in_summary_group in H. destruct H as (Hl & _ & El & _).
    destruct (in_lap_deltas db l Hl)
      as (L & r & _ & Hr & _ & ELr & _ & EdL & _ & EtL & Eideal & Edelta).
    destruct (in_ideal_lap db r Hr)
      as (L' & i & _ & Hi & _ & EL'i & ErL' & _ & _ & E1 & E2 & E3 & Er & _).
    exists i. split; [exact Hi|]. split; [congruence|].
    assert (Ei : IdealLap.ideal_lap_time_s r = ideal_of i).
    { rewrite Er, E1, E2, E3. reflexivity. }
    split; [congruence|]. rewrite Edelta, EtL, Ei. reflexivity. }
  intros H0. destruct (Hrow l0 d0 H0) as (i & Hi & Ei & _).
  exists i. split; [exact Hi|]. split; [exact Ei|].
  intros l d H. destruct (Hrow l d H) as (i' & Hi' & Ei' & E1 & E2).
  assert (i' = i) by (apply (ideal_lap_driver_unique db); auto; congruence).
  subst i'. auto.
Qed.

(** The lap times of a non-empty summary group are the times of the
    driver's valid laps. *)
Lemma summary_group_times (db : Database) (D : string) (l0 : LapDelta.row) (d0 : Driver.row)
  (t : Q) :
  In (l0, d0) (summary_group db D) ->
  In t (map (fun ld => LapDelta.lap_time_s (fst ld)) (summary_group db D)) <->
  In t (valid_lap_times db D).
Proof.
  intros H0. unfold valid_lap_times. rewrite !in_map_iff. split.
  - intros ([l d] & <- & H). simpl.
    apply in_summary_group in H. destruct H as (Hl & _ & El & _).
    destruct (in_lap_deltas db l Hl)
      as (L & r & HL & _ & Hv & _ & _ & EdL & _ & EtL & _).
    exists L. split; [congruence|]. apply filter_In. split; [exact HL|].
    rewrite Hv. simpl. apply str_eqb_eq. congruence.
  - intros (L & <- & HL). apply filter_In in HL. destruct HL as [HL Hc].
    apply andb_true_iff in Hc. destruct Hc as [Hv EL]. apply str_eqb_eq in EL.
    destruct (summary_group_ideal db D l0 d0 H0) as (i & Hi & Ei & _).
    apply in_summary_group in H0. destruct H0 as (_ & Hd0 & _ & Ed0).
    destruct (ideal_lap_of_lap db L i HL Hi Hv) as (r & Hr & Er & En & _); [congruence|].
    pose proof (lap_deltas_of_lap db L r HL Hr Hv (eq_sym Er) (eq_sym En)) as Hl.
    eexists (_, d0). split; [|apply in_summary_group; split; [exact Hl|]].
    + reflexivity.
    + simpl. auto.
Qed.

Lemma agg_min_const (l : list (option Q)) (X : option Q) :
  l <> [] -> (forall x, In x l -> x = X) -> agg_min l = X.
Proof.
  intros Hne Hall. destruct (agg_min l) as [m|] eqn:E.
  - apply agg_min_Some in E. destruct E as [Hin _]. apply in_somes in Hin.
    now apply Hall.
  - apply agg_min_None in E. destruct l as [|x l]; [congruence|].
    rewrite <- (Hall x) by (simpl; auto).
    destruct x as [q|]; [|reflexivity]. simpl in E. discriminate.
Qed.

Lemma is_min_ext (m : Q) (v w : list Q) :
  (forall x, In x v <-> In x w) -> is_min m v -> is_min m w.
Proof.
  intros H [Hin Hle]. split; [now apply H|]. intros x Hx. apply Hle. now apply H.
Qed.

Lemma is_min_shift (m md x : Q) (v : list Q) :
  is_min m v -> is_min md (map (fun t => t - x) v) -> md == m - x.
Proof.
  intros [Hin Hle] [Hind Hled].
  apply in_map_iff in Hind. destruct Hind as (t0 & <- & Ht0).
  assert (m - x <= t0 - x) by (specialize (Hle t0 Ht0); lra).
  assert (t0 - x <= m - x) by (apply Hled; apply in_map_iff; exists m; auto).
  lra.
Qed.

(* ================================================================== *)
(** * Properties of the Ideal-Lap Engine *)
(* ================================================================== *)

(** Spec, scenario 2: bests 34.0, 40.0 and 38.0 give an ideal lap of 112.0,
    and a valid lap of 115.2 s is 3.2 s off it. *)
Example scenario_2 :
  map (fun r => (IdealLap.lap_no r, IdealLap.ideal_lap_time_s r,
                 option_map Qred (IdealLap.delta_to_ideal_s r)))
      (ideal_lap db_session)
  = [(1%Z, Some 112, Some (16 # 5)); (3%Z, Some 112, Some 4)].
Proof. vm_compute. reflexivity. Qed.

(** C2.  Every row of ideal_lap carries, for each main sector, the minimum
    over the driver's laps of the per-lap sum of that sector's micro-sector
    times, each minimum taken on its own; its ideal_lap_time_s is the sum of
    the three, its delta_to_ideal_s is lap_time_s minus that sum, and all
    rows of one driver carry the same ideal_lap_time_s. *)
Theorem C2_composite_ideal (db : Database) (r : IdealLap.row) :
  In r (ideal_lap db) ->
  is_best db (IdealLap.driver_id r) S1 (IdealLap.best_S1 r) /\
  is_best db (IdealLap.driver_id r) S2 (IdealLap.best_S2 r) /\
  is_best db (IdealLap.driver_id r) S3 (IdealLap.best_S3 r) /\
  IdealLap.ideal_lap_time_s r =
    sql_add (sql_add (IdealLap.best_S1 r) (IdealLap.best_S2 r)) (IdealLap.best_S3 r) /\
  IdealLap.delta_to_ideal_s r =
    sql_sub (Some (IdealLap.lap_time_s r)) (IdealLap.ideal_lap_time_s r) /\
  (forall r', In r' (ideal_lap db) ->
              IdealLap.driver_id r' = IdealLap.driver_id r ->
              IdealLap.ideal_lap_time_s r' = IdealLap.ideal_lap_time_s r).
Proof.
  intros Hr.
  destruct (in_ideal_lap db r Hr)
    as (l & i & Hl & Hi & Hv & Eli & Ed & En & Et & E1 & E2 & E3 & Eideal & Edelta).
  assert (ED : IdealLap.driver_id r = DriverBestMainSector.driver_id i) by congruence.
  rewrite ED, E1, E2, E3.
  repeat split.
  - apply (best_of_is_best db i S1 Hi).
  - apply (best_of_is_best db i S2 Hi).
  - apply (best_of_is_best db i S3 Hi).
  - rewrite Eideal, E1, E2, E3. reflexivity.
  - exact Edelta.
  - intros r' Hr' Edrv.
    destruct (in_ideal_lap db r' Hr')
      as (l' & i' & _ & Hi' & _ & Eli' & Ed' & _ & _ & E1' & E2' & E3' & Eideal' & _).
    assert (i' = i).
    { apply (ideal_lap_driver_unique db); auto. congruence. }
    subst i'. rewrite Eideal, Eideal'. congruence.
Qed.

Lemma C2_composite_ideal_witness :
  In row_session_lap1 (ideal_lap db_session) /\
  is_best db_session "D_7" S1 (Some 34) /\
  is_best db_session "D_7" S2 (Some 40) /\
  is_best db_session "D_7" S3 (Some 38) /\
  IdealLap.ideal_lap_time_s row_session_lap1 = Some (34 + 40 + 38).
Proof.
  assert (H : In row_session_lap1 (ideal_lap db_session)).
  { vm_compute. left. reflexivity. }
  split; [exact H|].
  destruct (C2_composite_ideal db_session row_session_lap1 H)
    as (H1 & H2 & H3 & H4 & _).
  split; [exact H1|]. split; [exact H2|]. split; [exact H3|exact H4].
Defined.




(* ================================================================== *)
(** * Properties of the Delta Engine *)
(* ================================================================== *)

(** Spec, scenario 1: the micro-sector deltas of D_7 against the class
    bests are 1.0 s and 0.5 s, 1.5 s over the main sector S1. *)
Example scenario_1 :
  map (fun r => (SectorDelta.sector_id r, option_map Qred (SectorDelta.delta_class_s r)))
      (filter (fun r => str_eqb (SectorDelta.driver_id r) "D_7") (sector_deltas db_scenario_1))
  = [(S1a, Some 1); (S1b, Some (1 # 2))] /\
  option_map Qred
    (agg_sum (map SectorDelta.delta_class_s
                (filter (fun r => str_eqb (SectorDelta.driver_id r) "D_7")
                        (sector_deltas db_scenario_1))))
  = Some (3 # 2).
Proof. split; vm_compute; reflexivity. Qed.

(** Spec, boundary: a micro-sector record of exactly 1.0 s is dropped, one
    of 1.0001 s is kept. *)
Example boundary_one_second :
  over_one (MicroSectorRecord.mk "D_7" 7 1 S1a 1.0) = false /\
  over_one (MicroSectorRecord.mk "D_7" 7 1 S1a 1.0001) = true.
Proof. split; reflexivity. Qed.

(** C1, as the code has it.  Every row of ideal_lap and of lap_deltas stems
    from a lap whose is_valid flag is true, and its lap_time_s lies in the
    window of 60 to 240 seconds.  (sector_deltas, main_sector_deltas and
    driver_opportunities are built from the micro-sector records without a
    validity filter.) *)
Theorem C1_valid_laps_only (db : Database) :
  (forall r, In r (ideal_lap db) ->
     refers_to_valid_lap db (IdealLap.driver_id r) (IdealLap.lap_no r) /\
     60 <= IdealLap.lap_time_s r /\ IdealLap.lap_time_s r <= 240) /\
  (forall r, In r (lap_deltas db) ->
     refers_to_valid_lap db (LapDelta.driver_id r) (LapDelta.lap_no r) /\
     60 <= LapDelta.lap_time_s r /\ LapDelta.lap_time_s r <= 240).
Proof.
  split; intros r Hr.
  - destruct (in_ideal_lap db r Hr)
      as (l & i & Hl & _ & Hv & _ & Ed & En & Et & _).
    split.
    + exists l. repeat split; auto.
    + rewrite Et. apply between_iff. rewrite <- (in_laps db l Hl). exact Hv.
  - destruct (in_lap_deltas db r Hr)
      as (l & i & Hl & _ & Hv & _ & _ & Ed & En & Et & _).
    split.
    + exists l. repeat split; auto.
    + rewrite Et. apply between_iff. rewrite <- (in_laps db l Hl). exact Hv.
Qed.

Lemma C1_valid_laps_only_witness :
  refers_to_valid_lap db_session "D_7" 1 /\
  60 <= IdealLap.lap_time_s row_session_lap1 /\
  IdealLap.lap_time_s row_session_lap1 <= 240.
Proof.
  apply (proj1 (C1_valid_laps_only db_session) row_session_lap1).
  vm_compute. left. reflexivity.
Defined.

(** C1 fails on the sector tables: lap 2 of the session is invalid (300 s),
    yet sector_deltas and main_sector_deltas hold rows of it, and the
    driver's average losses change when its records are taken away. *)
Lemma C1_counterexample :
  ~ (forall r, In r (sector_deltas db_session) ->
       refers_to_valid_lap db_session (SectorDelta.driver_id r) (SectorDelta.lap_no r)) /\
  ~ (forall m, In m (main_sector_deltas db_session) ->
       refers_to_valid_lap db_session
         (MainSectorDelta.driver_id m) (MainSectorDelta.lap_no m)) /\
  ~ (forall sqrt,
       map DriverOpportunity.avg_loss_s (driver_opportunities sqrt db_session)
       = map DriverOpportunity.avg_loss_s (driver_opportunities sqrt db_session_valid_only)).
Proof.
  assert (Hlap2 : ~ refers_to_valid_lap db_session "D_7" 2).
  { intros (l & Hl & _ & En & Hv). vm_compute in Hl.
    destruct Hl as [<-|[<-|[<-|[]]]]; vm_compute in En, Hv; discriminate. }
  split; [|split].
  - intros H. apply Hlap2.
    assert (Hr : exists r, In r (sector_deltas db_session) /\
                           SectorDelta.driver_id r = "D_7"%string /\
                           SectorDelta.lap_no r = 2%Z).
    { vm_compute. eexists. split; [do 4 right; left; reflexivity|]. split; reflexivity. }
    destruct Hr as (r & Hr & Ed & En). rewrite <- Ed, <- En. now apply H.
  - intros H. apply Hlap2.
    assert (Hm : exists m, In m (main_sector_deltas db_session) /\
                           MainSectorDelta.driver_id m = "D_7"%string /\
                           MainSectorDelta.lap_no m = 2%Z).
    { vm_compute. eexists. split; [do 3 right; left; reflexivity|]. split; reflexivity. }
    destruct Hm as (m & Hm & Ed & En). rewrite <- Ed, <- En. now apply H.
  - intros H. specialize (H (fun x => x)). vm_compute in H. discriminate.
Qed.

(** C9.  Every row of main_sector_deltas has a delta, and it is not
    negative; so the average loss and the best gain of every row of
    driver_opportunities have a value that is not negative. *)
Theorem C9_nonnegative_losses (sqrt : Q -> Q) (db : Database) :
  (forall m, In m (main_sector_deltas db) ->
     exists q, MainSectorDelta.delta_main_s m = Some q /\ 0 <= q) /\
  (forall o, In o (driver_opportunities sqrt db) ->
     exists a b, DriverOpportunity.avg_loss_s o = Some a /\
                 DriverOpportunity.best_gain_s o = Some b /\
                 0 <= a /\ 0 <= b).
Proof.
  split; [apply main_delta_nonneg|].
  intros o Ho. unfold driver_opportunities in Ho.
  destruct (opportunity_row_spec sqrt (main_sector_deltas db) o Ho)
    as (Hne & Eavg & _ & b & Eb & Hb).
  set (v := deltas_below_20 (main_sector_deltas db)
              (DriverOpportunity.driver_id o, DriverOpportunity.main_sector o)) in *.
  assert (Hpos : forall x, In x v -> 0 <= x).
  { intros x Hx. apply in_deltas_below_20 in Hx.
    destruct Hx as (m & Hm & _ & E & _).
    destruct (main_delta_nonneg db m Hm) as (q & Eq & Hq). congruence. }
  exists (mean v), b. repeat split; auto.
  - now apply mean_nonneg.
  - apply Hpos. apply Hb.
Qed.

Lemma C9_nonnegative_losses_witness :
  exists q,
    MainSectorDelta.delta_main_s
      (MainSectorDelta.mk "D_7" 7 2 S3 (Some 40) (Some 38) (Some (40 - 38))) = Some q /\
    0 <= q.
Proof.
  apply (proj1 (C9_nonnegative_losses (fun x => x) db_session)).
  vm_compute. do 5 right. left. reflexivity.
Defined.

(** C5, as the code has it.  A row of driver_opportunities is computed over
    exactly the main-sector deltas of its (driver, main sector) that are
    strictly below 20 s: avg_loss_s is their mean, best_gain_s their
    minimum, and consistency_s the SAMPLE standard deviation (divisor
    n - 1), which has no value when a single delta is left.  A row whose
    delta is 20 s or more can be added or removed without changing the
    table. *)
Theorem C5_outlier_exclusion (sqrt : Q -> Q) (ms : list MainSectorDelta.row) :
  (forall o, In o (opportunities_of sqrt ms) ->
     let v := deltas_below_20 ms
                (DriverOpportunity.driver_id o, DriverOpportunity.main_sector o) in
     v <> [] /\
     DriverOpportunity.avg_loss_s o = Some (mean v) /\
     DriverOpportunity.consistency_s o
       = match v with
         | [] | [_] => None
         | _ => Some (sqrt (sample_variance v))
         end /\
     (exists b, DriverOpportunity.best_gain_s o = Some b /\ is_min b v)) /\
  (forall k x, In x (deltas_below_20 ms k) <->
     exists m, In m ms /\ opportunity_key m = k /\
               MainSectorDelta.delta_main_s m = Some x /\ x < 20) /\
  (forall pre x post q,
     ms = pre ++ x :: post ->
     MainSectorDelta.delta_main_s x = Some q -> 20 <= q ->
     opportunities_of sqrt (pre ++ post) = opportunities_of sqrt ms).
Proof.
  split; [|split].
  - intros o Ho. now apply opportunity_row_spec.
  - intros k x. apply in_deltas_below_20.
  - intros pre x post q -> Eq Hq. unfold opportunities_of.
    rewrite !filter_app. simpl.
    assert (Hx : below_outlier x = false).
    { unfold below_outlier. rewrite Eq. simpl. unfold Qlt_bool.
      apply negb_false_iff. now apply Qle_bool_iff. }
    now rewrite Hx.
Qed.

Lemma C5_outlier_exclusion_witness :
  opportunities_of (fun x => x)
    ([MainSectorDelta.mk "D_7" 7 1 S1 (Some 34) (Some 34) (Some 0)]
       ++ [MainSectorDelta.mk "D_7" 7 3 S1 (Some 36) (Some 34) (Some 2)])
  = opportunities_of (fun x => x) ms_pit.
Proof.
  apply (proj2 (proj2 (C5_outlier_exclusion (fun x => x) ms_pit))
           _ (MainSectorDelta.mk "D_7" 7 2 S1 (Some 59) (Some 34) (Some 25)) _ 25).
  - reflexivity.
  - reflexivity.
  - vm_compute. discriminate.
Defined.

Example ms_pit_row :
  map (fun o => (option_map Qred (DriverOpportunity.avg_loss_s o),
                 option_map Qred (DriverOpportunity.consistency_s o),
                 DriverOpportunity.best_gain_s o))
      (opportunities_of (fun variance => variance) ms_pit)
  = [(Some 1, Some 2, Some 0)].
Proof. vm_compute. reflexivity. Qed.

(** C5 fails as stated: with a single delta left, the population standard
    deviation would be the root of 0, while consistency_s has no value;
    and on the deltas 0 and 2 the variance under the root is 2, not the
    population variance 1. *)
Lemma C5_counterexample :
  ~ (forall (sqrt : Q -> Q) (ms : list MainSectorDelta.row) (o : DriverOpportunity.row),
       In o (opportunities_of sqrt ms) ->
       DriverOpportunity.consistency_s o
       = agg_stddev_pop sqrt
           (map Some (deltas_below_20 ms
              (DriverOpportunity.driver_id o, DriverOpportunity.main_sector o)))) /\
  option_map Qred (agg_var_samp [Some 0; Some 2]) = Some 2 /\
  option_map Qred (agg_var_pop [Some 0; Some 2]) = Some 1 /\
  ~ oQeq (agg_var_samp [Some 0; Some 2]) (agg_var_pop [Some 0; Some 2]).
Proof.
  split; [|split; [|split]].
  - intros H.
    set (ms := [MainSectorDelta.mk "D_7" 7 1 S1 (Some 35) (Some 34) (Some 1)]).
    assert (Ho : exists o, In o (opportunities_of (fun x => x) ms)).
    { vm_compute. eexists. left. reflexivity. }
    destruct Ho as (o & Ho). pose proof (H (fun x => x) ms o Ho) as E.
    vm_compute in Ho. destruct Ho as [<-|[]]. vm_compute in E. discriminate.
  - vm_compute. reflexivity.
  - vm_compute. reflexivity.
  - vm_compute. discriminate.
Qed.

(* ================================================================== *)
(** * Properties of the Hesitation Detector *)
(* ================================================================== *)

Lemma partition_scenario_3_order :
  window_order partition_scenario_3 key_scenario_3 partition_scenario_3.
Proof.
  split.
  - apply Permutation_refl.
  - unfold partition_scenario_3.
    repeat (constructor; [|repeat (constructor; [unfold Qle; simpl; lia|]); constructor]).
    constructor.
Qed.

(** C3, as the code has it.  In a partition in window order, a sample that
    has a sample before it is flagged exactly when its throttle_pct lies in
    [40, 70] and the sample before has a throttle_pct that lies outside it;
    the flag is 0 or 1.  A run of mid-throttle samples therefore counts
    once, and the trace 30, 55, 60, 35, 50 has flags 0, 1, 0, 0, 1 and a
    count of 2.  (A sample with no throttle value is neither in the band
    nor outside: [BETWEEN] is NULL on it, so it is not flagged, and neither
    is the sample after it.) *)
Theorem C3_hesitation_on_entry :
  (forall (t : list TelemetrySample.row) (k : PartitionKey)
          (p : list TelemetrySample.row),
     window_order t k p ->
     forall (i : nat) (a b : TelemetrySample.row),
       nth_error p i = Some a -> nth_error p (S i) = Some b ->
       exists f, nth_error (throttle_hesitation_flag p) (S i) = Some f /\
                 (f = 0%Z \/ f = 1%Z) /\
                 (f = 1%Z <-> in_band (TelemetrySample.throttle_pct b) /\
                              out_of_band (TelemetrySample.throttle_pct a))) /\
  hesitation_flags [Some 30; Some 55; Some 60; Some 35; Some 50]
    = [0; 1; 0; 0; 1]%Z /\
  throttle_hesitation_count partition_scenario_3 = 2%Z.
Proof.
  split; [|split; reflexivity].
  intros t k p _ i a b Ha Hb.
  unfold throttle_hesitation_flag. rewrite hesitation_flags_eq.
  rewrite (flags_from_succ (map TelemetrySample.throttle_pct p) i
             (TelemetrySample.throttle_pct a) (TelemetrySample.throttle_pct b)).
  - eexists. split; [reflexivity|]. split.
    + apply case_flag_bit.
    + apply case_flag_entry.
  - rewrite nth_error_map, Ha. reflexivity.
  - rewrite nth_error_map, Hb. reflexivity.
Qed.

Lemma C3_hesitation_on_entry_witness :
  exists f, nth_error (throttle_hesitation_flag partition_scenario_3) 1 = Some f /\
            (f = 0%Z \/ f = 1%Z) /\
            (f = 1%Z <-> in_band (Some 55) /\ out_of_band (Some 30)).
Proof.
  apply (proj1 C3_hesitation_on_entry partition_scenario_3 key_scenario_3
           partition_scenario_3 partition_scenario_3_order 0%nat
           (sample_S2a 0.34 30) (sample_S2a 0.36 55)); reflexivity.
Defined.

Lemma partition_null_then_mid_order :
  window_order partition_null_then_mid key_scenario_3 partition_null_then_mid.
Proof.
  split.
  - apply Permutation_refl.
  - unfold partition_null_then_mid.
    repeat (constructor; [|repeat (constructor; [unfold Qle; simpl; lia|]); constructor]).
    constructor.
Qed.

(** C3 fails as stated: the second sample of this partition lies in the
    band and the throttle_pct of the sample before it does not (it has no
    value), yet the second sample is not flagged and the partition counts
    no hesitation. *)
Lemma C3_counterexample :
  window_order partition_null_then_mid key_scenario_3 partition_null_then_mid /\
  in_band (TelemetrySample.throttle_pct (sample_S2a 0.36 50)) /\
  ~ in_band (TelemetrySample.throttle_pct (sample_S2a_no_throttle 0.34)) /\
  nth_error (throttle_hesitation_flag partition_null_then_mid) 1 = Some 0%Z /\
  throttle_hesitation_count partition_null_then_mid = 0%Z.
Proof.
  split; [apply partition_null_then_mid_order|]. split; [|split; [|split; reflexivity]].
  - exists 50. split; [reflexivity|]. split; unfold Qle; simpl; lia.
  - intros (v & E & _). discriminate.
Qed.

(** C4, as the code has it.  The window's [lag] reads FALSE before the
    first sample of a partition, so the first sample is flagged exactly
    when its own throttle_pct lies in [40, 70]. *)
Theorem C4_first_sample (t : list TelemetrySample.row) (k : PartitionKey)
  (a : TelemetrySample.row) (rest : list TelemetrySample.row) :
  window_order t k (a :: rest) ->
  exists f, nth_error (throttle_hesitation_flag (a :: rest)) 0 = Some f /\
            (f = 0%Z \/ f = 1%Z) /\
            (f = 1%Z <-> in_band (TelemetrySample.throttle_pct a)).
Proof.
  intros _. unfold throttle_hesitation_flag. rewrite hesitation_flags_eq. simpl.
  eexists. split; [reflexivity|]. split.
  - apply case_flag_bit.
  - apply case_flag_first.
Qed.

Lemma partition_opens_mid_order :
  window_order partition_opens_mid key_scenario_3 partition_opens_mid.
Proof.
  split.
  - apply Permutation_refl.
  - unfold partition_opens_mid.
    repeat (constructor; [|repeat (constructor; [unfold Qle; simpl; lia|]); constructor]).
    constructor.
Qed.

Lemma C4_first_sample_witness :
  exists f, nth_error (throttle_hesitation_flag partition_opens_mid) 0 = Some f /\
            (f = 0%Z \/ f = 1%Z) /\
            (f = 1%Z <-> in_band (Some 50)).
Proof.
  apply (C4_first_sample partition_opens_mid key_scenario_3
           (sample_S2a 0.34 50) [sample_S2a 0.36 55] partition_opens_mid_order).
Defined.

(** C4 fails as stated: the first sample of this partition is flagged, and
    the partition counts one hesitation. *)
Lemma C4_counterexample :
  window_order partition_opens_mid key_scenario_3 partition_opens_mid /\
  in_band (TelemetrySample.throttle_pct (sample_S2a 0.34 50)) /\
  nth_error (throttle_hesitation_flag partition_opens_mid) 0 = Some 1%Z /\
  throttle_hesitation_count partition_opens_mid = 1%Z.
Proof.
  split; [apply partition_opens_mid_order|]. split; [|split; reflexivity].
  exists 50. split; [reflexivity|]. split; unfold Qle; simpl; lia.
Qed.

(* ================================================================== *)
(** * Properties of the Physics-Reference Engine *)
(* ================================================================== *)

Lemma base_tie_group (k : RefKey) :
  group_rows RefKey_dec ref_key k base_tie = base_tie \/
  group_rows RefKey_dec ref_key k base_tie = [].
Proof.
  unfold group_rows, base_tie. simpl filter. unfold has_key.
  change (ref_key (base_instance "D_7" 7 60))
    with ("sebring_R1"%string, "GT"%string, S1a).
  change (ref_key (base_instance "D_9" 9 80))
    with ("sebring_R1"%string, "GT"%string, S1a).
  destruct (RefKey_dec ("sebring_R1"%string, "GT"%string, S1a) k); auto.
Qed.

Lemma w_listed_admissible : admissible base_tie w_listed.
Proof.
  intros k. split; [apply Permutation_refl|]. unfold w_listed.
  destruct (base_tie_group k) as [-> | ->]; [|constructor].
  unfold base_tie. repeat constructor. simpl. apply Qle_refl.
Qed.

Lemma w_reversed_admissible : admissible base_tie w_reversed.
Proof.
  intros k. split.
  - unfold w_reversed. apply Permutation_sym, Permutation_rev.
  - unfold w_reversed. destruct (base_tie_group k) as [-> | ->]; [|constructor].
    unfold base_tie. simpl. repeat constructor. simpl. apply Qle_refl.
Qed.

(** C7, as the code has it.  In every evaluation of the ranking window the
    reference row joined to an instance is a fastest instance of its
    (race, class, micro-sector) group; two evaluations give every instance
    the same reference time and the same delta_class_s; and they give the
    same table whenever no group has two different fastest instances.
    (With a tie for the fastest time the query fixes no choice.) *)
Theorem C7_reference_selection (base : list SectorPhysicsBase.row) (w1 w2 : Ranking) :
  admissible base w1 -> admissible base w2 ->
  (forall m, In m (physics_sector_metrics w1 base) ->
     exists x, is_fastest base x /\
               ref_key x = ref_key (PhysicsSectorMetric.b m) /\
               PhysicsSectorMetric.r m = ref_row x) /\
  Forall2 (fun m1 m2 =>
             PhysicsSectorMetric.b m1 = PhysicsSectorMetric.b m2 /\
             SectorPhysicsRef.ref_sector_time_s (PhysicsSectorMetric.r m1)
               == SectorPhysicsRef.ref_sector_time_s (PhysicsSectorMetric.r m2) /\
             PhysicsSectorMetric.delta_class_s m1 == PhysicsSectorMetric.delta_class_s m2)
          (physics_sector_metrics w1 base) (physics_sector_metrics w2 base) /\
  (unique_fastest base ->
   physics_sector_metrics w1 base = physics_sector_metrics w2 base).
Proof.
  intros H1 H2.
  rewrite (physics_sector_metrics_flat base w1 H1), (physics_sector_metrics_flat base w2 H2).
  (* the heads of both orders of the partition of a base row *)
  assert (Hheads : forall x, In x base ->
            exists y1 t1 y2 t2,
              w1 (ref_key x) = y1 :: t1 /\ w2 (ref_key x) = y2 :: t2 /\
              is_fastest base y1 /\ is_fastest base y2 /\
              ref_key y1 = ref_key x /\ ref_key y2 = ref_key x).
  { intros x Hx.
    pose proof (ranked_nonempty base (ref_key x) (w1 (ref_key x)) x (H1 _) Hx eq_refl) as N1.
    pose proof (ranked_nonempty base (ref_key x) (w2 (ref_key x)) x (H2 _) Hx eq_refl) as N2.
    pose proof (H1 (ref_key x)) as R1. pose proof (H2 (ref_key x)) as R2.
    destruct (w1 (ref_key x)) as [|y1 t1]; [congruence|].
    destruct (w2 (ref_key x)) as [|y2 t2]; [congruence|].
    apply ranked_head in R1. apply ranked_head in R2.
    exists y1, t1, y2, t2. tauto. }
  split; [|split].
  - intros m Hm. apply in_flat_map in Hm. destruct Hm as (x & Hx & Hm).
    destruct (Hheads x Hx) as (y1 & t1 & _ & _ & E1 & _ & F1 & _ & K1 & _).
    unfold metric_rows in Hm. rewrite E1 in Hm. destruct Hm as [<-|[]].
    exists y1. simpl. auto.
  - assert (H : forall l, (forall x, In x l -> In x base) ->
              Forall2 (fun m1 m2 =>
                 PhysicsSectorMetric.b m1 = PhysicsSectorMetric.b m2 /\
                 SectorPhysicsRef.ref_sector_time_s (PhysicsSectorMetric.r m1)
                   == SectorPhysicsRef.ref_sector_time_s (PhysicsSectorMetric.r m2) /\
                 PhysicsSectorMetric.delta_class_s m1
                   == PhysicsSectorMetric.delta_class_s m2)
                (flat_map (metric_rows w1) l) (flat_map (metric_rows w2) l)).
    { induction l as [|x l IH]; intros Hl; [constructor|].
      simpl. apply Forall2_app; [|apply IH; intros; apply Hl; simpl; auto].
      destruct (Hheads x (Hl x (or_introl eq_refl)))
        as (y1 & t1 & y2 & t2 & E1 & E2 & [I1 F1] & [I2 F2] & K1 & K2).
      unfold metric_rows. rewrite E1, E2. constructor; [|constructor]. simpl.
      assert (Et : SectorPhysicsBase.sector_time_s y1 == SectorPhysicsBase.sector_time_s y2).
      { apply Qle_antisym; [apply F1|apply F2]; auto; congruence. }
      split; [reflexivity|]. split; [exact Et|]. rewrite Et. reflexivity. }
    apply H. auto.
  - intros Huniq.
    assert (H : forall l, (forall x, In x l -> In x base) ->
              flat_map (metric_rows w1) l = flat_map (metric_rows w2) l).
    { induction l as [|x l IH]; intros Hl; [reflexivity|].
      simpl. rewrite IH by (intros; apply Hl; simpl; auto). f_equal.
      destruct (Hheads x (Hl x (or_introl eq_refl)))
        as (y1 & t1 & y2 & t2 & E1 & E2 & F1 & F2 & K1 & K2).
      unfold metric_rows. rewrite E1, E2.
      rewrite (Huniq y1 y2 F1 F2) by congruence. reflexivity. }
    apply H. auto.
Qed.

Lemma C7_reference_selection_witness :
  Forall2 (fun m1 m2 =>
             PhysicsSectorMetric.b m1 = PhysicsSectorMetric.b m2 /\
             SectorPhysicsRef.ref_sector_time_s (PhysicsSectorMetric.r m1)
               == SectorPhysicsRef.ref_sector_time_s (PhysicsSectorMetric.r m2) /\
             PhysicsSectorMetric.delta_class_s m1 == PhysicsSectorMetric.delta_class_s m2)
          (physics_sector_metrics w_listed base_tie)
          (physics_sector_metrics w_reversed base_tie).
Proof.
  apply (C7_reference_selection base_tie w_listed w_reversed
           w_listed_admissible w_reversed_admissible).
Defined.

(** C7 fails as stated: on the tie of scenario 4 both orders are orders by
    ascending sector_time_s, they pick different reference rows, and the
    brake-pressure differences of the table differ. *)
Lemma C7_counterexample :
  admissible base_tie w_listed /\
  admissible base_tie w_reversed /\
  map SectorPhysicsRef.ref_brake_max_bar (sector_physics_ref w_listed base_tie) = [Some 60] /\
  map SectorPhysicsRef.ref_brake_max_bar (sector_physics_ref w_reversed base_tie) = [Some 80] /\
  physics_sector_metrics w_listed base_tie <> physics_sector_metrics w_reversed base_tie.
Proof.
  split; [apply w_listed_admissible|]. split; [apply w_reversed_admissible|].
  split; [vm_compute; reflexivity|]. split; [vm_compute; reflexivity|].
  vm_compute. discriminate.
Qed.

(* ================================================================== *)
(** * Properties of the Time Normalizer *)
(* ================================================================== *)


(** Text without a colon is handed to [float]; a failure gives no value. *)
Lemma parse_time_plain_text (py_int : string -> Outcome Z) (py_float : string -> Outcome Q)
  (v : string) :
  contains ":" (strip v) = false ->
  parse_time py_int py_float (PyStr v)
  = match py_float (strip v) with
    | Returns x => Returns (Some x)
    | Raises => Returns None
    end.
Proof.
  intros H. simpl. rewrite H. destruct (py_float (strip v)); reflexivity.
Qed.

(** C6, the clock text with an hour.  For "1:02:03.5" the minutes are read
    from the middle field and the seconds from the last; the hour field is
    not read at all, so the result is 123.5 s and not 3723.5 s.  The same
    time of day as a [datetime.time] gives 3723.5 s. *)
Theorem C6_hour_field_dropped (py_int : string -> Outcome Z)
  (py_float : string -> Outcome Q) :
  py_int "02"%string = Returns 2%Z ->
  py_float "03.5"%string = Returns 3.5 ->
  (exists q, parse_time py_int py_float (PyStr "1:02:03.5") = Returns (Some q) /\
             q == 123.5 /\ ~ q == 3723.5) /\
  (exists q, parse_time py_int py_float (PyTime 1 2 3 500000) = Returns (Some q) /\
             q == 3723.5).
Proof.
  intros Hi Hf. split.
  - exists (inject_Z 2 * 60 + 3.5). split.
    + cbv. rewrite Hi. cbv. rewrite Hf. reflexivity.
    + split; [reflexivity|]. intros E. vm_compute in E. discriminate.
  - eexists. split; [reflexivity|]. reflexivity.
Qed.

Lemma C6_hour_field_dropped_witness :
  (exists q, parse_time plain_int plain_float (PyStr "1:02:03.5") = Returns (Some q) /\
             q == 123.5 /\ ~ q == 3723.5) /\
  (exists q, parse_time plain_int plain_float (PyTime 1 2 3 500000) = Returns (Some q) /\
             q == 3723.5).
Proof.
  apply (C6_hour_field_dropped plain_int plain_float); reflexivity.
Defined.

(* ================================================================== *)
(** * Properties of the Insights Assembler *)
(* ================================================================== *)

(** C8, as the code has it.  For a driver of the document, with [best] the
    least time of the driver's valid laps and [ideal] the driver's ideal lap
    time: best_lap_s is [best] rounded to three decimals, ideal_lap_s is
    [ideal] rounded, and total_time_opportunity_s is [best - ideal] rounded
    (the difference is taken before rounding).  The opportunities list has
    at most 3 entries, in descending order of average loss, each made from
    a row of driver_opportunities of that driver. *)
Theorem C8_insight_document (sqrt : Q -> Q) (db : Database)
  (doc : list (string * DriverInsight.row)) (D : string) (data : DriverInsight.row) :
  generate_insights sqrt db = Some doc -> In (D, data) doc ->
  (exists best i,
     is_min best (valid_lap_times db D) /\
     In i (ideal_lap_driver db) /\ DriverBestMainSector.driver_id i = D /\
     DriverInsight.best_lap_s data = round3 (Some best) /\
     DriverInsight.ideal_lap_s data = round3 (ideal_of i) /\
     DriverInsight.total_time_opportunity_s data
       = round3 (sql_sub (Some best) (ideal_of i))) /\
  (List.length (DriverInsight.opportunities data) <= 3)%nat /\
  StronglySorted
    (fun e1 e2 => loss_order (Opportunity.time_loss_avg e1) (Opportunity.time_loss_avg e2))
    (DriverInsight.opportunities data) /\
  (forall e, In e (DriverInsight.opportunities data) ->
     exists o, In o (driver_opportunities sqrt db) /\
               DriverOpportunity.driver_id o = D /\ e = insight o).
Proof.
  intros Hdoc Hin.
  destruct (in_generate_insights sqrt db doc D data Hdoc Hin) as (s & Hs & Ed & ->).
  destruct (in_driver_summary_df db s Hs) as (Es & [l0 d0] & H0).
  rewrite Ed in *. set (G := summary_group db D) in *.
  split; [|split; [|split]].
  - destruct (summary_group_ideal db D l0 d0 H0) as (i & Hi & Ei & Hrows).
    assert (Hne : G <> []) by (intros E; rewrite E in H0; contradiction).
    (* the best lap *)
    assert (Hbest : exists best,
              agg_min (map (fun ld => Some (LapDelta.lap_time_s (fst ld))) G) = Some best /\
              is_min best (map (fun ld => LapDelta.lap_time_s (fst ld)) G)).
    { destruct (agg_min (map (fun ld => Some (LapDelta.lap_time_s (fst ld))) G))
        as [m|] eqn:E.
      - exists m. split; [reflexivity|]. apply agg_min_Some in E.
        now rewrite somes_map_Some in E.
      - apply agg_min_None in E. rewrite somes_map_Some in E.
        destruct G; [congruence|discriminate]. }
    destruct Hbest as (best & Ebest & Hbest).
    exists best, i. split; [|split; [exact Hi|split; [exact Ei|]]].
    { apply (is_min_ext best _ _ (fun t => summary_group_times db D l0 d0 t H0)).
      exact Hbest. }
    rewrite Es. unfold driver_data, summary_row. simpl.
    fold G. rewrite Ebest. split; [reflexivity|].
    (* the ideal lap *)
    assert (Eideal : agg_min (map (fun ld => LapDelta.ideal_lap_time_s (fst ld)) G)
                     = ideal_of i).
    { apply agg_min_const.
      - destruct G; [congruence|discriminate].
      - intros x Hx. apply in_map_iff in Hx. destruct Hx as ([l d] & <- & Hld).
        apply (Hrows l d Hld). }
    rewrite Eideal. split; [reflexivity|].
    (* the best delta *)
    destruct (ideal_of i) as [x|] eqn:EX.
    + assert (Emap : map (fun ld : LapDelta.row * Driver.row => LapDelta.delta_lap_s (fst ld)) G
                     = map (fun ld => Some (LapDelta.lap_time_s (fst ld) - x)) G).
      { apply map_ext_in. intros [l d] Hld. simpl.
        destruct (Hrows l d Hld) as [_ E]. rewrite E. reflexivity. }
      rewrite Emap.
      destruct (agg_min (map (fun ld : LapDelta.row * Driver.row =>
                                Some (LapDelta.lap_time_s (fst ld) - x)) G))
        as [md|] eqn:E.
      * apply agg_min_Some in E.
        rewrite (somes_map_Some (fun ld : LapDelta.row * Driver.row =>
                                   LapDelta.lap_time_s (fst ld) - x)) in E.
        rewrite <- (map_map (fun ld : LapDelta.row * Driver.row => LapDelta.lap_time_s (fst ld))
                            (fun t => t - x)) in E.
        simpl. f_equal. apply py_round_proper.
        apply (is_min_shift best md x _ Hbest E).
      * apply agg_min_None in E.
        rewrite (somes_map_Some (fun ld : LapDelta.row * Driver.row =>
                                   LapDelta.lap_time_s (fst ld) - x)) in E.
        destruct G; [congruence|discriminate].
    + rewrite (agg_min_const (map (fun ld : LapDelta.row * Driver.row =>
                                     LapDelta.delta_lap_s (fst ld)) G) None).
      * reflexivity.
      * destruct G; [congruence|discriminate].
      * intros y Hy. apply in_map_iff in Hy. destruct Hy as ([l d] & <- & Hld).
        simpl. destruct (Hrows l d Hld) as [_ E]. rewrite E. reflexivity.
  - unfold driver_data. simpl. rewrite length_map. unfold driver_ops.
    apply firstn_le_length.
  - unfold driver_data. simpl. unfold driver_ops.
    apply (map_sorted by_loss).
    + intros a b Hab. unfold insight. simpl. now apply loss_ge_round3.
    + apply firstn_sorted. apply sort_values_desc_sorted.
  - intros e He. unfold driver_data in He. simpl in He. apply in_map_iff in He.
    destruct He as (o & <- & Ho). unfold driver_ops in Ho.
    apply in_firstn in Ho. apply (proj1 (in_sort_values_desc _ _)) in Ho.
    apply filter_In in Ho. destruct Ho as [Ho Eo]. apply str_eqb_eq in Eo.
    exists o. auto.
Qed.

Lemma C8_insight_document_witness :
  exists doc data,
    generate_insights (fun x => x) db_session = Some doc /\
    In ("D_7"%string, data) doc /\
    (exists best i,
       is_min best (valid_lap_times db_session "D_7") /\
       In i (ideal_lap_driver db_session) /\
       DriverBestMainSector.driver_id i = "D_7"%string /\
       DriverInsight.best_lap_s data = round3 (Some best) /\
       DriverInsight.ideal_lap_s data = round3 (ideal_of i) /\
       DriverInsight.total_time_opportunity_s data
         = round3 (sql_sub (Some best) (ideal_of i))) /\
    (List.length (DriverInsight.opportunities data) <= 3)%nat.
Proof.
  destruct (generate_insights (fun x => x) db_session) as [doc|] eqn:E;
    [|vm_compute in E; discriminate].
  destruct doc as [|[D data] rest]; [vm_compute in E; discriminate|].
  assert (ED : D = "D_7"%string).
  { pose proof E as E'. vm_compute in E'. congruence. }
  subst D. exists (("D_7"%string, data) :: rest), data.
  split; [reflexivity|]. split; [left; reflexivity|].
  destruct (C8_insight_document (fun x => x) db_session
              (("D_7"%string, data) :: rest) "D_7"%string data E (or_introl eq_refl))
    as (H1 & H2 & _).
  split; assumption.
Defined.

Example db_round_document :
  option_map
    (map (fun kv => (fst kv,
                     option_map Qred (DriverInsight.best_lap_s (snd kv)),
                     option_map Qred (DriverInsight.ideal_lap_s (snd kv)),
                     option_map Qred (DriverInsight.total_time_opportunity_s (snd kv)))))
    (generate_insights (fun x => x) db_round)
  = Some [("D_5"%string, Some 100, Some (99001 # 1000), Some 1)].
Proof. vm_compute. reflexivity. Qed.

(** C8 fails as stated on the fields of the document: each is rounded on
    its own, so here total_time_opportunity_s is 1.000 while
    best_lap_s - ideal_lap_s is 100.000 - 99.001 = 0.999. *)
Lemma C8_counterexample :
  ~ (forall (sqrt : Q -> Q) (db : Database) (doc : list (string * DriverInsight.row))
            (D : string) (data : DriverInsight.row),
       generate_insights sqrt db = Some doc -> In (D, data) doc ->
       oQeq (DriverInsight.total_time_opportunity_s data)
            (sql_sub (DriverInsight.best_lap_s data) (DriverInsight.ideal_lap_s data))).
Proof.
  intros H. pose proof (H (fun x => x) db_round) as H'.
  destruct (generate_insights (fun x => x) db_round) as [doc|] eqn:E;
    vm_compute in E; [|discriminate].
  injection E as <-.
  specialize (H' _ _ _ eq_refl (or_introl eq_refl)).
  vm_compute in H'. discriminate.
Qed.
(* ================================================================== *)
(** * Further properties: lap progress and micro-sector bins *)
(* ================================================================== *)

Lemma range_test (lo hi p : Q) :
  Qle_bool lo p && Qlt_bool p hi = true <-> lo <= p /\ p < hi.
Proof. rewrite andb_true_iff, Qle_bool_iff, Qlt_bool_iff. tauto. Qed.

Ltac split_ranges :=
  repeat match goal with
         | |- context [Qle_bool ?a ?p && Qlt_bool ?p ?b] =>
             let E := fresh "E" in
             destruct (Qle_bool a p && Qlt_bool p b) eqn:E;
             [apply range_test in E|]
         end.

Lemma sector_case_bins (p : Q) (s : SectorId) :
  sector_case p = Some s <->
  exists lo hi, In (s, lo, hi) SECTOR_BOUNDS /\ lo <= p /\ p < hi.
Proof.
  unfold sector_case, SECTOR_BOUNDS. split.
  - simpl. split_ranges; intros H; try discriminate; inversion H; subst;
      do 2 eexists; (split; [|eassumption]); simpl; auto 10.
  - intros (lo & hi & Hin & H1 & H2). simpl in Hin.
    assert (Hr : Qle_bool lo p && Qlt_bool p hi = true) by (apply range_test; auto).
    repeat (destruct Hin as [E|Hin]; [inversion E; subst; clear E|]); try contradiction;
      simpl; split_ranges; try reflexivity; try (exfalso; lra); congruence.
Qed.

(** The bins of SECTOR_BOUNDS are disjoint: a progress value is given the
    micro-sector [s] exactly when it lies in the range listed for [s]
    (lower bound included, upper bound excluded). *)
Theorem sector_case_range (p : Q) (s : SectorId) :
  sector_case p = Some s <->
  exists lo hi, In (s, lo, hi) SECTOR_BOUNDS /\ lo <= p /\ p < hi.
Proof.
  apply sector_case_bins.
Qed.

Lemma sector_case_covers (p : Q) : 0 <= p -> p < 1.01 -> sector_case p <> None.
Proof.
  intros H0 H1. unfold sector_case, SECTOR_BOUNDS. simpl.
  split_ranges; try discriminate.
  repeat match goal with
         | E : (Qle_bool ?a p && Qlt_bool p ?b) = false |- _ =>
             apply andb_false_iff in E;
             rewrite <- not_true_iff_false, <- not_true_iff_false in E;
             rewrite Qle_bool_iff, Qlt_bool_iff in E
         end.
  exfalso. lra.
Qed.

(** Every progress value from 0 up to (but not including) 1.01 has a
    micro-sector, and no other value has one. *)
Theorem sector_case_defined (p : Q) :
  sector_case p <> None <-> 0 <= p /\ p < 1.01.
Proof.
  split.
  - intros H. destruct (sector_case p) as [s|] eqn:E; [|congruence].
    apply sector_case_bins in E. destruct E as (lo & hi & Hin & H1 & H2).
    simpl in Hin.
    repeat (destruct Hin as [E|Hin]; [inversion E; subst; clear E; lra|]).
    contradiction.
  - intros [H0 H1]. now apply sector_case_covers.
Qed.

(** Every row of telemetry_with_sector has a progress between 0 and 1 and
    carries the micro-sector of that progress, which is never missing: the
    later filter [sector_id IS NOT NULL] removes nothing. *)
Theorem telemetry_with_sector_sound (t : list TelemetryEnriched.row)
  (r : TelemetrySample.row) :
  In r (telemetry_with_sector t) ->
  0 <= TelemetrySample.lap_progress r /\
  TelemetrySample.lap_progress r <= 1 /\
  TelemetrySample.sector_id r = sector_case (TelemetrySample.lap_progress r) /\
  TelemetrySample.sector_id r <> None.
Proof.
  unfold telemetry_with_sector. intros H. apply in_flat_map in H.
  destruct H as (e & _ & H).
  destruct (TelemetryEnriched.lap_progress e) as [p|]; [|contradiction].
  destruct (Qle_bool 0 p && Qle_bool p 1) eqn:E; [|contradiction].
  destruct H as [<-|[]]. simpl.
  apply andb_true_iff in E. destruct E as [E0 E1].
  apply Qle_bool_iff in E0. apply Qle_bool_iff in E1.
  repeat split; auto. apply sector_case_covers; lra.
Qed.

Lemma telemetry_with_sector_sound_witness :
  0 <= 1 /\ 1 <= 1 /\ Some S3b = sector_case 1 /\ Some S3b <> None.
Proof.
  apply (telemetry_with_sector_sound telemetry_three
           (TelemetrySample.mk "sebring_R1" "R1" "D_7" (Some 7%Z) 3 (Some S3b) 1 (Some 99))).
  vm_compute. left. reflexivity.
Defined.

Lemma clip_bounds (x : Q) : 0 <= clip x 0 1 /\ clip x 0 1 <= 1.
Proof.
  unfold clip. split.
  - apply Q.min_glb; [apply Q.le_max_r|lra].
  - apply Q.le_min_r.
Qed.

(** The progress computed by the telemetry pipeline: none exactly when the
    lap has no positive duration; otherwise a value between 0 and 1 that
    always has a micro-sector, S1a for a sample stamped at or before the
    start of the lap and S3b for one stamped at or after its end. *)
Theorem lap_progress_of_range (timestamp start_ts end_ts : Q) :
  match lap_progress_of timestamp start_ts end_ts with
  | None => end_ts <= start_ts
  | Some p =>
      start_ts < end_ts /\ 0 <= p /\ p <= 1 /\
      sector_case p <> None /\
      (timestamp <= start_ts -> sector_case p = Some S1a) /\
      (end_ts <= timestamp -> sector_case p = Some S3b)
  end.
Proof.
  unfold lap_progress_of. cbv zeta.
  destruct (Qlt_bool 0 (end_ts - start_ts)) eqn:E.
  - apply Qlt_bool_iff in E.
    pose proof (clip_bounds ((timestamp - start_ts) / (end_ts - start_ts))) as [H0 H1].
    split; [lra|]. split; [exact H0|]. split; [exact H1|].
    split; [apply sector_case_covers; lra|]. split.
    + intros Hts. apply sector_case_bins. exists 0.000, 0.170.
      split; [simpl; auto|]. split; [lra|].
      assert (Hq : (timestamp - start_ts) / (end_ts - start_ts) <= 0).
      { apply Qle_shift_div_r; [exact E|]. lra. }
      unfold clip.
      eapply Qle_lt_trans; [apply Q.le_min_l|].
      destruct (Q.max_spec ((timestamp - start_ts) / (end_ts - start_ts)) 0)
        as [[_ E']|[_ E']]; rewrite E'; lra.
    + intros Hts. apply sector_case_bins. exists 0.830, 1.010.
      split; [simpl; auto 10|]. split; [|lra].
      assert (Hq : 1 <= (timestamp - start_ts) / (end_ts - start_ts)).
      { apply Qle_shift_div_l; [exact E|]. lra. }
      unfold clip. apply Qle_trans with 1; [lra|].
      apply Q.min_glb; [|lra].
      eapply Qle_trans; [exact Hq|]. apply Q.le_max_l.
  - destruct (Qlt_le_dec start_ts end_ts) as [Hlt|Hle]; [|exact Hle].
    assert (Hpos : 0 < end_ts - start_ts) by lra.
    apply Qlt_bool_iff in Hpos. congruence.
Qed.

(* ================================================================== *)
(** * Further properties: hesitation counts *)
(* ================================================================== *)

Lemma case_flag_one (m d : option bool) :
  case_1_else_0 (sql_and m (sql_not d)) = 1%Z -> m = Some true /\ d = Some false.
Proof.
  destruct m as [[|]|], d as [[|]|]; simpl; intros H; try discriminate; auto.
Qed.

Lemma flags_from_count (l : list (option Q)) (d : option bool) :
  let c := fold_right Z.add 0%Z (flags_from d l) in
  (0 <= c)%Z /\
  (2 * c <= Z.of_nat (List.length l)
            + match d with Some true => 0 | _ => 1 end)%Z /\
  (c <= Z.of_nat (List.length (filter is_mid l)))%Z.
Proof.
  revert d. induction l as [|x l IH]; intros d; cbv zeta.
  - simpl. destruct d as [[|]|]; lia.
  - cbn [flags_from fold_right List.length filter].
    specialize (IH (mid_throttle x)). cbv zeta in IH. destruct IH as (I0 & I1 & I2).
    set (c' := fold_right Z.add 0%Z (flags_from (mid_throttle x) l)) in *.
    destruct (case_flag_bit (sql_and (mid_throttle x) (sql_not d))) as [E|E]; rewrite E.
    + split; [lia|]. split.
      * destruct (mid_throttle x) as [[|]|], d as [[|]|]; lia.
      * destruct (is_mid x); cbn [List.length]; lia.
    + apply case_flag_one in E. destruct E as [Em Ed].
      assert (Hx : is_mid x = true) by (unfold is_mid; now rewrite Em).
      rewrite Hx, Em in *. subst d. cbn [List.length]. lia.
Qed.

Lemma flags_from_not_adjacent (l : list (option Q)) (d : option bool) (i : nat) :
  nth_error (flags_from d l) i = Some 1%Z ->
  nth_error (flags_from d l) (S i) <> Some 1%Z.
Proof.
  revert l d. induction i as [|i IH]; intros l d H.
  - destruct l as [|x [|y l]]; cbn [flags_from nth_error] in *; try discriminate.
    injection H as E. apply case_flag_one in E. destruct E as [-> _].
    destruct (mid_throttle y) as [[|]|]; simpl; discriminate.
  - destruct l as [|x l]; cbn [flags_from nth_error] in *; [discriminate|]. now apply IH.
Qed.

Lemma hesitation_count_nonneg (p : list TelemetrySample.row) :
  (0 <= throttle_hesitation_count p)%Z.
Proof.
  unfold throttle_hesitation_count, throttle_hesitation_flag.
  rewrite hesitation_flags_eq.
  apply (flags_from_count (map TelemetrySample.throttle_pct p) (Some false)).
Qed.

(** The hesitation count of a partition of [n] samples is at least 0, at
    most the number of its mid-throttle samples, and at most (n + 1) / 2;
    two neighbouring samples are never both flagged. *)
Theorem hesitation_count_bounds (p : list TelemetrySample.row) :
  (0 <= throttle_hesitation_count p)%Z /\
  (throttle_hesitation_count p
   <= Z.of_nat (List.length
                  (filter (fun r => is_mid (TelemetrySample.throttle_pct r)) p)))%Z /\
  (2 * throttle_hesitation_count p <= Z.of_nat (List.length p) + 1)%Z /\
  (forall i, nth_error (throttle_hesitation_flag p) i = Some 1%Z ->
             nth_error (throttle_hesitation_flag p) (S i) <> Some 1%Z).
Proof.
  unfold throttle_hesitation_count, throttle_hesitation_flag.
  rewrite hesitation_flags_eq.
  pose proof (flags_from_count (map TelemetrySample.throttle_pct p) (Some false)) as H.
  cbv zeta in H. destruct H as (H0 & H1 & H2).
  rewrite length_map in H1.
  assert (Ef : List.length (filter is_mid (map TelemetrySample.throttle_pct p))
               = List.length (filter (fun r => is_mid (TelemetrySample.throttle_pct r)) p)).
  { clear. induction p as [|r p IH]; simpl; [reflexivity|].
    destruct (is_mid (TelemetrySample.throttle_pct r)); simpl; now rewrite IH. }
  rewrite Ef in H2.
  repeat split; auto. intros i. apply flags_from_not_adjacent.
Qed.

(* ================================================================== *)
(** * Further properties: aggregates *)
(* ================================================================== *)

Lemma Qmax_cases (x y : Q) : Qmax x y = x \/ Qmax x y = y.
Proof.
  unfold Qmax, GenericMinMax.gmax. destruct (x ?= y); auto.
Qed.

Lemma fold_Qmax_ge_init (t : list Q) (x : Q) : x <= fold_left Qmax t x.
Proof.
  revert x. induction t as [|y t IH]; intros x; simpl.
  - apply Qle_refl.
  - eapply Qle_trans; [|apply IH]. apply Q.le_max_l.
Qed.

Lemma fold_Qmax_ge_all (t : list Q) (x y : Q) : In y t -> y <= fold_left Qmax t x.
Proof.
  revert x. induction t as [|z t IH]; intros x H; simpl in *.
  - contradiction.
  - destruct H as [->|H].
    + eapply Qle_trans; [|apply fold_Qmax_ge_init]. apply Q.le_max_r.
    + now apply IH.
Qed.

Lemma fold_Qmax_in (t : list Q) (x : Q) : In (fold_left Qmax t x) (x :: t).
Proof.
  revert x. induction t as [|y t IH]; intros x; simpl.
  - auto.
  - destruct (IH (Qmax x y)) as [H|H].
    + rewrite <- H. destruct (Qmax_cases x y) as [E|E]; rewrite E; auto.
    + auto.
Qed.

Lemma agg_max_Some (l : list (option Q)) (m : Q) :
  agg_max l = Some m -> In m (somes l) /\ forall x, In x (somes l) -> x <= m.
Proof.
  unfold agg_max. destruct (somes l) as [|x t]; [discriminate|].
  intros E. inversion E; subst. split.
  - apply fold_Qmax_in.
  - intros y [<-|Hy].
    + apply fold_Qmax_ge_init.
    + now apply fold_Qmax_ge_all.
Qed.

Lemma agg_max_None (l : list (option Q)) : agg_max l = None <-> somes l = [].
Proof.
  unfold agg_max. destruct (somes l); split; congruence.
Qed.

Lemma Qsum_ge (v : list Q) (lo : Q) :
  (forall x, In x v -> lo <= x) -> inject_Z (Z.of_nat (List.length v)) * lo <= Qsum v.
Proof.
  induction v as [|x v IH]; intros H.
  - change (0 * lo <= 0). lra.
  - assert (lo <= x) by (apply H; simpl; auto).
    assert (inject_Z (Z.of_nat (List.length v)) * lo <= Qsum v)
      by (apply IH; intros; apply H; simpl; auto).
    cbn [List.length Qsum fold_right]. fold (Qsum v).
    rewrite Nat2Z.inj_succ. unfold Z.succ. rewrite inject_Z_plus.
    change (inject_Z 1) with 1. rewrite Qmult_plus_distr_l. lra.
Qed.

Lemma Qsum_le (v : list Q) (hi : Q) :
  (forall x, In x v -> x <= hi) -> Qsum v <= inject_Z (Z.of_nat (List.length v)) * hi.
Proof.
  induction v as [|x v IH]; intros H.
  - change (0 <= 0 * hi). lra.
  - assert (x <= hi) by (apply H; simpl; auto).
    assert (Qsum v <= inject_Z (Z.of_nat (List.length v)) * hi)
      by (apply IH; intros; apply H; simpl; auto).
    cbn [List.length Qsum fold_right]. fold (Qsum v).
    rewrite Nat2Z.inj_succ. unfold Z.succ. rewrite inject_Z_plus.
    change (inject_Z 1) with 1. rewrite Qmult_plus_distr_l. lra.
Qed.

Lemma length_pos {A : Type} (v : list A) :
  v <> [] -> 0 < inject_Z (Z.of_nat (List.length v)).
Proof.
  intros H. destruct v; [congruence|]. rewrite <- (Zlt_Qlt 0). simpl. lia.
Qed.

Lemma mean_ge (v : list Q) (lo : Q) :
  v <> [] -> (forall x, In x v -> lo <= x) -> lo <= mean v.
Proof.
  intros Hne H. unfold mean. apply Qle_shift_div_l; [now apply length_pos|].
  rewrite Qmult_comm. now apply Qsum_ge.
Qed.

Lemma mean_le (v : list Q) (hi : Q) :
  v <> [] -> (forall x, In x v -> x <= hi) -> mean v <= hi.
Proof.
  intros Hne H. unfold mean. apply Qle_shift_div_r; [now apply length_pos|].
  rewrite Qmult_comm. now apply Qsum_le.
Qed.

(* ================================================================== *)
(** * Further properties: telemetry_features *)
(* ================================================================== *)

Lemma in_telemetry_features_inv (sqrt : Q -> Q) (t : list TelemetryRowLevel.row)
  (f : TelemetryFeature.row) :
  in_telemetry_features sqrt t f ->
  exists p,
    p <> [] /\
    (forall r, In r p <-> In r t /\ row_partition_key r = feature_key f) /\
    TelemetryFeature.brake_start_progress f = agg_min (map braking_progress p) /\
    TelemetryFeature.brake_max_bar f = agg_max (map TelemetryRowLevel.brake_f_bar p) /\
    TelemetryFeature.throttle_full_ratio f
      = agg_avg (map (fun r => Some (full_throttle r)) p) /\
    TelemetryFeature.throttle_hesitation_count f
      = agg_sum_Z (throttle_hesitation_flag (map TelemetryRowLevel.sample p)).
Proof.
  intros (k & p & Hk & [Hperm _] & Hf).
  destruct k as [[[[[race session] driver] car] lap] [sector|]]; simpl in Hf; [|discriminate].
  injection Hf as <-. exists p. unfold feature_key. simpl.
  assert (Hin : forall r, In r p <-> In r t /\
                row_partition_key r = (race, session, driver, car, lap, Some sector)).
  { intros r.
    rewrite <- (in_group_rows PartitionKey_dec row_partition_key
                  (race, session, driver, car, lap, Some sector) t r).
    split; apply Permutation_in; [exact Hperm|now apply Permutation_sym]. }
  split; [|split; [exact Hin|repeat split]].
  apply in_map_iff in Hk. destruct Hk as (r0 & Ek & Hr0).
  intros E. assert (H : In r0 p) by (apply Hin; auto). rewrite E in H. contradiction.
Qed.

(** What a row of telemetry_features guarantees, whatever the samples:
    throttle_full_ratio is a fraction between 0 and 1, the hesitation
    count is present and not negative, and brake_start_progress is missing
    exactly when the brake pressure never exceeded 5 bar in the group (so
    it is present exactly when brake_max_bar exceeds 5). *)
Theorem telemetry_feature_invariants (sqrt : Q -> Q) (t : list TelemetryRowLevel.row)
  (f : TelemetryFeature.row) :
  in_telemetry_features sqrt t f ->
  (exists x, TelemetryFeature.throttle_full_ratio f = Some x /\ 0 <= x /\ x <= 1) /\
  (exists n, TelemetryFeature.throttle_hesitation_count f = Some n /\ (0 <= n)%Z) /\
  (TelemetryFeature.brake_start_progress f = None <->
   forall m, TelemetryFeature.brake_max_bar f = Some m -> m <= 5) /\
  (TelemetryFeature.brake_start_progress f <> None <->
   exists m, TelemetryFeature.brake_max_bar f = Some m /\ 5 < m).
Proof.
  intros Hf. destruct (in_telemetry_features_inv sqrt t f Hf)
    as (p & Hne & _ & Ebs & Ebm & Etf & Ehc).
  rewrite Ebs, Ebm, Etf, Ehc. clear Ebs Ebm Etf Ehc.
  (* the braking samples, seen from both columns *)
  assert (Hnone : agg_min (map braking_progress p) = None <->
                  forall r, In r p -> sql_gt (TelemetryRowLevel.brake_f_bar r) 5 = false).
  { rewrite agg_min_None. split.
    - intros E r Hr. destruct (sql_gt (TelemetryRowLevel.brake_f_bar r) 5) eqn:Eg; auto.
      assert (Hin : In (TelemetrySample.lap_progress (TelemetryRowLevel.sample r))
                       (somes (map braking_progress p))).
      { apply in_somes. apply in_map_iff. exists r. split; [|exact Hr].
        unfold braking_progress. now rewrite Eg. }
      rewrite E in Hin. contradiction.
    - intros H. destruct (somes (map braking_progress p)) as [|b rest] eqn:E; auto.
      assert (Hin : In b (somes (map braking_progress p))) by (rewrite E; simpl; auto).
      apply in_somes in Hin. apply in_map_iff in Hin. destruct Hin as (r & Eb & Hr).
      unfold braking_progress in Eb. rewrite (H r Hr) in Eb. discriminate. }
  assert (Hmax : (forall r, In r p -> sql_gt (TelemetryRowLevel.brake_f_bar r) 5 = false) <->
                 forall m, agg_max (map TelemetryRowLevel.brake_f_bar p) = Some m -> m <= 5).
  { split.
    - intros H m Em. apply agg_max_Some in Em. destruct Em as [Hin _].
      apply in_somes in Hin. apply in_map_iff in Hin. destruct Hin as (r & Er & Hr).
      specialize (H r Hr). rewrite Er in H. simpl in H.
      destruct (Qlt_le_dec 5 m) as [Hlt|Hle]; [|exact Hle].
      apply Qlt_bool_iff in Hlt. congruence.
    - intros H r Hr. destruct (TelemetryRowLevel.brake_f_bar r) as [v|] eqn:Ev; [|reflexivity].
      simpl. destruct (Qlt_bool 5 v) eqn:Eg; [|reflexivity]. apply Qlt_bool_iff in Eg.
      destruct (agg_max (map TelemetryRowLevel.brake_f_bar p)) as [m|] eqn:Em.
      + pose proof (H m eq_refl) as Hm. apply agg_max_Some in Em. destruct Em as [_ Hall].
        assert (v <= m).
        { apply Hall. apply in_somes. rewrite <- Ev. now apply in_map. }
        exfalso. lra.
      + apply agg_max_None in Em.
        assert (Hin : In v (somes (map TelemetryRowLevel.brake_f_bar p))).
        { apply in_somes. rewrite <- Ev. now apply in_map. }
        rewrite Em in Hin. contradiction. }
  split; [|split; [|split]].
  - unfold agg_avg. rewrite somes_map_Some.
    destruct (map full_throttle p) as [|x v] eqn:E.
    { destruct p; [congruence|discriminate]. }
    eexists. split; [reflexivity|]. rewrite <- E.
    assert (Hv : map full_throttle p <> []) by (rewrite E; discriminate).
    assert (Hb : forall y, In y (map full_throttle p) -> 0 <= y /\ y <= 1).
    { intros y Hy. apply in_map_iff in Hy. destruct Hy as (r & <- & _).
      unfold full_throttle.
      destruct (sql_gt (TelemetrySample.throttle_pct (TelemetryRowLevel.sample r)) 95); lra. }
    split.
    + apply (mean_ge _ 0 Hv). intros y Hy. now apply Hb.
    + apply (mean_le _ 1 Hv). intros y Hy. now apply Hb.
  - unfold agg_sum_Z.
    destruct (throttle_hesitation_flag (map TelemetryRowLevel.sample p)) as [|z l] eqn:E.
    { exfalso. apply (f_equal (@List.length Z)) in E.
      unfold throttle_hesitation_flag in E. rewrite hesitation_flags_eq in E.
      assert (Hlen : forall d l, List.length (flags_from d l) = List.length l).
      { intros d l. revert d. induction l; intros d; simpl; auto. }
      rewrite Hlen, !length_map in E. destruct p; [congruence|discriminate]. }
    eexists. split; [reflexivity|]. rewrite <- E.
    apply (hesitation_count_nonneg (map TelemetryRowLevel.sample p)).
  - rewrite Hnone. exact Hmax.
  - split.
    + intros Hsome.
      destruct (agg_max (map TelemetryRowLevel.brake_f_bar p)) as [m|] eqn:Em.
      * exists m. split; [reflexivity|].
        destruct (Qlt_le_dec 5 m) as [Hlt|Hle]; [exact Hlt|].
        exfalso. apply Hsome. apply Hnone. apply Hmax.
        intros m' E'. inversion E'; subst. exact Hle.
      * exfalso. apply Hsome. apply Hnone. apply Hmax. intros m' E'. discriminate.
    + intros (m & Em & Hm) Hn.
      pose proof (proj1 Hmax (proj1 Hnone Hn) m Em). lra.
Qed.

Lemma rows_S2a_feature : in_telemetry_features (fun x => x) rows_S2a feature_S2a.
Proof.
  exists key_scenario_3, rows_S2a. split; [simpl; auto|]. split; [|reflexivity].
  split; [apply Permutation_refl|].
  unfold rows_S2a.
  repeat (constructor; [|repeat (constructor; [unfold Qle; simpl; lia|]); constructor]).
  constructor.
Qed.

Lemma telemetry_feature_invariants_witness :
  (exists x, TelemetryFeature.throttle_full_ratio feature_S2a = Some x /\ 0 <= x /\ x <= 1) /\
  (exists n, TelemetryFeature.throttle_hesitation_count feature_S2a = Some n /\ (0 <= n)%Z) /\
  (TelemetryFeature.brake_start_progress feature_S2a = None <->
   forall m, TelemetryFeature.brake_max_bar feature_S2a = Some m -> m <= 5) /\
  (TelemetryFeature.brake_start_progress feature_S2a <> None <->
   exists m, TelemetryFeature.brake_max_bar feature_S2a = Some m /\ 5 < m).
Proof.
  apply (telemetry_feature_invariants (fun x => x) rows_S2a feature_S2a rows_S2a_feature).
Defined.

(** On a table built by telemetry_with_sector, brake_start_progress is the
    progress of a sample of the group whose brake pressure exceeds 5 bar,
    no later than any other such sample, and it lies inside the range of
    the row's own micro-sector. *)
Theorem brake_start_in_sector (sqrt : Q -> Q) (t : list TelemetryRowLevel.row)
  (f : TelemetryFeature.row) (b : Q) :
  sectors_attached t ->
  in_telemetry_features sqrt t f ->
  TelemetryFeature.brake_start_progress f = Some b ->
  (exists r, In r t /\ row_partition_key r = feature_key f /\
             sql_gt (TelemetryRowLevel.brake_f_bar r) 5 = true /\
             TelemetrySample.lap_progress (TelemetryRowLevel.sample r) = b) /\
  (forall r, In r t -> row_partition_key r = feature_key f ->
             sql_gt (TelemetryRowLevel.brake_f_bar r) 5 = true ->
             b <= TelemetrySample.lap_progress (TelemetryRowLevel.sample r)) /\
  (exists lo hi, In (TelemetryFeature.sector_id f, lo, hi) SECTOR_BOUNDS /\
                 lo <= b /\ b < hi).
Proof.
  intros Hatt Hf Eb.
  destruct (in_telemetry_features_inv sqrt t f Hf) as (p & _ & Hin & Ebs & _).
  rewrite Ebs in Eb. apply agg_min_Some in Eb. destruct Eb as [Hb Hle].
  apply in_somes in Hb. apply in_map_iff in Hb. destruct Hb as (r & Er & Hr).
  unfold braking_progress in Er.
  destruct (sql_gt (TelemetryRowLevel.brake_f_bar r) 5) eqn:Eg; [|discriminate].
  injection Er as Er. apply Hin in Hr. destruct Hr as [Hrt Hrk].
  split; [|split].
  - exists r. auto.
  - intros r' Hr' Hk' Eg'. apply Hle. apply in_somes. apply in_map_iff.
    exists r'. split; [|apply Hin; auto]. unfold braking_progress. now rewrite Eg'.
  - apply sector_case_bins. rewrite <- Er, <- (Hatt r Hrt).
    unfold row_partition_key, partition_key, feature_key in Hrk. congruence.
Qed.

Lemma brake_start_in_sector_witness :
  exists lo hi, In (S2a, lo, hi) SECTOR_BOUNDS /\ lo <= 0.36 /\ 0.36 < hi.
Proof.
  apply (brake_start_in_sector (fun x => x) rows_S2a feature_S2a 0.36).
  - intros r [<-|[<-|[<-|[]]]]; reflexivity.
  - apply rows_S2a_feature.
  - reflexivity.
Defined.

(* ================================================================== *)
(** * Further properties: the physics reference *)
(* ================================================================== *)

Lemma ranking_head (base : list SectorPhysicsBase.row) (w : Ranking)
  (x : SectorPhysicsBase.row) :
  admissible base w -> In x base ->
  exists y t, w (ref_key x) = y :: t /\ is_fastest base y /\ ref_key y = ref_key x.
Proof.
  intros Hw Hx.
  pose proof (ranked_nonempty base (ref_key x) (w (ref_key x)) x (Hw _) Hx eq_refl) as N.
  pose proof (Hw (ref_key x)) as R.
  destruct (w (ref_key x)) as [|y t]; [congruence|].
  apply ranked_head in R. exists y, t. tauto.
Qed.

Lemma reference_keys (base : list SectorPhysicsBase.row) (w : Ranking) (ks : list RefKey) :
  admissible base w -> (forall k, In k ks -> In k (map ref_key base)) ->
  map ref_row_key (flat_map (reference_rows w) ks) = ks.
Proof.
  intros Hw. induction ks as [|k ks IH]; intros Hks; [reflexivity|].
  simpl. rewrite map_app, IH by (intros; apply Hks; simpl; auto). 
  assert (Hk : In k (map ref_key base)) by (apply Hks; simpl; auto).
  apply in_map_iff in Hk. destruct Hk as (x & <- & Hx).
  destruct (ranking_head base w x Hw Hx) as (y & t & E & _ & Ky).
  unfold reference_rows. rewrite E. simpl. unfold ref_row_key. simpl.
  unfold ref_key in Ky. now rewrite Ky.
Qed.

(** Under any evaluation of the ranking window, physics_sector_metrics has
    exactly one row per row of sector_physics_base (the join neither drops
    nor repeats a row), sector_physics_ref has exactly one row per
    (race, class, micro-sector) group, delta_class_s is never negative,
    and every group has a row whose delta_class_s is 0. *)
Theorem physics_metrics_cover (base : list SectorPhysicsBase.row) (w : Ranking) :
  admissible base w ->
  map PhysicsSectorMetric.b (physics_sector_metrics w base) = base /\
  map ref_row_key (sector_physics_ref w base) = nodup RefKey_dec (map ref_key base) /\
  NoDup (map ref_row_key (sector_physics_ref w base)) /\
  (forall m, In m (physics_sector_metrics w base) ->
     0 <= PhysicsSectorMetric.delta_class_s m) /\
  (forall m, In m (physics_sector_metrics w base) ->
     exists m0, In m0 (physics_sector_metrics w base) /\
                ref_key (PhysicsSectorMetric.b m0) = ref_key (PhysicsSectorMetric.b m) /\
                PhysicsSectorMetric.delta_class_s m0 == 0).
Proof.
  intros Hw.
  assert (Ekeys : map ref_row_key (sector_physics_ref w base)
                  = nodup RefKey_dec (map ref_key base)).
  { rewrite sector_physics_ref_flat. apply (reference_keys base w); auto.
    intros k Hk. now apply nodup_In in Hk. }
  rewrite (physics_sector_metrics_flat base w Hw).
  assert (Hrow : forall x, In x base ->
            exists y t, w (ref_key x) = y :: t /\ is_fastest base y /\
                        ref_key y = ref_key x /\
                        metric_rows w x = [metric_row (x, ref_row y)]).
  { intros x Hx. destruct (ranking_head base w x Hw Hx) as (y & t & E & F & K).
    exists y, t. repeat split; auto; try apply F. unfold metric_rows. now rewrite E. }
  split; [|split; [exact Ekeys|split; [rewrite Ekeys; apply NoDup_nodup|split]]].
  - assert (H : forall l, (forall x, In x l -> In x base) ->
              map PhysicsSectorMetric.b (flat_map (metric_rows w) l) = l).
    { induction l as [|x l IH]; intros Hl; [reflexivity|].
      simpl. rewrite map_app, IH by (intros; apply Hl; simpl; auto).
      destruct (Hrow x (Hl x (or_introl eq_refl))) as (y & t & _ & _ & _ & ->).
      reflexivity. }
    apply H. auto.
  - intros m Hm. apply in_flat_map in Hm. destruct Hm as (x & Hx & Hm).
    destruct (Hrow x Hx) as (y & t & _ & [_ F] & K & E). rewrite E in Hm.
    destruct Hm as [<-|[]]. simpl.
    specialize (F x Hx (eq_sym K)). lra.
  - intros m Hm. apply in_flat_map in Hm. destruct Hm as (x & Hx & Hm).
    destruct (Hrow x Hx) as (y & t & Ew & [Hy F] & K & E). rewrite E in Hm.
    destruct Hm as [<-|[]].
    exists (metric_row (y, ref_row y)). split; [|split].
    + apply in_flat_map. exists y. split; [exact Hy|].
      unfold metric_rows. rewrite K, Ew. simpl. auto.
    + simpl. exact K.
    + simpl. lra.
Qed.

Lemma physics_metrics_cover_witness :
  map PhysicsSectorMetric.b (physics_sector_metrics w_listed base_tie) = base_tie.
Proof.
  apply (physics_metrics_cover base_tie w_listed w_listed_admissible).
Defined.

(* ================================================================== *)
(** * Further properties: the delta engine *)
(* ================================================================== *)

Lemma group_by_keys {A K : Type} (K_dec : forall x y : K, {x = y} + {x <> y})
  (key : A -> K) (l : list A) :
  map fst (group_by K_dec key l) = nodup K_dec (map key l).
Proof.
  unfold group_by. rewrite map_map. simpl. apply map_id.
Qed.

Lemma filter_at_most_one {B K : Type} (key : B -> K) (k : K) (f : B -> bool) (l : list B) :
  NoDup (map key l) -> (forall b, In b l -> f b = true -> key b = k) ->
  (List.length (filter f l) <= 1)%nat.
Proof.
  induction l as [|a l IH]; intros Hnd Hk; simpl; [lia|].
  inversion Hnd as [|? ? Hnot Hnd']; subst.
  assert (IH' := IH Hnd' (fun b Hb => Hk b (or_intror Hb))).
  destruct (f a) eqn:Ea; [|exact IH'].
  assert (E : filter f l = []).
  { destruct (filter f l) as [|b t] eqn:E; [reflexivity|]. exfalso.
    assert (Hb : In b (filter f l)) by (rewrite E; simpl; auto).
    apply filter_In in Hb. destruct Hb as [Hb Hfb].
    apply Hnot. rewrite (Hk a (or_introl eq_refl) Ea).
    rewrite <- (Hk b (or_intror Hb) Hfb). now apply in_map. }
  rewrite E. simpl. lia.
Qed.

Lemma join_at_most_one {A B K : Type} (on : A -> B -> bool) (key : B -> K) (kof : A -> K)
  (la : list A) (lb : list B) :
  (List.length la <= 1)%nat -> NoDup (map key lb) ->
  (forall a b, on a b = true -> key b = kof a) ->
  (List.length (join on la lb) <= 1)%nat.
Proof.
  intros Hla Hnd Hon. destruct la as [|a [|a' la]]; simpl in *; try lia.
  rewrite app_nil_r, length_map.
  apply (filter_at_most_one key (kof a)); auto.
Qed.

(** With one row per driver_id in drivers, a micro-sector record reaches
    sector_deltas at most once. *)
Lemma sector_delta_rows_once (db : Database) (s : MicroSectorRecord.row) :
  NoDup (map Driver.driver_id (drivers db)) ->
  (List.length (sector_delta_rows db s) <= 1)%nat.
Proof.
  intros Hnd. unfold sector_delta_rows. rewrite length_map.
  eapply Nat.le_trans; [apply filter_length_le|].
  apply (join_at_most_one on_driver_best DriverBestMainSector.driver_id
           (fun x => MicroSectorRecord.driver_id (fst (fst x)))).
  - apply (join_at_most_one on_class_best
             (fun i => (ClassBestSegment.class i, ClassBestSegment.sector_id i))
             (fun sd => (Driver.class (snd sd), MicroSectorRecord.sector_id (fst sd)))).
    + apply (join_at_most_one sector_driver Driver.driver_id MicroSectorRecord.driver_id);
        [simpl; lia|exact Hnd|].
      intros a b H. apply str_eqb_eq in H. congruence.
    + unfold ideal_lap_segments_class. rewrite map_map.
      erewrite map_ext; [rewrite group_by_keys; apply NoDup_nodup|].
      intros [[c i] g]. reflexivity.
    + intros a b H. unfold on_class_best in H. apply andb_true_iff in H.
      destruct H as [H1 H2]. apply str_eqb_eq in H2.
      destruct (SectorId_dec (MicroSectorRecord.sector_id (fst a)) (ClassBestSegment.sector_id b));
        [|discriminate].
      congruence.
  - unfold ideal_lap_driver. rewrite map_map.
    erewrite map_ext; [rewrite group_by_keys; apply NoDup_nodup|].
    intros [k g]. reflexivity.
  - intros a b H. unfold on_driver_best in H. apply str_eqb_eq in H. congruence.
Qed.

(** When no record reaches sector_deltas twice, the times that
    sector_deltas holds for one lap and main sector add up to at most the
    per-lap sum of lap_sector_sums. *)
Lemma group_sum_le (db : Database) (k : LapSectorKey) (l : list MicroSectorRecord.row) :
  (forall s, In s l -> (List.length (sector_delta_rows db s) <= 1)%nat) ->
  Qsum (map SectorDelta.sector_time_s
            (group_rows LapSectorKey_dec delta_key k
                        (flat_map (sector_delta_rows db) l)))
  <= Qsum (map MicroSectorRecord.sector_time_s
               (group_rows LapSectorKey_dec sector_key k (filter over_one l))).
Proof.
  induction l as [|s l IH]; intros H.
  - simpl. apply Qle_refl.
  - assert (IH' := IH (fun s' Hs' => H s' (or_intror Hs'))). clear IH.
    simpl flat_map. unfold group_rows at 1. rewrite filter_app.
    fold (group_rows LapSectorKey_dec delta_key k (sector_delta_rows db s)).
    fold (group_rows LapSectorKey_dec delta_key k (flat_map (sector_delta_rows db) l)).
    rewrite map_app, Qsum_app.
    pose proof (H s (or_introl eq_refl)) as Hlen.
    destruct (sector_delta_rows db s) as [|r [|r' t]] eqn:Er; simpl in Hlen; try lia.
    + change (group_rows LapSectorKey_dec delta_key k []) with (@nil SectorDelta.row).
      simpl filter. destruct (over_one s) eqn:Ho; [|simpl; lra].
      change (group_rows LapSectorKey_dec sector_key k (s :: filter over_one l))
        with (if has_key LapSectorKey_dec sector_key k s
              then s :: group_rows LapSectorKey_dec sector_key k (filter over_one l)
              else group_rows LapSectorKey_dec sector_key k (filter over_one l)).
      apply over_one_pos in Ho.
      destruct (has_key LapSectorKey_dec sector_key k s); simpl; lra.
    + assert (Hr : In r (sector_delta_rows db s)) by (rewrite Er; simpl; auto).
      apply in_sector_delta_rows in Hr.
      destruct Hr as (Ho & d & ils & ild & _ & _ & _ & _ & ->).
      simpl filter. rewrite Ho.
      change (group_rows LapSectorKey_dec sector_key k (s :: filter over_one l))
        with (if has_key LapSectorKey_dec sector_key k s
              then s :: group_rows LapSectorKey_dec sector_key k (filter over_one l)
              else group_rows LapSectorKey_dec sector_key k (filter over_one l)).
      change (group_rows LapSectorKey_dec delta_key k [sector_delta_row (s, d, ils, ild)])
        with (if has_key LapSectorKey_dec sector_key k s
              then [sector_delta_row (s, d, ils, ild)] else []).
      destruct (has_key LapSectorKey_dec sector_key k s); simpl; lra.
Qed.

(** With one row per driver_id in the drivers table, best_gain_s is 0 in
    every row of driver_opportunities: the lap that set the driver's best
    time of the main sector has a delta of exactly 0.  (Times as exact
    numbers.) *)
Theorem best_gain_is_zero (sqrt : Q -> Q) (db : Database) (o : DriverOpportunity.row) :
  NoDup (map Driver.driver_id (drivers db)) ->
  In o (driver_opportunities sqrt db) ->
  exists b, DriverOpportunity.best_gain_s o = Some b /\ b == 0.
Proof.
  intros Hnd Ho. unfold driver_opportunities in Ho.
  destruct (opportunity_row_spec sqrt (main_sector_deltas db) o Ho)
    as (_ & _ & _ & b & Eb & [Hbin Hbmin]).
  set (D := DriverOpportunity.driver_id o) in *.
  set (ms := DriverOpportunity.main_sector o) in *.
  exists b. split; [exact Eb|].
  apply in_deltas_below_20 in Hbin. destruct Hbin as (m & Hm & Ekm & Edm & Hb20).
  destruct (main_delta_nonneg db m Hm) as (q & Eq & Hq).
  assert (q = b) by congruence. subst q.
  (* a record of the driver in this main sector *)
  destruct (in_main_sector_deltas db m Hm) as ([r0 Hr0] & _).
  apply in_group_rows in Hr0. destruct Hr0 as [Hr0 Hk0].
  rewrite sector_deltas_flat in Hr0. apply in_flat_map in Hr0.
  destruct Hr0 as (s0 & Hs0 & Hr0).
  destruct (in_sector_delta_rows db s0 r0 Hr0)
    as (Ho0 & d0 & ils0 & ild0 & Hd0 & Esd0 & Hild0 & Eild0 & Er0).
  assert (Eks0 : sector_key s0 = main_delta_key m).
  { rewrite <- Hk0, Er0. symmetry. apply sector_delta_row_key. }
  unfold opportunity_key in Ekm. injection Ekm as EmD Emms.
  assert (Es0D : MicroSectorRecord.driver_id s0 = D).
  { unfold sector_key, main_delta_key in Eks0. congruence. }
  assert (Es0ms : MicroSectorRecord.main_sector s0 = ms).
  { unfold sector_key, main_delta_key in Eks0. congruence. }
  (* the lap that set the best *)
  pose proof (best_of_is_best db ild0 ms Hild0) as Hbest. rewrite Eild0, Es0D in Hbest.
  destruct (best_of ms ild0) as [bb|] eqn:Ebb.
  2:{ exfalso.
      assert (Hin : In s0 (micro_rows db (D, MicroSectorRecord.car_no s0,
                                          MicroSectorRecord.lap_no s0, ms))).
      { apply in_group_rows. split; [apply filter_In; auto|].
        unfold sector_key. congruence. }
      rewrite Hbest in Hin. contradiction. }
  destruct Hbest as [(car & lap & Hne & Ebest) _].
  set (k := (D, car, lap, ms)) in *.
  destruct (micro_rows db k) as [|s1 rest] eqn:Emr; [congruence|].
  assert (Hs1 : In s1 (micro_rows db k)) by (rewrite Emr; simpl; auto).
  apply in_group_rows in Hs1. destruct Hs1 as [Hs1 Eks1].
  apply filter_In in Hs1. destruct Hs1 as [Hs1 Ho1].
  assert (Es1D : MicroSectorRecord.driver_id s1 = Driver.driver_id d0).
  { unfold sector_key, k in Eks1. congruence. }
  pose proof (sector_delta_rows_nonempty db s1 d0 Hs1 Ho1 Hd0 Es1D) as Hrows.
  destruct (sector_delta_rows db s1) as [|r1 rows1] eqn:Erows; [congruence|].
  assert (Hr1 : In r1 (sector_delta_rows db s1)) by (rewrite Erows; simpl; auto).
  assert (Hr1s : In r1 (sector_deltas db)).
  { rewrite sector_deltas_flat. apply in_flat_map. exists s1. auto. }
  assert (Ekr1 : delta_key r1 = k).
  { destruct (in_sector_delta_rows db s1 r1 Hr1) as (_ & d & ils & ild & _ & _ & _ & _ & ->).
    exact Eks1. }
  set (g := group_rows LapSectorKey_dec delta_key k (sector_deltas db)).
  assert (Hg : In (k, g) (group_by LapSectorKey_dec delta_key (sector_deltas db))).
  { rewrite <- Ekr1. unfold g. rewrite <- Ekr1. now apply group_by_of_row. }
  assert (Hgne : g <> []).
  { assert (Hin : In r1 g) by (apply in_group_rows; auto). member_not_nil Hin. }
  (* its times add up to the best *)
  assert (Hsum : Qsum (map SectorDelta.sector_time_s g) == bb).
  { rewrite Ebest. unfold per_lap_sum, micro_rows, g.
    rewrite sector_deltas_flat. apply Qle_antisym.
    - apply group_sum_le. intros s _. now apply sector_delta_rows_once.
    - apply group_sum_ge. intros s Hs Hos Eks.
      apply (sector_delta_rows_nonempty db s d0 Hs Hos Hd0).
      unfold sector_key, k in Eks. congruence. }
  assert (Hgb : group_best ms g = Some bb).
  { rewrite group_best_col. rewrite <- Ebb. apply agg_min_const.
    - destruct g; [congruence|discriminate].
    - intros x Hx. apply in_map_iff in Hx. destruct Hx as (r & <- & Hr).
      apply in_group_rows in Hr. destruct Hr as [Hr Hkr].
      rewrite sector_deltas_flat in Hr. apply in_flat_map in Hr.
      destruct Hr as (s & Hs & Hr).
      destruct (in_sector_delta_rows db s r Hr)
        as (_ & d & ils & ild & _ & _ & Hild & Eild & ->).
      assert (ild = ild0).
      { apply (ideal_lap_driver_unique db); auto.
        assert (sector_key s = k) by exact Hkr.
        unfold sector_key, k in *. congruence. }
      subst ild. destruct ms; reflexivity. }
  set (x := Qsum (map SectorDelta.sector_time_s g) - bb).
  assert (Hx : In x (deltas_below_20 (main_sector_deltas db) (D, ms))).
  { apply in_deltas_below_20.
    exists (MainSectorDelta.mk D car lap ms
              (agg_sum (map (fun r => Some (SectorDelta.sector_time_s r)) g))
              (group_best ms g)
              (sql_sub (agg_sum (map (fun r => Some (SectorDelta.sector_time_s r)) g))
                       (group_best ms g))).
    split; [|split; [reflexivity|split]].
    - unfold main_sector_deltas. apply in_map_iff. exists (k, g). split; [reflexivity|exact Hg].
    - simpl. rewrite Hgb, (agg_sum_rows SectorDelta.sector_time_s g Hgne). reflexivity.
    - unfold x. lra. }
  specialize (Hbmin x Hx). unfold x in Hbmin. lra.
Qed.

Lemma best_gain_is_zero_witness :
  exists b,
    DriverOpportunity.best_gain_s
      (DriverOpportunity.mk "D_7" S1 (Some ((0 + 1) / 2)) (Some (1 # 2)) (Some 0)) = Some b /\
    b == 0.
Proof.
  apply (best_gain_is_zero (fun _ => 1 # 2) db_session).
  - repeat constructor. simpl. tauto.
  - vm_compute. auto.
Defined.

Lemma opportunity_keys (sqrt : Q -> Q) (ms : list MainSectorDelta.row) :
  NoDup (map (fun o => (DriverOpportunity.driver_id o, DriverOpportunity.main_sector o))
             (opportunities_of sqrt ms)).
Proof.
  unfold opportunities_of. rewrite map_map.
  erewrite map_ext; [rewrite group_by_keys; apply NoDup_nodup|].
  intros [[D s] g]. reflexivity.
Qed.

(** driver_opportunities has exactly one row for each (driver, main sector)
    that has a main-sector delta below 20 s, and no row for any other pair;
    in each row avg_loss_s is present, and best_gain_s is the delta of one
    of the laps behind the row, so it is below 20.  (No order between
    avg_loss_s and best_gain_s is stated: the mean is exact here, while
    [AVG] on a DOUBLE column may leave the range of its inputs by one unit
    in the last place.) *)
Theorem opportunity_bounds (sqrt : Q -> Q) (ms : list MainSectorDelta.row) :
  NoDup (map (fun o => (DriverOpportunity.driver_id o, DriverOpportunity.main_sector o))
             (opportunities_of sqrt ms)) /\
  (forall D s,
     (exists o, In o (opportunities_of sqrt ms) /\
                DriverOpportunity.driver_id o = D /\ DriverOpportunity.main_sector o = s) <->
     (exists m x, In m ms /\ MainSectorDelta.driver_id m = D /\
                  MainSectorDelta.main_sector m = s /\
                  MainSectorDelta.delta_main_s m = Some x /\ x < 20)) /\
  (forall o, In o (opportunities_of sqrt ms) ->
     (exists a, DriverOpportunity.avg_loss_s o = Some a) /\
     (exists b m, DriverOpportunity.best_gain_s o = Some b /\
                  In m ms /\
                  MainSectorDelta.driver_id m = DriverOpportunity.driver_id o /\
                  MainSectorDelta.main_sector m = DriverOpportunity.main_sector o /\
                  MainSectorDelta.delta_main_s m = Some b /\ b < 20)).
Proof.
  split; [|split].
  - apply opportunity_keys.
  - intros D s. split.
    + intros (o & Ho & <- & <-).
      destruct (opportunity_row_spec sqrt ms o Ho) as (_ & _ & _ & b & _ & [Hb _]).
      apply in_deltas_below_20 in Hb. destruct Hb as (m & Hm & Ek & Ed & Hlt).
      unfold opportunity_key in Ek. injection Ek as E1 E2.
      exists m, b. auto.
    + intros (m & x & Hm & <- & <- & Ed & Hlt).
      assert (Hf : In m (filter below_outlier ms)).
      { apply filter_In. split; [exact Hm|]. unfold below_outlier. rewrite Ed. simpl.
        now apply Qlt_bool_iff. }
      pose proof (group_by_of_row OpportunityKey_dec opportunity_key _ m Hf) as Hg.
      eexists. split.
      * unfold opportunities_of. apply in_map_iff. eexists. split; [reflexivity|exact Hg].
      * split; reflexivity.
  - intros o Ho.
    destruct (opportunity_row_spec sqrt ms o Ho) as (_ & Ea & _ & b & Eb & [Hbin _]).
    split; [eexists; exact Ea|].
    apply in_deltas_below_20 in Hbin. destruct Hbin as (m & Hm & Ek & Ed & Hlt).
    unfold opportunity_key in Ek. injection Ek as E1 E2.
    exists b, m. auto 10.
Qed.

Lemma opportunity_bounds_witness :
  exists b m,
    DriverOpportunity.best_gain_s
      (opportunity_row (fun x => x) ("D_7"%string, S1)
         (filter below_outlier ms_pit)) = Some b /\
    In m ms_pit /\
    MainSectorDelta.driver_id m = "D_7"%string /\
    MainSectorDelta.main_sector m = S1 /\
    MainSectorDelta.delta_main_s m = Some b /\ b < 20.
Proof.
  apply (proj2 (proj2 (opportunity_bounds (fun x => x) ms_pit))).
  left. reflexivity.
Defined.

Lemma in_class_rows (db : Database) (s : MicroSectorRecord.row) (d : Driver.row) :
  In (s, d) (class_rows db) <->
  In s (sectors db) /\ In d (drivers db) /\
  MicroSectorRecord.driver_id s = Driver.driver_id d /\ over_one s = true.
Proof.
  unfold class_rows. rewrite filter_In, in_join. unfold sector_driver.
  rewrite str_eqb_eq. simpl. tauto.
Qed.

Lemma in_ideal_lap_segments_class (db : Database) (i : ClassBestSegment.row) :
  In i (ideal_lap_segments_class db) <->
  In (ClassBestSegment.class i, ClassBestSegment.sector_id i)
     (map class_key (class_rows db)) /\
  ClassBestSegment.best_sector_time_s i
  = agg_min (map (fun sd => Some (MicroSectorRecord.sector_time_s (fst sd)))
                 (group_rows ClassSector_dec class_key
                    (ClassBestSegment.class i, ClassBestSegment.sector_id i)
                    (class_rows db))).
Proof.
  unfold ideal_lap_segments_class. fold (class_rows db). fold class_key.
  rewrite in_map_iff. split.
  - intros ([[c x] g] & <- & Hg). apply in_group_by in Hg. destruct Hg as [-> Hk].
    simpl. auto.
  - intros [Hk Eb]. destruct i as [c x b]. simpl in *.
    exists ((c, x), group_rows ClassSector_dec class_key (c, x) (class_rows db)).
    split; [simpl; now rewrite Eb|]. apply in_group_by. auto.
Qed.

Lemma in_sector_deltas (db : Database) (r : SectorDelta.row) :
  In r (sector_deltas db) <->
  exists s d ils ild,
    In (s, d) (class_rows db) /\
    In ils (ideal_lap_segments_class db) /\
    class_key (s, d) = (ClassBestSegment.class ils, ClassBestSegment.sector_id ils) /\
    In ild (ideal_lap_driver db) /\
    DriverBestMainSector.driver_id ild = MicroSectorRecord.driver_id s /\
    r = sector_delta_row (s, d, ils, ild).
Proof.
  unfold sector_deltas. rewrite in_map_iff. split.
  - intros ([[[s d] ils] ild] & <- & H). apply filter_In in H. destruct H as [H Ho].
    simpl in Ho. apply in_join in H. destruct H as (H & Hild & Hon2).
    apply in_join in H. destruct H as (H & Hils & Hon1).
    apply in_join in H. destruct H as (Hs & Hd & Hon0).
    unfold on_driver_best in Hon2. simpl in Hon2. apply str_eqb_eq in Hon2.
    unfold sector_driver in Hon0. apply str_eqb_eq in Hon0.
    unfold on_class_best in Hon1. simpl in Hon1. apply andb_true_iff in Hon1.
    destruct Hon1 as [Hx Hc]. apply str_eqb_eq in Hc.
    destruct (SectorId_dec (MicroSectorRecord.sector_id s) (ClassBestSegment.sector_id ils));
      [|discriminate].
    exists s, d, ils, ild. split; [apply in_class_rows; auto|].
    split; [exact Hils|]. split; [unfold class_key; simpl; congruence|]. auto.
  - intros (s & d & ils & ild & Hsd & Hils & Ek & Hild & Eild & ->).
    apply in_class_rows in Hsd. destruct Hsd as (Hs & Hd & Esd & Ho).
    unfold class_key in Ek. simpl in Ek. injection Ek as Ec Ex.
    exists (s, d, ils, ild). split; [reflexivity|]. apply filter_In. split; [|exact Ho].
    apply in_join. split; [|split; [exact Hild|]].
    + apply in_join. split; [|split; [exact Hils|]].
      * apply in_join. unfold sector_driver. rewrite str_eqb_eq. auto.
      * unfold on_class_best. simpl. rewrite <- Ex, <- Ec.
        destruct (SectorId_dec (MicroSectorRecord.sector_id s) (MicroSectorRecord.sector_id s));
          [|congruence].
        simpl. apply str_eqb_refl.
    + unfold on_driver_best. simpl. apply str_eqb_eq. congruence.
Qed.

(** In every row of sector_deltas the class ideal is present, above one
    second and not above the row's own time, so delta_class_s is present
    and never negative; and some row of the same class and micro-sector
    has a delta_class_s of 0. *)
Theorem sector_delta_class_bounds (db : Database) (r : SectorDelta.row) :
  In r (sector_deltas db) ->
  (exists c q,
     SectorDelta.ideal_class_s r = Some c /\ SectorDelta.delta_class_s r = Some q /\
     1 < c /\ c <= SectorDelta.sector_time_s r /\
     q == SectorDelta.sector_time_s r - c /\ 0 <= q) /\
  (exists r0 q0,
     In r0 (sector_deltas db) /\
     SectorDelta.class r0 = SectorDelta.class r /\
     SectorDelta.sector_id r0 = SectorDelta.sector_id r /\
     SectorDelta.delta_class_s r0 = Some q0 /\ q0 == 0).
Proof.
  intros Hr. apply in_sector_deltas in Hr.
  destruct Hr as (s & d & ils & ild & Hsd & Hils & Ek & Hild & Eild & ->).
  pose proof Hils as Hils'. apply in_ideal_lap_segments_class in Hils'.
  destruct Hils' as [_ Eb]. rewrite <- Ek in Eb.
  set (g := group_rows ClassSector_dec class_key (class_key (s, d)) (class_rows db)) in *.
  assert (Hg : In (s, d) g) by (apply in_group_rows; auto).
  destruct (agg_min_exists _ (MicroSectorRecord.sector_time_s s)
              (in_map (fun sd : MicroSectorRecord.row * Driver.row =>
                         Some (MicroSectorRecord.sector_time_s (fst sd))) g (s, d) Hg))
    as (c & Ec & Hc).
  rewrite Ec in Eb.
  pose proof (agg_min_Some _ _ Ec) as [Hcin _].
  rewrite somes_map_Some in Hcin. apply in_map_iff in Hcin.
  destruct Hcin as ([s' d'] & Et & Hg'). simpl in Et.
  apply in_group_rows in Hg'. destruct Hg' as [Hsd' Ek'].
  pose proof Hsd' as Hsd''. apply in_class_rows in Hsd''.
  destruct Hsd'' as (Hs' & Hd' & Esd' & Ho').
  split.
  - exists c, (MicroSectorRecord.sector_time_s s - c). simpl. rewrite Eb. simpl.
    repeat split; try reflexivity; try lra.
    rewrite <- Et. now apply over_one_pos.
  - assert (Hne : micro_rows db (sector_key s') <> []).
    { assert (Hin : In s' (micro_rows db (sector_key s'))).
      { apply in_group_rows. split; [|reflexivity]. apply filter_In. auto. }
      member_not_nil Hin. }
    unfold sector_key in Hne.
    pose proof (lap_sector_sums_of_key db _ _ _ _ Hne) as Hl.
    destruct (ideal_lap_driver_exists db _ d' Hl Hd' Esd') as (ild' & Hild' & Eild').
    exists (sector_delta_row (s', d', ils, ild')),
           (MicroSectorRecord.sector_time_s s' - c).
    split; [|split; [|split; [|split]]].
    + apply in_sector_deltas. exists s', d', ils, ild'.
      repeat split; auto; congruence.
    + simpl. unfold class_key in Ek'. simpl in Ek'. congruence.
    + simpl. unfold class_key in Ek'. simpl in Ek'. congruence.
    + simpl. rewrite Eb. reflexivity.
    + rewrite Et. lra.
Qed.

Lemma sector_delta_class_bounds_witness :
  exists c q,
    Some 14 = Some c /\ Some (14 - 14) = Some q /\
    1 < c /\ c <= 14 /\ q == 14 - c /\ 0 <= q.
Proof.
  apply (sector_delta_class_bounds db_session
           (SectorDelta.mk "D_7" 7 1 S1a S1 14 (Some 14) (Some (14 - 14))
              (Some 34) (Some (14 - 34)) (Some 34) (Some 40) (Some 38) "GT")).
  vm_compute. left. reflexivity.
Defined.

Lemma Qsum_ge_member (v : list Q) (x : Q) :
  (forall y, In y v -> 0 <= y) -> In x v -> x <= Qsum v.
Proof.
  induction v as [|y v IH]; intros Hpos Hx; [contradiction|]. simpl.
  assert (0 <= y) by (apply Hpos; simpl; auto).
  assert (0 <= Qsum v) by (apply Qsum_nonneg; intros; apply Hpos; simpl; auto).
  destruct Hx as [->|Hx]; [lra|].
  assert (x <= Qsum v) by (apply IH; auto; intros; apply Hpos; simpl; auto). lra.
Qed.

(** All rows of one group of main_sector_deltas carry the same driver
    best, so [MIN(best_Sn)] over the group is the ideal_driver_s of any of
    its rows. *)
Lemma group_best_of_row (db : Database) (r : SectorDelta.row) :
  In r (sector_deltas db) ->
  group_best (SectorDelta.main_sector r)
    (group_rows LapSectorKey_dec delta_key (delta_key r) (sector_deltas db))
  = SectorDelta.ideal_driver_s r.
Proof.
  intros Hr. rewrite group_best_col. apply agg_min_const.
  - assert (Hin : In r (group_rows LapSectorKey_dec delta_key (delta_key r) (sector_deltas db)))
      by (apply in_group_rows; auto).
    intros E. apply map_eq_nil in E. rewrite E in Hin. contradiction.
  - intros x Hx. apply in_map_iff in Hx. destruct Hx as (r' & <- & Hr').
    apply in_group_rows in Hr'. destruct Hr' as [Hr' Ek].
    apply in_sector_deltas in Hr. apply in_sector_deltas in Hr'.
    destruct Hr as (s & d & ils & ild & _ & _ & _ & Hild & Eild & ->).
    destruct Hr' as (s' & d' & ils' & ild' & _ & _ & _ & Hild' & Eild' & ->).
    assert (ild' = ild).
    { apply (ideal_lap_driver_unique db); auto.
      unfold delta_key in Ek. simpl in Ek. congruence. }
    subst ild'. simpl. destruct (MicroSectorRecord.main_sector s); reflexivity.
Qed.

(** delta_driver_s measures a micro-sector time against the driver's best
    time of the whole main sector: it is the row's time minus the
    ideal_main_s of the main_sector_deltas row of the same lap and main
    sector, and so never above that row's delta_main_s. *)
Theorem delta_driver_below_main (db : Database) (r : SectorDelta.row) :
  In r (sector_deltas db) ->
  exists m b a q,
    In m (main_sector_deltas db) /\ main_delta_key m = delta_key r /\
    MainSectorDelta.ideal_main_s m = Some b /\
    SectorDelta.ideal_driver_s r = Some b /\
    SectorDelta.delta_driver_s r = Some a /\
    MainSectorDelta.delta_main_s m = Some q /\
    a == SectorDelta.sector_time_s r - b /\ a <= q.
Proof.
  intros Hr.
  set (g := group_rows LapSectorKey_dec delta_key (delta_key r) (sector_deltas db)).
  assert (Hrg : In r g) by (apply in_group_rows; auto).
  assert (Hgne : g <> []) by (member_not_nil Hrg).
  pose proof (group_by_of_row LapSectorKey_dec delta_key _ r Hr) as Hg. fold g in Hg.
  set (actual := agg_sum (map (fun x => Some (SectorDelta.sector_time_s x)) g)).
  set (m := MainSectorDelta.mk (SectorDelta.driver_id r) (SectorDelta.car_no r)
              (SectorDelta.lap_no r) (SectorDelta.main_sector r)
              actual (group_best (SectorDelta.main_sector r) g)
              (sql_sub actual (group_best (SectorDelta.main_sector r) g))).
  assert (Hm : In m (main_sector_deltas db)).
  { unfold main_sector_deltas. apply in_map_iff. exists (delta_key r, g).
    split; [reflexivity|exact Hg]. }
  destruct (main_delta_nonneg db m Hm) as (q & Eq & _).
  pose proof (group_best_of_row db r Hr) as Eb. fold g in Eb.
  assert (Hsum : SectorDelta.sector_time_s r <= Qsum (map SectorDelta.sector_time_s g)).
  { apply Qsum_ge_member; [|now apply in_map].
    intros y Hy. apply in_map_iff in Hy. destruct Hy as (r' & <- & Hr').
    apply in_group_rows in Hr'. destruct Hr' as [Hr' _].
    apply in_sector_deltas in Hr'.
    destruct Hr' as (s' & d' & ils' & ild' & Hsd' & _ & _ & _ & _ & ->).
    apply in_class_rows in Hsd'. destruct Hsd' as (_ & _ & _ & Ho').
    apply over_one_pos in Ho'. simpl. lra. }
  pose proof Hr as Hr'. apply in_sector_deltas in Hr'.
  destruct Hr' as (s & d & ils & ild & _ & _ & _ & _ & _ & Er).
  assert (Ed : SectorDelta.delta_driver_s r
               = sql_sub (Some (SectorDelta.sector_time_s r)) (SectorDelta.ideal_driver_s r)).
  { rewrite Er. reflexivity. }
  simpl in Eq. rewrite Eb in Eq. unfold actual in Eq.
  rewrite (agg_sum_rows SectorDelta.sector_time_s g Hgne) in Eq.
  destruct (SectorDelta.ideal_driver_s r) as [b|] eqn:Ei; [|discriminate].
  simpl in Eq. injection Eq as Eq.
  exists m, b, (SectorDelta.sector_time_s r - b), q.
  split; [exact Hm|]. split; [reflexivity|]. split; [exact Eb|]. split; [reflexivity|].
  split; [rewrite Ed; reflexivity|]. split.
  - simpl. rewrite Eb. unfold actual.
    rewrite (agg_sum_rows SectorDelta.sector_time_s g Hgne). simpl. now rewrite Eq.
  - split; [reflexivity|]. rewrite <- Eq. lra.
Qed.

Lemma delta_driver_below_main_witness :
  exists m b a q,
    In m (main_sector_deltas db_session) /\
    main_delta_key m = ("D_7"%string, 7%Z, 1%Z, S1) /\
    MainSectorDelta.ideal_main_s m = Some b /\
    Some 34 = Some b /\
    Some (14 - 34) = Some a /\
    MainSectorDelta.delta_main_s m = Some q /\
    a == 14 - b /\ a <= q.
Proof.
  apply (delta_driver_below_main db_session
           (SectorDelta.mk "D_7" 7 1 S1a S1 14 (Some 14) (Some (14 - 14))
              (Some 34) (Some (14 - 34)) (Some 34) (Some 40) (Some 38) "GT")).
  vm_compute. left. reflexivity.
Defined.

Lemma flat_map_ext_in {A B : Type} (f g : A -> list B) (l : list A) :
  (forall a, In a l -> f a = g a) -> flat_map f l = flat_map g l.
Proof.
  induction l as [|x l IH]; intros H; [reflexivity|].
  simpl. rewrite (H x (or_introl eq_refl)), IH; [reflexivity|].
  intros a Ha. apply H. now right.
Qed.

(** Rows that carry the key of the element they stem from: under distinct
    keys, selecting by the key of [x] gives back the rows of [x]. *)
Lemma filter_flat_map_key {A B K : Type} (key : A -> K) (rkey : B -> K)
  (rows : A -> list B) (test : A -> B -> bool) (l : list A) (x : A) :
  (forall a r, test a r = true <-> rkey r = key a) ->
  (forall a r, In r (rows a) -> rkey r = key a) ->
  NoDup (map key l) -> In x l ->
  filter (test x) (flat_map rows l) = rows x.
Proof.
  intros Htest Hrows. induction l as [|y l IH]; intros Hnd Hx; [contradiction|].
  inversion Hnd as [|? ? Hnot Hnd']; subst. simpl. rewrite filter_app.
  assert (Hnone : forall a l', key a <> key x -> (forall r, In r l' -> rkey r = key a) ->
                               filter (test x) l' = []).
  { intros a l' Hne Hl'. induction l' as [|r l' IHl']; [reflexivity|]. simpl.
    destruct (test x r) eqn:E.
    - apply Htest in E. exfalso. apply Hne. rewrite <- E. symmetry.
      apply Hl'. now left.
    - apply IHl'. intros r' Hr'. apply Hl'. now right. }
  destruct Hx as [->|Hx].
  - assert (Eown : filter (test x) (rows x) = rows x).
    { apply forallb_filter_id. apply forallb_forall. intros r Hr.
      apply Htest. now apply Hrows. }
    assert (Erest : forall l0, ~ In (key x) (map key l0) ->
                               filter (test x) (flat_map rows l0) = []).
    { induction l0 as [|z l0 IHl]; intros Hn; [reflexivity|].
      simpl. rewrite filter_app. rewrite (Hnone z (rows z)).
      - apply IHl. intros Hin. apply Hn. now right.
      - intros E. apply Hn. left. exact E.
      - apply Hrows. }
    rewrite Eown, (Erest l Hnot). apply app_nil_r.
  - rewrite (Hnone y (rows y)).
    + now apply IH.
    + intros E. apply Hnot. rewrite E. now apply in_map.
    + apply Hrows.
Qed.

Lemma ideal_lap_flat (db : Database) :
  ideal_lap db = flat_map (ideal_lap_rows db) (laps db).
Proof.
  unfold ideal_lap, ideal_lap_rows.
  induction (laps db) as [|l ls IH]; [reflexivity|].
  rewrite (join_cons lap_best l ls), filter_app, map_app, IH. reflexivity.
Qed.

Lemma in_ideal_lap_rows (db : Database) (l : LapRecord.row) (i : IdealLap.row) :
  In i (ideal_lap_rows db l) ->
  LapRecord.is_valid l = true /\
  IdealLap.driver_id i = LapRecord.driver_id l /\
  IdealLap.lap_no i = LapRecord.lap_no l /\
  IdealLap.lap_time_s i = LapRecord.lap_time_s l /\
  IdealLap.delta_to_ideal_s i
  = sql_sub (Some (LapRecord.lap_time_s l)) (IdealLap.ideal_lap_time_s i).
Proof.
  unfold ideal_lap_rows. intros H. apply in_map_iff in H.
  destruct H as ([l' b] & <- & H). apply filter_In in H. destruct H as [H Hv].
  apply in_join in H. destruct H as ([<-|[]] & _ & _). simpl in Hv. simpl. auto.
Qed.

Lemma ideal_lap_rows_invalid (db : Database) (l : LapRecord.row) :
  LapRecord.is_valid l = false -> ideal_lap_rows db l = [].
Proof.
  intros Hv. destruct (ideal_lap_rows db l) as [|i t] eqn:E; [reflexivity|].
  assert (Hi : In i (ideal_lap_rows db l)) by (rewrite E; simpl; auto).
  apply in_ideal_lap_rows in Hi. destruct Hi as [Hi _]. congruence.
Qed.

(** Every row of lap_deltas is a row of ideal_lap, column for column
    (delta_lap_s is delta_to_ideal_s), and every row of ideal_lap is in
    lap_deltas.  When no two laps share (driver_id, lap_no) the two tables
    hold the same rows the same number of times.  (laps is not keyed by
    (driver_id, lap_no): laps that share the pair are joined to each
    other's rows, and lap_deltas then repeats rows.) *)
Theorem lap_deltas_mirror (db : Database) :
  (forall r, In r (lap_deltas db) <-> exists i, In i (ideal_lap db) /\ r = lap_delta_of i) /\
  (NoDup (map lap_record_key (laps db)) ->
   Permutation (lap_deltas db) (map lap_delta_of (ideal_lap db))).
Proof.
  split.
  - intros r. split.
    + unfold lap_deltas. intros H. apply in_map_iff in H.
      destruct H as ([l i] & <- & H). apply filter_In in H. destruct H as [H Hv].
      apply in_join in H. destruct H as (Hl & Hi & Hon). simpl in Hv.
      unfold on_ideal_lap in Hon. apply andb_true_iff in Hon. destruct Hon as [E1 E2].
      apply str_eqb_eq in E1. apply Z.eqb_eq in E2.
      unfold ideal_lap in Hi. apply in_map_iff in Hi.
      destruct Hi as ([l0 b] & <- & Hi). apply filter_In in Hi. destruct Hi as [Hi _].
      apply in_join in Hi. destruct Hi as (_ & Hb & Hon). simpl in E1, E2.
      unfold lap_best in Hon. apply str_eqb_eq in Hon.
      eexists. split.
      * unfold ideal_lap. apply in_map_iff. exists (l, b). split; [reflexivity|].
        apply filter_In. split; [|exact Hv]. apply in_join.
        unfold lap_best. rewrite str_eqb_eq. split; [exact Hl|]. split; [exact Hb|].
        congruence.
      * unfold lap_delta_of. simpl. reflexivity.
    + intros (i & Hi & ->). pose proof Hi as Hi'.
      unfold ideal_lap in Hi'. apply in_map_iff in Hi'.
      destruct Hi' as ([l b] & E & H). apply filter_In in H. destruct H as [H Hv].
      apply in_join in H. destruct H as (Hl & _ & _). simpl in Hv.
      unfold lap_deltas. apply in_map_iff. exists (l, i). split.
      * subst i. reflexivity.
      * apply filter_In. split; [|exact Hv]. apply in_join.
        split; [exact Hl|]. split; [exact Hi|]. subst i.
        unfold on_ideal_lap. simpl. now rewrite str_eqb_refl, Z.eqb_refl.
  - intros Hnd.
    assert (E : lap_deltas db = map lap_delta_of (ideal_lap db)).
    { assert (E1 : map lap_delta_of (ideal_lap db)
                   = flat_map (fun l => map lap_delta_of (ideal_lap_rows db l)) (laps db)).
      { rewrite ideal_lap_flat. generalize (laps db) as ls.
        induction ls as [|l ls IH]; [reflexivity|].
        simpl. now rewrite map_app, IH. }
      rewrite E1. unfold lap_deltas, join.
      set (deltas := fun li : LapRecord.row * IdealLap.row =>
             let (l0, i) := li in
             LapDelta.mk (LapRecord.driver_id l0) (LapRecord.lap_no l0)
               (LapRecord.lap_time_s l0) (IdealLap.ideal_lap_time_s i)
               (sql_sub (Some (LapRecord.lap_time_s l0)) (IdealLap.ideal_lap_time_s i))
               (IdealLap.class i)).
      set (valid := fun li : LapRecord.row * IdealLap.row => LapRecord.is_valid (fst li)).
      set (piece := fun l : LapRecord.row =>
             map deltas
               (filter valid (map (fun i => (l, i)) (filter (on_ideal_lap l) (ideal_lap db))))).
      assert (Hflat : forall ls,
                map deltas
                  (filter valid
                     (flat_map
                        (fun l => map (fun i => (l, i))
                           (filter (on_ideal_lap l) (ideal_lap db))) ls))
                = flat_map piece ls).
      { induction ls as [|l ls IH]; [reflexivity|].
        simpl. rewrite filter_app, map_app, IH. reflexivity. }
      rewrite Hflat. apply flat_map_ext_in. intros l Hl. unfold piece.
      rewrite ideal_lap_flat.
      rewrite (filter_flat_map_key lap_record_key
                 (fun i => (IdealLap.driver_id i, IdealLap.lap_no i))
                 (ideal_lap_rows db) on_ideal_lap (laps db) l); auto.
      - destruct (LapRecord.is_valid l) eqn:Hv.
        + rewrite (forallb_filter_id valid).
          * rewrite map_map. apply map_ext_in. intros i Hi. unfold deltas.
            apply in_ideal_lap_rows in Hi. destruct Hi as (_ & Ed & En & Et & Ex).
            unfold lap_delta_of. rewrite Ed, En, Et, Ex. reflexivity.
          * apply forallb_forall. intros [l0 i] Hin. apply in_map_iff in Hin.
            destruct Hin as (i' & Ep & _). injection Ep as <- <-. exact Hv.
        + rewrite (ideal_lap_rows_invalid db l Hv). reflexivity.
      - intros a r. unfold on_ideal_lap, lap_record_key.
        rewrite andb_true_iff, str_eqb_eq, Z.eqb_eq. split.
        + intros [-> ->]. reflexivity.
        + intros E. injection E as -> ->. auto.
      - intros a r Hr. apply in_ideal_lap_rows in Hr.
        destruct Hr as (_ & Ed & En & _). unfold lap_record_key. congruence. }
    rewrite E. apply Permutation_refl.
Qed.

Lemma lap_deltas_mirror_witness :
  Permutation (lap_deltas db_session) (map lap_delta_of (ideal_lap db_session)).
Proof.
  apply (proj2 (lap_deltas_mirror db_session)).
  repeat constructor; simpl; intuition discriminate.
Defined.

(** Two outings with the same lap number: ideal_lap has a row for each,
    and lap_deltas pairs each lap with both rows. *)
Example lap_deltas_repeats :
  List.length (ideal_lap db_two_outings) = 2%nat /\
  List.length (lap_deltas db_two_outings) = 4%nat.
Proof. split; reflexivity. Qed.

(* ================================================================== *)
(** * Further properties: lap-level physics *)
(* ================================================================== *)

Lemma count_bounds (cond : Telemetry.row -> bool) (g : list Telemetry.row) :
  (0 <= fold_right Z.add 0 (map (fun r => one_if (cond r)) g)
   <= Z.of_nat (List.length g))%Z.
Proof.
  induction g as [|r g IH]; [simpl; lia|].
  cbn [map fold_right List.length]. unfold one_if at 1. unfold one_if at 2.
  destruct (cond r); lia.
Qed.

Lemma count_exclusive (c1 c2 : Telemetry.row -> bool) (g : list Telemetry.row) :
  (forall r, c1 r = true -> c2 r = false) ->
  (fold_right Z.add 0 (map (fun r => one_if (c1 r)) g)
   + fold_right Z.add 0 (map (fun r => one_if (c2 r)) g)
   <= Z.of_nat (List.length g))%Z.
Proof.
  intros Hex. induction g as [|r g IH]; [simpl; lia|].
  cbn [map fold_right List.length]. specialize (Hex r). unfold one_if at 1. unfold one_if at 2.
  destruct (c1 r); [rewrite Hex by reflexivity|destruct (c2 r)]; lia.
Qed.

Lemma ratio_of_value (cond : Telemetry.row -> bool) (g : list Telemetry.row) :
  g <> [] ->
  exists n, ratio_of cond g = Some (inject_Z n * 1 / inject_Z (Z.of_nat (List.length g))) /\
            n = fold_right Z.add 0%Z (map (fun r => one_if (cond r)) g).
Proof.
  intros Hne. unfold ratio_of, agg_sum_Z. destruct g as [|r g]; [congruence|].
  cbn [map]. eexists. split; reflexivity.
Qed.

Lemma ratio_le (n m L : Z) :
  (0 < L)%Z -> (n <= m)%Z -> inject_Z n * 1 / inject_Z L <= inject_Z m * 1 / inject_Z L.
Proof.
  intros HL H. rewrite !Qmult_1_r. unfold Qdiv. apply Qmult_le_compat_r.
  - now rewrite <- Zle_Qle.
  - apply Qinv_le_0_compat. rewrite <- (Zle_Qle 0). lia.
Qed.

Lemma ratio_sum (n m L : Z) :
  (0 < L)%Z ->
  inject_Z n * 1 / inject_Z L + inject_Z m * 1 / inject_Z L
  == inject_Z (n + m) * 1 / inject_Z L.
Proof.
  intros HL. rewrite inject_Z_plus. field.
  intros E. unfold Qeq in E. simpl in E. lia.
Qed.

Lemma ratio_unit (L : Z) : (0 < L)%Z -> inject_Z L * 1 / inject_Z L == 1.
Proof.
  intros HL. field.
  intros E. unfold Qeq in E. simpl in E. lia.
Qed.

Lemma ratio_zero (L : Z) : inject_Z 0 * 1 / inject_Z L == 0.
Proof. unfold Qdiv. change (inject_Z 0) with 0. ring. Qed.

Lemma in_lap_physics (sqrt : Q -> Q) (telemetry : list Telemetry.row) (x : LapPhysics.row) :
  In x (lap_physics sqrt telemetry) <->
  In (LapPhysics.driver_id x, LapPhysics.lap x) (map lap_key telemetry) /\
  x = lap_physics_row sqrt (LapPhysics.driver_id x, LapPhysics.lap x)
        (group_rows LapKey_dec lap_key (LapPhysics.driver_id x, LapPhysics.lap x) telemetry).
Proof.
  unfold lap_physics. rewrite in_map_iff. split.
  - intros ([[D n] g] & <- & Hg). apply in_group_by in Hg. destruct Hg as [-> Hk].
    simpl. auto.
  - intros [Hk E]. eexists (_, _). split; [symmetry; exact E|]. apply in_group_by. auto.
Qed.

(** Every row of lap_physics counts at least one sample; its three ratios
    are fractions between 0 and 1; full throttle and coasting exclude each
    other, and so do coasting and braking, so each pair adds up to at most
    1; max_braking_g (the minimum of accx_g) is never above max_accel_g,
    and the two are present or missing together. *)
Theorem lap_physics_ratios (sqrt : Q -> Q) (telemetry : list Telemetry.row)
  (x : LapPhysics.row) :
  In x (lap_physics sqrt telemetry) ->
  (1 <= LapPhysics.samples x)%Z /\
  (exists f c b,
     LapPhysics.full_throttle_ratio x = Some f /\
     LapPhysics.coasting_ratio x = Some c /\
     LapPhysics.braking_ratio x = Some b /\
     0 <= f /\ 0 <= c /\ 0 <= b /\ f <= 1 /\ c <= 1 /\ b <= 1 /\
     f + c <= 1 /\ c + b <= 1) /\
  (forall lo hi, LapPhysics.max_braking_g x = Some lo ->
                 LapPhysics.max_accel_g x = Some hi -> lo <= hi) /\
  (LapPhysics.max_braking_g x = None <-> LapPhysics.max_accel_g x = None).
Proof.
  intros Hx. apply in_lap_physics in Hx. destruct Hx as [Hk ->].
  set (g := group_rows LapKey_dec lap_key _ telemetry). simpl.
  assert (Hne : g <> []).
  { apply in_map_iff in Hk. destruct Hk as (r & Ek & Hr).
    assert (Hin : In r g) by (apply in_group_rows; auto). member_not_nil Hin. }
  assert (HL : (0 < Z.of_nat (List.length g))%Z).
  { destruct g; [congruence|simpl; lia]. }
  split; [lia|]. split; [|split].
  - destruct (ratio_of_value is_full_throttle g Hne) as (nf & -> & Enf).
    destruct (ratio_of_value is_coasting g Hne) as (nc & -> & Enc).
    destruct (ratio_of_value is_braking g Hne) as (nb & -> & Enb).
    pose proof (count_bounds is_full_throttle g) as Bf.
    pose proof (count_bounds is_coasting g) as Bc.
    pose proof (count_bounds is_braking g) as Bb.
    assert (Hfc : (nf + nc <= Z.of_nat (List.length g))%Z).
    { subst nf nc. apply count_exclusive. intros r H.
      unfold is_full_throttle, is_coasting, sql_gt, sql_lt in *.
      destruct (Telemetry.throttle_pct r) as [v|]; [|discriminate].
      apply Qlt_bool_iff in H.
      destruct (Qlt_bool v 5) eqn:E; [|reflexivity].
      apply Qlt_bool_iff in E. exfalso. lra. }
    assert (Hcb : (nc + nb <= Z.of_nat (List.length g))%Z).
    { subst nc nb. apply count_exclusive. intros r H.
      unfold is_coasting, is_braking, sql_gt, sql_lt in *.
      apply andb_true_iff in H. destruct H as [_ H].
      destruct (Telemetry.brake_f_bar r) as [v|]; [|discriminate].
      apply Qlt_bool_iff in H.
      destruct (Qlt_bool 1 v) eqn:E; [|reflexivity].
      apply Qlt_bool_iff in E. exfalso. lra. }
    rewrite <- Enf in Bf. rewrite <- Enc in Bc. rewrite <- Enb in Bb.
    do 3 eexists. split; [reflexivity|]. split; [reflexivity|]. split; [reflexivity|].
    pose proof (ratio_zero (Z.of_nat (List.length g))) as Z0.
    pose proof (ratio_unit _ HL) as Z1.
    pose proof (ratio_le 0 nf _ HL (proj1 Bf)).
    pose proof (ratio_le 0 nc _ HL (proj1 Bc)).
    pose proof (ratio_le 0 nb _ HL (proj1 Bb)).
    pose proof (ratio_le nf _ _ HL (proj2 Bf)).
    pose proof (ratio_le nc _ _ HL (proj2 Bc)).
    pose proof (ratio_le nb _ _ HL (proj2 Bb)).
    pose proof (ratio_le _ _ _ HL Hfc) as S1.
    pose proof (ratio_le _ _ _ HL Hcb) as S2.
    rewrite <- (ratio_sum nf nc _ HL) in S1. rewrite <- (ratio_sum nc nb _ HL) in S2.
    repeat split; lra.
  - intros lo hi Elo Ehi. apply agg_min_Some in Elo. destruct Elo as [Hlo _].
    apply agg_max_Some in Ehi. destruct Ehi as [_ Hhi]. now apply Hhi.
  - rewrite agg_min_None, agg_max_None. tauto.
Qed.

Lemma lap_physics_ratios_witness :
  exists f c b,
    LapPhysics.full_throttle_ratio physics_lap = Some f /\
    LapPhysics.coasting_ratio physics_lap = Some c /\
    LapPhysics.braking_ratio physics_lap = Some b /\
    0 <= f /\ 0 <= c /\ 0 <= b /\ f <= 1 /\ c <= 1 /\ b <= 1 /\
    f + c <= 1 /\ c + b <= 1.
Proof.
  apply (lap_physics_ratios (fun q => q) telemetry_lap physics_lap).
  left. reflexivity.
Defined.

(** Every row of valid_lap_physics is a row of lap_physics joined to a lap
    that passed the validity check: its is_valid column is always true and
    its lap_time_s lies between 60 and 240 seconds. *)
Theorem valid_lap_physics_sound (sqrt : Q -> Q) (telemetry : list Telemetry.row)
  (db : Database) (v : ValidLapPhysics.row) :
  In v (valid_lap_physics sqrt telemetry db) ->
  In (ValidLapPhysics.lp v) (lap_physics sqrt telemetry) /\
  ValidLapPhysics.is_valid v = true /\
  60 <= ValidLapPhysics.lap_time_s v /\ ValidLapPhysics.lap_time_s v <= 240 /\
  exists l, In l (laps db) /\
            LapRecord.driver_id l = LapPhysics.driver_id (ValidLapPhysics.lp v) /\
            LapRecord.lap_no l = LapPhysics.lap (ValidLapPhysics.lp v) /\
            LapRecord.lap_time_s l = ValidLapPhysics.lap_time_s v.
Proof.
  unfold valid_lap_physics. intros H. apply in_map_iff in H.
  destruct H as ([x l] & <- & H). apply filter_In in H. destruct H as [H Hv].
  apply in_join in H. destruct H as (Hx & Hl & Hon). simpl in *.
  unfold on_lap_physics in Hon. apply andb_true_iff in Hon. destruct Hon as [E1 E2].
  apply str_eqb_eq in E1. apply Z.eqb_eq in E2.
  split; [exact Hx|]. split; [exact Hv|].
  rewrite (in_laps db l Hl) in Hv. apply between_iff in Hv.
  split; [tauto|]. split; [tauto|]. exists l. auto.
Qed.

Lemma valid_lap_physics_sound_witness :
  ValidLapPhysics.is_valid (ValidLapPhysics.mk physics_lap (115200 / 1000) true) = true /\
  60 <= 115200 / 1000 /\ 115200 / 1000 <= 240.
Proof.
  destruct (valid_lap_physics_sound (fun q => q) telemetry_lap db_session
              (ValidLapPhysics.mk physics_lap (115200 / 1000) true))
    as (_ & H1 & H2 & H3 & _).
  - left. reflexivity.
  - split; [exact H1|]. split; [exact H2|exact H3].
Defined.

(* ================================================================== *)
(** * Further properties: the insights document *)
(* ================================================================== *)

Lemma remove_NoDup (x : string) (l : list string) : NoDup l -> NoDup (remove string_dec x l).
Proof.
  induction l as [|y l IH]; intros H; simpl; [constructor|].
  inversion H; subst. destruct (string_dec x y); [auto|].
  constructor; [|auto]. intros Hin. apply in_remove in Hin. tauto.
Qed.

Lemma unique_NoDup (l : list string) : NoDup (unique l).
Proof.
  induction l as [|x l IH]; simpl; constructor.
  - apply remove_In.
  - now apply remove_NoDup.
Qed.

Lemma insert_desc_perm (o : DriverOpportunity.row) (l : list DriverOpportunity.row) :
  Permutation (insert_desc o l) (o :: l).
Proof.
  induction l as [|h t IH]; simpl; [apply Permutation_refl|].
  destruct (loss_ge (DriverOpportunity.avg_loss_s o) (DriverOpportunity.avg_loss_s h)).
  - apply Permutation_refl.
  - eapply Permutation_trans; [apply perm_skip, IH|apply perm_swap].
Qed.

Lemma sort_values_desc_perm (l : list DriverOpportunity.row) :
  Permutation (sort_values_desc l) l.
Proof.
  induction l as [|o l IH]; simpl; [constructor|].
  eapply Permutation_trans; [apply insert_desc_perm|]. now apply perm_skip.
Qed.

Lemma main_sectors_at_most_three (l : list MainSector) :
  NoDup l -> (List.length l <= 3)%nat.
Proof.
  intros H. apply (NoDup_incl_length H (l' := [S1; S2; S3])).
  intros [] _; simpl; auto.
Qed.

Lemma driver_rows_sectors (D : string) (l : list DriverOpportunity.row) :
  NoDup (map (fun o => (DriverOpportunity.driver_id o, DriverOpportunity.main_sector o)) l) ->
  NoDup (map DriverOpportunity.main_sector
             (filter (fun o => str_eqb (DriverOpportunity.driver_id o) D) l)).
Proof.
  induction l as [|o l IH]; intros H; simpl; [constructor|].
  inversion H as [|? ? Hnot Hnd]; subst.
  destruct (str_eqb (DriverOpportunity.driver_id o) D) eqn:E; [|auto].
  simpl. constructor; [|auto]. intros Hin. apply Hnot.
  apply in_map_iff in Hin. destruct Hin as (o' & Es & Ho').
  apply filter_In in Ho'. destruct Ho' as [Ho' E'].
  apply str_eqb_eq in E. apply str_eqb_eq in E'.
  apply in_map_iff. exists o'. split; [|exact Ho']. congruence.
Qed.

(** A driver has at most three rows in driver_opportunities, so [head(3)]
    keeps them all. *)
Lemma driver_ops_all (sqrt : Q -> Q) (db : Database) (D : string) :
  driver_ops (driver_opportunities sqrt db) D
  = sort_values_desc
      (filter (fun o => str_eqb (DriverOpportunity.driver_id o) D)
              (driver_opportunities sqrt db)).
Proof.
  unfold driver_ops. apply firstn_all2.
  rewrite (Permutation_length (sort_values_desc_perm _)).
  rewrite <- (length_map DriverOpportunity.main_sector).
  apply main_sectors_at_most_three, driver_rows_sectors.
  apply (opportunity_keys sqrt).
Qed.

Lemma insights_doc (sqrt : Q -> Q) (db : Database) (doc : list (string * DriverInsight.row)) :
  generate_insights sqrt db = Some doc ->
  doc = insights_map (driver_opportunities sqrt db) db.
Proof.
  unfold generate_insights. cbv zeta. intros H.
  destruct (driver_opportunities sqrt db); [discriminate|]. congruence.
Qed.

(** The top-3 cut of the insights document never drops a sector: the
    opportunities of a driver in the document are all the rows that
    driver_opportunities has for the driver, one per main sector, and no
    main sector appears twice. *)
Theorem insights_keep_all_sectors (sqrt : Q -> Q) (db : Database)
  (doc : list (string * DriverInsight.row)) (D : string) (data : DriverInsight.row) :
  generate_insights sqrt db = Some doc -> In (D, data) doc ->
  Permutation (DriverInsight.opportunities data)
    (map insight (filter (fun o => str_eqb (DriverOpportunity.driver_id o) D)
                         (driver_opportunities sqrt db))) /\
  NoDup (map Opportunity.main_sector (DriverInsight.opportunities data)) /\
  (forall o, In o (driver_opportunities sqrt db) -> DriverOpportunity.driver_id o = D ->
             In (insight o) (DriverInsight.opportunities data)) /\
  DriverInsight.opportunities data <> [].
Proof.
  intros Hdoc Hin.
  pose proof (insights_doc sqrt db doc Hdoc) as Edoc. subst doc.
  unfold insights_map in Hin. apply in_flat_map in Hin. destruct Hin as (D' & HD' & Hin).
  destruct (filter (fun s => str_eqb (DriverSummary.driver_id s) D') (driver_summary_df db))
    as [|s t]; [contradiction|].
  destruct Hin as [E|[]]. injection E as <- <-.
  simpl. rewrite driver_ops_all.
  set (rows := filter (fun o => str_eqb (DriverOpportunity.driver_id o) D')
                      (driver_opportunities sqrt db)).
  assert (Hperm : Permutation (map insight (sort_values_desc rows)) (map insight rows)).
  { apply Permutation_map, sort_values_desc_perm. }
  split; [exact Hperm|]. split; [|split].
  - apply (Permutation_NoDup (l := map DriverOpportunity.main_sector rows)).
    + rewrite map_map. simpl.
      change (fun x => DriverOpportunity.main_sector x) with DriverOpportunity.main_sector.
      apply Permutation_map, Permutation_sym, sort_values_desc_perm.
    + apply driver_rows_sectors. apply (opportunity_keys sqrt).
  - intros o Ho Ed. apply in_map. apply in_sort_values_desc. apply filter_In.
    split; [exact Ho|]. now apply str_eqb_eq.
  - apply (proj1 (in_unique _ _)) in HD'. apply in_map_iff in HD'.
    destruct HD' as (o & Ed & Ho).
    assert (Hin : In (insight o) (map insight (sort_values_desc rows))).
    { apply in_map. apply in_sort_values_desc. apply filter_In.
      split; [exact Ho|]. now apply str_eqb_eq. }
    intros E. rewrite E in Hin. contradiction.
Qed.

Lemma insights_keep_all_sectors_witness :
  exists doc data,
    generate_insights (fun x => x) db_session = Some doc /\
    In ("D_7"%string, data) doc /\
    NoDup (map Opportunity.main_sector (DriverInsight.opportunities data)) /\
    DriverInsight.opportunities data <> [].
Proof.
  destruct (generate_insights (fun x => x) db_session) as [doc|] eqn:E;
    [|vm_compute in E; discriminate].
  destruct doc as [|[D data] rest]; [vm_compute in E; discriminate|].
  assert (ED : D = "D_7"%string).
  { pose proof E as E'. vm_compute in E'. congruence. }
  subst D. exists (("D_7"%string, data) :: rest), data.
  split; [reflexivity|]. split; [left; reflexivity|].
  destruct (insights_keep_all_sectors (fun x => x) db_session
              (("D_7"%string, data) :: rest) "D_7"%string data E (or_introl eq_refl))
    as (_ & H2 & _ & H4).
  split; assumption.
Defined.

Lemma opportunity_driver (sqrt : Q -> Q) (db : Database) (o : DriverOpportunity.row) :
  In o (driver_opportunities sqrt db) ->
  exists d i, In d (drivers db) /\ Driver.driver_id d = DriverOpportunity.driver_id o /\
              In i (ideal_lap_driver db) /\
              DriverBestMainSector.driver_id i = DriverOpportunity.driver_id o.
Proof.
  intros Ho. unfold driver_opportunities in Ho.
  destruct (opportunity_row_spec sqrt (main_sector_deltas db) o Ho)
    as (_ & _ & _ & b & _ & [Hb _]).
  apply in_deltas_below_20 in Hb. destruct Hb as (m & Hm & Ek & _ & _).
  unfold opportunity_key in Ek. injection Ek as ED _.
  destruct (in_main_sector_deltas db m Hm) as ([r Hr] & _).
  apply in_group_rows in Hr. destruct Hr as [Hr Hk].
  apply in_sector_deltas in Hr.
  destruct Hr as (s & d & ils & ild & Hsd & _ & _ & Hild & Eild & ->).
  apply in_class_rows in Hsd. destruct Hsd as (_ & Hd & Esd & _).
  unfold delta_key, main_delta_key in Hk. simpl in Hk.
  exists d, ild. repeat split; auto; congruence.
Qed.

(** The document has one entry per driver, and a driver is in it exactly
    when driver_opportunities has a row for the driver and the driver has
    a valid lap: a driver with opportunities but no valid lap has no
    summary row and is skipped. *)
Theorem insights_drivers (sqrt : Q -> Q) (db : Database)
  (doc : list (string * DriverInsight.row)) :
  generate_insights sqrt db = Some doc ->
  NoDup (map fst doc) /\
  forall D,
    (exists data, In (D, data) doc) <->
    (exists o, In o (driver_opportunities sqrt db) /\ DriverOpportunity.driver_id o = D) /\
    (exists l, In l (laps db) /\ LapRecord.driver_id l = D /\ LapRecord.is_valid l = true).
Proof.
  intros Hdoc. pose proof (insights_doc sqrt db doc Hdoc) as Edoc. subst doc.
  unfold insights_map.
  set (pick := fun driver_id : string =>
         match filter (fun s => str_eqb (DriverSummary.driver_id s) driver_id)
                      (driver_summary_df db) with
         | [] => []
         | s :: _ =>
             [(driver_id,
               driver_data s driver_id (driver_ops (driver_opportunities sqrt db) driver_id))]
         end).
  assert (Hpick : forall D', map fst (pick D') = [] \/ map fst (pick D') = [D']).
  { intros D'. unfold pick.
    destruct (filter _ (driver_summary_df db)); simpl; auto. }
  split.
  - assert (H : forall ks, NoDup ks ->
                NoDup (map fst (flat_map pick ks)) /\
                forall x, In x (map fst (flat_map pick ks)) -> In x ks).
    { induction ks as [|k ks IH]; intros Hnd; simpl; [split; [constructor|tauto]|].
      inversion Hnd as [|? ? Hnot Hnd']; subst.
      destruct (IH Hnd') as [IH1 IH2]. rewrite map_app.
      destruct (Hpick k) as [-> | ->]; simpl.
      - split; [exact IH1|]. intros x Hx. right. now apply IH2.
      - split.
        + constructor; [|exact IH1]. intros Hx. apply Hnot. now apply IH2.
        + intros x [->|Hx]; [auto|]. right. now apply IH2. }
    apply H. apply unique_NoDup.
  - intros D. split.
    + intros (data & Hin). apply in_flat_map in Hin. destruct Hin as (D' & HD' & Hin).
      unfold pick in Hin.
      destruct (filter (fun s => str_eqb (DriverSummary.driver_id s) D') (driver_summary_df db))
        as [|s t] eqn:Ef; [contradiction|].
      destruct Hin as [E|[]]. injection E as -> _.
      split.
      * apply (proj1 (in_unique _ _)) in HD'. apply in_map_iff in HD'.
        destruct HD' as (o & Ed & Ho). exists o. auto.
      * assert (Hs : In s (filter (fun s => str_eqb (DriverSummary.driver_id s) D)
                                  (driver_summary_df db))) by (rewrite Ef; simpl; auto).
        apply filter_In in Hs. destruct Hs as [Hs Ed]. apply str_eqb_eq in Ed.
        destruct (in_driver_summary_df db s Hs) as (_ & [l d] & Hld).
        rewrite Ed in Hld. apply in_summary_group in Hld.
        destruct Hld as (Hl & _ & El & _).
        destruct (in_lap_deltas db l Hl) as (l' & i & Hl' & _ & Hv & _ & _ & E1 & _).
        exists l'. repeat split; auto. congruence.
    + intros [(o & Ho & Eo) (l & Hl & El & Hv)].
      destruct (opportunity_driver sqrt db o Ho) as (d & i & Hd & Ed & Hi & Ei).
      rewrite Eo in Ed, Ei.
      destruct (ideal_lap_of_lap db l i Hl Hi Hv) as (r & Hr & Er1 & Er2 & _);
        [congruence|].
      pose proof (lap_deltas_of_lap db l r Hl Hr Hv (eq_sym Er1) (eq_sym Er2)) as Hld.
      set (ld := LapDelta.mk (LapRecord.driver_id l) (LapRecord.lap_no l)
                   (LapRecord.lap_time_s l) (IdealLap.ideal_lap_time_s r)
                   (sql_sub (Some (LapRecord.lap_time_s l)) (IdealLap.ideal_lap_time_s r))
                   (IdealLap.class r)) in *.
      assert (Hj : In (ld, d) (join on_lap_delta_driver (lap_deltas db) (drivers db))).
      { apply in_join. split; [exact Hld|]. split; [exact Hd|].
        unfold on_lap_delta_driver. apply str_eqb_eq. simpl. congruence. }
      pose proof (group_by_of_row string_dec
                    (fun x : LapDelta.row * Driver.row => LapDelta.driver_id (fst x))
                    _ (ld, d) Hj) as Hg.
      simpl in Hg. rewrite El in Hg.
      set (s := summary_row D
                  (group_rows string_dec
                     (fun x : LapDelta.row * Driver.row => LapDelta.driver_id (fst x)) D
                     (join on_lap_delta_driver (lap_deltas db) (drivers db)))).
      assert (Hs : In s (filter (fun s => str_eqb (DriverSummary.driver_id s) D)
                                (driver_summary_df db))).
      { apply filter_In. split.
        - unfold driver_summary_df. apply in_map_iff. eexists. split; [|exact Hg]. reflexivity.
        - simpl. apply str_eqb_refl. }
      assert (HD : In D (unique (map DriverOpportunity.driver_id
                                     (driver_opportunities sqrt db)))).
      { apply in_unique. rewrite <- Eo. now apply in_map. }
      destruct (filter (fun s => str_eqb (DriverSummary.driver_id s) D) (driver_summary_df db))
        as [|s0 t] eqn:Ef; [contradiction|].
      exists (driver_data s0 D (driver_ops (driver_opportunities sqrt db) D)).
      apply in_flat_map. exists D. split; [exact HD|]. unfold pick. rewrite Ef.
      left. reflexivity.
Qed.

Lemma insights_drivers_witness :
  exists doc,
    generate_insights (fun x => x) db_no_valid_lap = Some doc /\
    NoDup (map fst doc) /\
    ((exists data, In ("D_9"%string, data) doc) <->
     (exists o, In o (driver_opportunities (fun x => x) db_no_valid_lap) /\
                DriverOpportunity.driver_id o = "D_9"%string) /\
     (exists l, In l (laps db_no_valid_lap) /\ LapRecord.driver_id l = "D_9"%string /\
                LapRecord.is_valid l = true)).
Proof.
  destruct (generate_insights (fun x => x) db_no_valid_lap) as [doc|] eqn:E;
    [|vm_compute in E; discriminate].
  exists doc. split; [reflexivity|].
  destruct (insights_drivers (fun x => x) db_no_valid_lap doc E) as [H1 H2].
  split; [exact H1|apply H2].
Defined.

(* ================================================================== *)
(** * Further properties: rounding in the document *)
(* ================================================================== *)

Lemma round_half_even_error (x : Q) :
  x - (1 # 2) <= inject_Z (round_half_even x) /\
  inject_Z (round_half_even x) <= x + (1 # 2).
Proof.
  unfold round_half_even. cbv zeta.
  pose proof (Qfloor_le x) as Hlo. pose proof (Qlt_floor x) as Hhi.
  rewrite inject_Z_plus in Hhi. change (inject_Z 1) with 1 in Hhi.
  destruct (Qcompare_spec (x - inject_Z (Qfloor x)) (1 # 2)) as [E|E|E].
  - destruct (Z.even (Qfloor x)).
    + lra.
    + rewrite inject_Z_plus. change (inject_Z 1) with 1. lra.
  - lra.
  - rewrite inject_Z_plus. change (inject_Z 1) with 1. lra.
Qed.

Lemma round_half_even_int (z : Z) : round_half_even (inject_Z z) = z.
Proof.
  unfold round_half_even. cbv zeta. rewrite Qfloor_Z.
  destruct (Qcompare_spec (inject_Z z - inject_Z z) (1 # 2)) as [E|E|E];
    [exfalso; lra|reflexivity|exfalso; lra].
Qed.

Lemma pow10_pos (n : nat) : 0 < inject_Z (10 ^ Z.of_nat n).
Proof.
  rewrite <- (Zlt_Qlt 0). apply Z.pow_pos_nonneg; lia.
Qed.

Lemma py_round_close (x : Q) (n : nat) :
  Qabs (py_round x n - x) <= (1 # 2) / inject_Z (10 ^ Z.of_nat n).
Proof.
  pose proof (pow10_pos n) as HP. set (P := inject_Z (10 ^ Z.of_nat n)) in *.
  assert (HP' : ~ P == 0) by lra.
  unfold py_round. fold P.
  destruct (round_half_even_error (x * P)) as [H1 H2].
  set (r := inject_Z (round_half_even (x * P))) in *.
  apply Qabs_case; intros _.
  - apply Qle_shift_div_l; [exact HP|].
    assert (E : (r / P - x) * P == r - x * P) by (field; exact HP').
    rewrite E. lra.
  - apply Qle_shift_div_l; [exact HP|].
    assert (E : - (r / P - x) * P == x * P - r) by (field; exact HP').
    rewrite E. lra.
Qed.

(** [round(x, n)] moves a value by at most half a unit of the last
    decimal kept, gives a multiple of that unit, and leaves a value that is
    already rounded as it is. *)
Theorem py_round_error (x : Q) (n : nat) :
  Qabs (py_round x n - x) <= (1 # 2) / inject_Z (10 ^ Z.of_nat n) /\
  (exists k : Z, py_round x n == inject_Z k / inject_Z (10 ^ Z.of_nat n)) /\
  py_round (py_round x n) n = py_round x n.
Proof.
  pose proof (pow10_pos n) as HP. set (P := inject_Z (10 ^ Z.of_nat n)) in *.
  assert (HP' : ~ P == 0) by lra.
  split; [apply py_round_close|split].
  - exists (round_half_even (x * P)). unfold py_round. fold P. reflexivity.
  - unfold py_round at 1. fold P. unfold py_round at 1. fold P.
    assert (E : inject_Z (round_half_even (x * P)) / P * P
                == inject_Z (round_half_even (x * P))) by (field; exact HP').
    rewrite (round_half_even_proper _ _ E), round_half_even_int.
    unfold py_round. reflexivity.
Qed.

(** The three lap figures of a document entry, before rounding. *)
Lemma document_times (sqrt : Q -> Q) (db : Database)
  (doc : list (string * DriverInsight.row)) (D : string) (data : DriverInsight.row) :
  generate_insights sqrt db = Some doc -> In (D, data) doc ->
  exists best ideal,
    DriverInsight.best_lap_s data = round3 (Some best) /\
    DriverInsight.ideal_lap_s data = round3 ideal /\
    DriverInsight.total_time_opportunity_s data = round3 (sql_sub (Some best) ideal) /\
    DriverInsight.delta_to_ideal_s data = DriverInsight.total_time_opportunity_s data.
Proof.
  intros Hdoc Hin.
  destruct (in_generate_insights sqrt db doc D data Hdoc Hin) as (s & Hs & Ed & ->).
  destruct (in_driver_summary_df db s Hs) as (Es & [l0 d0] & H0).
  rewrite Ed in *. set (G := summary_group db D) in *.
  destruct (summary_group_ideal db D l0 d0 H0) as (i & Hi & Ei & Hrows).
  assert (Hne : G <> []) by (intros E; rewrite E in H0; contradiction).
  assert (Hbest : exists best,
            agg_min (map (fun ld => Some (LapDelta.lap_time_s (fst ld))) G) = Some best /\
            is_min best (map (fun ld => LapDelta.lap_time_s (fst ld)) G)).
  { destruct (agg_min (map (fun ld => Some (LapDelta.lap_time_s (fst ld))) G))
      as [m|] eqn:E.
    - exists m. split; [reflexivity|]. apply agg_min_Some in E.
      now rewrite somes_map_Some in E.
    - apply agg_min_None in E. rewrite somes_map_Some in E.
      destruct G; [congruence|discriminate]. }
  destruct Hbest as (best & Ebest & Hbest).
  exists best, (ideal_of i).
  rewrite Es. unfold driver_data, summary_row. simpl.
  fold G. rewrite Ebest. split; [reflexivity|].
  assert (Eideal : agg_min (map (fun ld => LapDelta.ideal_lap_time_s (fst ld)) G)
                   = ideal_of i).
  { apply agg_min_const.
    - destruct G; [congruence|discriminate].
    - intros x Hx. apply in_map_iff in Hx. destruct Hx as ([l d] & <- & Hld).
      apply (Hrows l d Hld). }
  rewrite Eideal. split; [reflexivity|]. split; [|reflexivity].
  destruct (ideal_of i) as [x|] eqn:EX.
  - assert (Emap : map (fun ld : LapDelta.row * Driver.row => LapDelta.delta_lap_s (fst ld)) G
                   = map (fun ld => Some (LapDelta.lap_time_s (fst ld) - x)) G).
    { apply map_ext_in. intros [l d] Hld. simpl.
      destruct (Hrows l d Hld) as [_ E]. rewrite E. reflexivity. }
    rewrite Emap.
    destruct (agg_min (map (fun ld : LapDelta.row * Driver.row =>
                              Some (LapDelta.lap_time_s (fst ld) - x)) G))
      as [md|] eqn:E.
    + apply agg_min_Some in E.
      rewrite (somes_map_Some (fun ld : LapDelta.row * Driver.row =>
                                 LapDelta.lap_time_s (fst ld) - x)) in E.
      rewrite <- (map_map (fun ld : LapDelta.row * Driver.row => LapDelta.lap_time_s (fst ld))
                          (fun t => t - x)) in E.
      simpl. f_equal. apply py_round_proper.
      apply (is_min_shift best md x _ Hbest E).
    + apply agg_min_None in E.
      rewrite (somes_map_Some (fun ld : LapDelta.row * Driver.row =>
                                 LapDelta.lap_time_s (fst ld) - x)) in E.
      destruct G; [congruence|discriminate].
  - rewrite (agg_min_const (map (fun ld : LapDelta.row * Driver.row =>
                                   LapDelta.delta_lap_s (fst ld)) G) None).
    + reflexivity.
    + destruct G; [congruence|discriminate].
    + intros y Hy. apply in_map_iff in Hy. destruct Hy as ([l d] & <- & Hld).
      simpl. destruct (Hrows l d Hld) as [_ E]. rewrite E. reflexivity.
Qed.

Lemma thousandths_gap (rt rb ri : Z) (best ideal : Q) :
  Qabs (inject_Z rt / 1000 - (best - ideal)) <= (1 # 2) / 1000 ->
  Qabs (inject_Z rb / 1000 - best) <= (1 # 2) / 1000 ->
  Qabs (inject_Z ri / 1000 - ideal) <= (1 # 2) / 1000 ->
  Qabs (inject_Z rt / 1000 - (inject_Z rb / 1000 - inject_Z ri / 1000)) <= 1 / 1000.
Proof.
  intros Ht Hb Hi.
  apply Qabs_Qle_condition in Ht. apply Qabs_Qle_condition in Hb.
  apply Qabs_Qle_condition in Hi.
  assert (Ea : inject_Z rt == inject_Z rt / 1000 * 1000) by field.
  assert (Eb : inject_Z rb == inject_Z rb / 1000 * 1000) by field.
  assert (Ec : inject_Z ri == inject_Z ri / 1000 * 1000) by field.
  assert (Eh : (1 # 2) / 1000 == 1 # 2000) by reflexivity.
  assert (Eu : 1 / 1000 == 1 # 1000) by reflexivity.
  rewrite Eh in Ht, Hb, Hi. rewrite Eu. clear Eh Eu.
  set (x := inject_Z rt / 1000) in *. set (y := inject_Z rb / 1000) in *.
  set (z := inject_Z ri / 1000) in *.
  assert (Hk : (-1 <= rt - rb + ri <= 1)%Z).
  { assert (H1 : inject_Z (rt - rb + ri) < inject_Z 2).
    { unfold Zminus. rewrite !inject_Z_plus, inject_Z_opp, Ea, Eb, Ec.
      change (inject_Z 2) with 2. lra. }
    assert (H2 : inject_Z (-2) < inject_Z (rt - rb + ri)).
    { unfold Zminus. rewrite !inject_Z_plus, inject_Z_opp, Ea, Eb, Ec.
      change (inject_Z (-2)) with (-2). lra. }
    rewrite <- Zlt_Qlt in H1, H2. lia. }
  destruct Hk as [Hk1 Hk2]. rewrite Zle_Qle in Hk1, Hk2.
  unfold Zminus in Hk1, Hk2.
  rewrite !inject_Z_plus, inject_Z_opp, Ea, Eb, Ec in Hk1, Hk2.
  change (inject_Z (-1)) with (-1) in Hk1. change (inject_Z 1) with 1 in Hk2.
  apply Qabs_Qle_condition. split; lra.
Qed.

(** In an entry of the document the three lap figures are rounded one by
    one, so total_time_opportunity_s need not equal best_lap_s minus
    ideal_lap_s, but the two differ by at most 0.001; delta_to_ideal_s is
    the same number as total_time_opportunity_s. *)
Theorem document_rounding_gap (sqrt : Q -> Q) (db : Database)
  (doc : list (string * DriverInsight.row)) (D : string) (data : DriverInsight.row)
  (b i t : Q) :
  generate_insights sqrt db = Some doc -> In (D, data) doc ->
  DriverInsight.best_lap_s data = Some b ->
  DriverInsight.ideal_lap_s data = Some i ->
  DriverInsight.total_time_opportunity_s data = Some t ->
  Qabs (t - (b - i)) <= 1 / 1000 /\
  DriverInsight.delta_to_ideal_s data = Some t.
Proof.
  intros Hdoc Hin Eb Ei Et.
  destruct (document_times sqrt db doc D data Hdoc Hin)
    as (best & ideal & Hb & Hi & Ht & Hd).
  split; [|congruence].
  rewrite Eb in Hb. rewrite Ei in Hi. rewrite Et in Ht.
  destruct ideal as [ideal|]; [|discriminate].
  simpl in Hb, Hi, Ht. injection Hb as ->. injection Hi as ->. injection Ht as ->.
  pose proof (py_round_close (best - ideal) 3) as H1.
  pose proof (py_round_close best 3) as H2.
  pose proof (py_round_close ideal 3) as H3.
  unfold py_round in *.
  change (inject_Z (10 ^ Z.of_nat 3)) with 1000 in *.
  exact (thousandths_gap _ _ _ best ideal H1 H2 H3).
Qed.

Lemma document_rounding_gap_witness :
  Qabs (1.000 - (100.000 - 99.001)) <= 1 / 1000.
Proof.
  destruct (generate_insights (fun x => x) db_round) as [doc|] eqn:E;
    [|vm_compute in E; discriminate].
  destruct doc as [|[D data] rest]; [vm_compute in E; discriminate|].
  refine (proj1 (document_rounding_gap (fun x => x) db_round
                   ((D, data) :: rest) D data 100.000 99.001 1.000 E (or_introl eq_refl) _ _ _)).
  - vm_compute in E. injection E as _ <- _. reflexivity.
  - vm_compute in E. injection E as _ <- _. reflexivity.
  - vm_compute in E. injection E as _ <- _. reflexivity.
Defined.

(* ================================================================== *)
(** * Further properties: the sectors table *)
(* ================================================================== *)


Section SectorsTable.
Variable py_int : string -> Outcome Z.
Variable py_float : string -> Outcome Q.
Variable has_column : SectorId -> bool.


End SectorsTable.

(* ================================================================== *)
(** * Further properties: laps and car numbers *)
(* ================================================================== *)

Lemma to_int_not_nil (z : Z) : Z.to_int z <> Decimal.Pos Decimal.Nil /\
                               Z.to_int z <> Decimal.Neg Decimal.Nil.
Proof.
  destruct z; simpl; split; try discriminate.
  - intros E. injection E as E. now apply Unsigned.to_uint_nonnil in E.
  - intros E. injection E as E. now apply Unsigned.to_uint_nonnil in E.
Qed.

Lemma driver_id_of_inj (a b : Z) : driver_id_of a = driver_id_of b -> a = b.
Proof.
  unfold driver_id_of. simpl. intros E. injection E as E.
  apply to_int_inj.
  destruct (to_int_not_nil a) as [A1 A2]. destruct (to_int_not_nil b) as [B1 B2].
  pose proof (NilZero.isi _ A1 A2) as Ha. pose proof (NilZero.isi _ B1 B2) as Hb.
  rewrite E in Ha. congruence.
Qed.

(** The laps table has one row per merged lap.  Its driver ids identify
    the cars: two laps carry the same driver_id exactly when they carry
    the same car number.  A lap is valid exactly when its time lies
    between 60000 and 240000 milliseconds, both ends included. *)
Theorem run_laps_pipeline_rows (merged : list MergedLap.row) :
  List.length (run_laps_pipeline merged) = List.length merged /\
  (forall l1 l2, In l1 (run_laps_pipeline merged) -> In l2 (run_laps_pipeline merged) ->
     (LapRecord.driver_id l1 = LapRecord.driver_id l2 <->
      LapRecord.car_no l1 = LapRecord.car_no l2)) /\
  (forall l, In l (run_laps_pipeline merged) ->
     exists m, In m merged /\
       LapRecord.car_no l = MergedLap.car_no m /\
       LapRecord.lap_no l = MergedLap.lap m /\
       (LapRecord.is_valid l = true <->
        60000 <= MergedLap.lap_time_ms m /\ MergedLap.lap_time_ms m <= 240000)).
Proof.
  unfold run_laps_pipeline. split; [apply length_map|]. split.
  - intros l1 l2 H1 H2. apply in_map_iff in H1. apply in_map_iff in H2.
    destruct H1 as (m1 & <- & _). destruct H2 as (m2 & <- & _). simpl. split.
    + apply driver_id_of_inj.
    + intros ->. reflexivity.
  - intros l Hl. apply in_map_iff in Hl. destruct Hl as (m & <- & Hm).
    exists m. simpl. split; [exact Hm|]. split; [reflexivity|]. split; [reflexivity|].
    rewrite between_iff.
    assert (E : MergedLap.lap_time_ms m == MergedLap.lap_time_ms m / 1000 * 1000) by field.
    set (s := MergedLap.lap_time_ms m / 1000) in *. rewrite E. split; intros [? ?]; split; lra.
Qed.

Lemma split_nonempty (sep : ascii) (s : string) : split sep s <> [].
Proof.
  destruct s as [|c s]; simpl; [discriminate|].
  destruct (Ascii.eqb c sep); [discriminate|]. destruct (split sep s); discriminate.
Qed.

Lemma split_app (sep : ascii) (a b : string) :
  split sep (a ++ String sep b) = split sep a ++ split sep b.
Proof.
  induction a as [|c a IH]; simpl.
  - now rewrite Ascii.eqb_refl.
  - destruct (Ascii.eqb c sep); [now rewrite IH|].
    rewrite IH. pose proof (split_nonempty sep a) as Hne.
    destruct (split sep a) as [|p ps]; [congruence|]. reflexivity.
Qed.

Lemma split_no_sep (sep : ascii) (s : string) :
  contains sep s = false -> split sep s = [s].
Proof.
  induction s as [|c s IH]; simpl; [reflexivity|].
  intros H. apply orb_false_iff in H. destruct H as [H1 H2].
  rewrite H1, (IH H2). reflexivity.
Qed.

Lemma last_app_nonempty {A : Type} (l1 l2 : list A) (d : A) :
  l2 <> [] -> last (l1 ++ l2) d = last l2 d.
Proof.
  intros H. induction l1 as [|x l1 IH]; [reflexivity|].
  simpl. destruct (l1 ++ l2) eqn:E; [|exact IH].
  apply app_eq_nil in E. tauto.
Qed.

(** extract_car_no reads only the text after the last dash of the vehicle
    id: whatever stands before a dash does not matter.  A missing id, or a
    last field that [int] rejects, gives -1. *)
Theorem extract_car_no_last_field (py_int : string -> Outcome Z) :
  extract_car_no py_int None = (-1)%Z /\
  (forall a b : string,
     extract_car_no py_int (Some (a ++ String "-" b)%string)
     = extract_car_no py_int (Some b)) /\
  (forall v, contains "-" v = false ->
     extract_car_no py_int (Some v)
     = match py_int v with Returns n => n | Raises => (-1)%Z end) /\
  (forall a b, contains "-" b = false -> py_int b = Raises ->
     extract_car_no py_int (Some (a ++ String "-" b)%string) = (-1)%Z).
Proof.
  assert (Hlast : forall a b : string,
            extract_car_no py_int (Some (a ++ String "-" b)%string)
            = extract_car_no py_int (Some b)).
  { intros a b. unfold extract_car_no. rewrite split_app.
    rewrite last_app_nonempty by apply split_nonempty. reflexivity. }
  assert (Hplain : forall v, contains "-" v = false ->
            extract_car_no py_int (Some v)
            = match py_int v with Returns n => n | Raises => (-1)%Z end).
  { intros v H. unfold extract_car_no. rewrite (split_no_sep _ _ H). reflexivity. }
  split; [reflexivity|]. split; [exact Hlast|]. split; [exact Hplain|].
  intros a b Hb Hr. rewrite Hlast, (Hplain b Hb), Hr. reflexivity.
Qed.

